(** * ollama-chatbot: the streaming response assembler of [ChatComponent]

    A shallow embedding of [streamGenerate] and [sendMessage]
    (src/app/app.config.ts, the chat component) and of the platform
    operations they call: JavaScript strings as sequences of UTF-16 code
    units, [String.prototype.indexOf], [slice] and [trim], the WHATWG
    UTF-8 [TextDecoder] in streaming mode, the values [JSON.parse] can
    return, and the RxJS [Subscriber] gate. *)

From Stdlib Require Import String Ascii.
From stdpp Require Import base list numbers.
From Equations Require Import Equations.

Set Default Proof Using "Type".
Set Warnings "-register-all".
Local Open Scope Z_scope.

(** ** JavaScript strings *)

Module JsString.

(** A JavaScript string is a finite sequence of UTF-16 code units. *)
Definition code_unit := N.
Definition jsstring := list code_unit.

(** ASCII literals of the source, as code units. *)
Definition lit (s : string) : jsstring :=
  (fun a => N_of_ascii a) <$> list_ascii_of_string s.

Definition LF : code_unit := 10%N.

Fixpoint starts_with (pat s : jsstring) : bool :=
  match pat, s with
  | [], _ => true
  | p :: pat', c :: s' => (p =? c)%N && starts_with pat' s'
  | _ :: _, [] => false
  end.

(** [s.indexOf(pat)], searching from position [k] of the original
    string: the least index at which [pat] occurs, [-1] if none. *)
Fixpoint indexOf_from (k : Z) (s pat : jsstring) : Z :=
  if starts_with pat s then k
  else match s with
       | [] => -1
       | _ :: s' => indexOf_from (k + 1) s' pat
       end.

Definition indexOf (s pat : jsstring) : Z := indexOf_from 0 s pat.

(** The clamping of a relative index done by [slice]. *)
Definition clamp_index (len i : Z) : Z :=
  if i <? 0 then Z.max (len + i) 0 else Z.min i len.

(** [s.slice(start, end)]; [None] is an omitted [end]. *)
Definition slice (s : jsstring) (start : Z) (end_ : option Z) : jsstring :=
  let len := Z.of_nat (length s) in
  let from := clamp_index len start in
  let to := match end_ with
            | None => len
            | Some e => clamp_index len e
            end in
  take (Z.to_nat (to - from)) (drop (Z.to_nat from) s).

(** WhiteSpace and LineTerminator code points, stripped by [trim]. *)
Definition is_white_space (c : code_unit) : bool :=
  ((9 <=? c) && (c <=? 13) || (c =? 32) || (c =? 160) || (c =? 5760)
   || (8192 <=? c) && (c <=? 8202) || (c =? 8232) || (c =? 8233)
   || (c =? 8239) || (c =? 8287) || (c =? 12288) || (c =? 65279))%N.

Fixpoint trimStart (s : jsstring) : jsstring :=
  match s with
  | c :: s' => if is_white_space c then trimStart s' else s
  | [] => []
  end.

Definition trimEnd (s : jsstring) : jsstring :=
  reverse (trimStart (reverse s)).

Definition trim (s : jsstring) : jsstring := trimEnd (trimStart s).

(** [s.split("\n")]: the segments between line feeds; the last one
    is what follows the last line feed. *)
Fixpoint split (s : jsstring) : list jsstring :=
  match s with
  | [] => [[]]
  | c :: s' =>
      if (c =? LF)%N then [] :: split s'
      else match split s' with
           | seg :: segs => (c :: seg) :: segs
           | [] => [[c]]
           end
  end.

(** Lines, each ended by a line feed. *)
Definition join_lines (lines : list jsstring) : jsstring :=
  mjoin ((fun l => l ++ [LF]) <$> lines).

(** The segments that a line feed ends, and the one no line feed
    ends. *)
Definition complete_lines (s : jsstring) : list jsstring :=
  take (length (split s) - 1) (split s).

Definition partial_line (s : jsstring) : jsstring :=
  List.last (split s) [].

(** The empty string is the only falsy string. *)
Definition truthy_string (s : jsstring) : bool :=
  match s with [] => false | _ :: _ => true end.

Fixpoint eqb (a b : jsstring) : bool :=
  match a, b with
  | [], [] => true
  | x :: a', y :: b' => (x =? y)%N && eqb a' b'
  | _, _ => false
  end.

End JsString.
Export JsString.

(** ** The streaming UTF-8 [TextDecoder] *)

Module TextDecoder.

(** The state of the WHATWG UTF-8 decoder. *)
Record utf8_state := {
  code_point : N;
  bytes_seen : N;
  bytes_needed : N;
  lower_boundary : N;
  upper_boundary : N
}.

Definition utf8_initial : utf8_state :=
  {| code_point := 0; bytes_seen := 0; bytes_needed := 0;
     lower_boundary := 128; upper_boundary := 191 |}.

Definition REPLACEMENT : N := 65533.

(** A byte read while no sequence is open. *)
Definition utf8_lead (b : N) : utf8_state * list N :=
  (if b <=? 127 then (utf8_initial, [b])
   else if (194 <=? b) && (b <=? 223) then
     ({| code_point := N.land b 31; bytes_seen := 0; bytes_needed := 1;
         lower_boundary := 128; upper_boundary := 191 |}, [])
   else if (224 <=? b) && (b <=? 239) then
     ({| code_point := N.land b 15; bytes_seen := 0; bytes_needed := 2;
         lower_boundary := if b =? 224 then 160 else 128;
         upper_boundary := if b =? 237 then 159 else 191 |}, [])
   else if (240 <=? b) && (b <=? 244) then
     ({| code_point := N.land b 7; bytes_seen := 0; bytes_needed := 3;
         lower_boundary := if b =? 240 then 144 else 128;
         upper_boundary := if b =? 244 then 143 else 191 |}, [])
   else (utf8_initial, [REPLACEMENT]))%N.

(** One byte through the decoder: the new state and the scalar values
    produced.  A byte that cannot continue the open sequence closes it
    with U+FFFD and is then read again as a lead byte. *)
Definition utf8_step (st : utf8_state) (b : N) : utf8_state * list N :=
  (if bytes_needed st =? 0 then utf8_lead b
   else if (b <? lower_boundary st) || (upper_boundary st <? b) then
     let '(st', out) := utf8_lead b in (st', REPLACEMENT :: out)
   else
     let cp := N.lor (N.shiftl (code_point st) 6) (N.land b 63) in
     let seen := bytes_seen st + 1 in
     if seen =? bytes_needed st then (utf8_initial, [cp])
     else ({| code_point := cp; bytes_seen := seen;
              bytes_needed := bytes_needed st;
              lower_boundary := 128; upper_boundary := 191 |}, []))%N.

(** A scalar value as UTF-16 code units. *)
Definition utf16_units (cp : N) : jsstring :=
  (if cp <? 65536 then [cp]
   else [55296 + N.shiftr (cp - 65536) 10; 56320 + N.land (cp - 65536) 1023])%N.

(** The decoder object: [new TextDecoder()] is UTF-8, not fatal and
    strips one leading byte order mark. *)
Record t := { utf8 : utf8_state; BOM_seen : bool }.

Definition create : t := {| utf8 := utf8_initial; BOM_seen := false |}.

(** Serialising the scalar values of one byte. *)
Fixpoint serialize (seen : bool) (items : list N) : bool * jsstring :=
  match items with
  | [] => (seen, [])
  | cp :: items' =>
      if negb seen && (cp =? 65279)%N then serialize true items'
      else let '(seen', out) := serialize true items' in
           (seen', utf16_units cp ++ out)
  end.

Definition step (d : t) (b : Byte.byte) : t * jsstring :=
  let '(u, items) := utf8_step (utf8 d) (Byte.to_N b) in
  let '(seen, out) := serialize (BOM_seen d) items in
  ({| utf8 := u; BOM_seen := seen |}, out).

(** [decoder.decode(value, { stream: true })]: the bytes of [value] go
    through the decoder one by one; its state is kept for the next
    call and an unfinished sequence is not flushed. *)
Fixpoint decode (d : t) (value : list Byte.byte) : t * jsstring :=
  match value with
  | [] => (d, [])
  | b :: value' =>
      let '(d1, out1) := step d b in
      let '(d2, out2) := decode d1 value' in
      (d2, out1 ++ out2)
  end.

End TextDecoder.

(** ** Values and errors *)

(** A numeral of a JSON text: its value is the double nearest to
    [(-1)^negative * digits * 10^exponent]. *)
Record number := {
  negative : bool;
  digits : N;
  exponent : Z
}.

(** What [JSON.parse] returns, and [undefined] for an absent property.
    An object keeps its properties in insertion order. *)
Inductive jsval :=
| JUndefined
| JNull
| JBool (b : bool)
| JNum (n : number)
| JStr (s : jsstring)
| JArr (items : list jsval)
| JObj (props : list (jsstring * jsval)).

Inductive error_name := SyntaxError | TypeError | OtherError (name : jsstring).

(** A thrown [Error] object, as far as the program looks at it. *)
Record js_error := { name : error_name; message : jsstring }.

(** What differs between JavaScript engines: the parser with the
    message of its [SyntaxError], the digits of [Number::toString] and
    the [TypeError] of reading a property of [null]. *)
Class Engine := {
  JSON_parse : jsstring -> js_error + jsval;
  Number_toString : number -> jsstring;
  null_property_error : jsstring -> js_error
}.

Module JsValue.

(** ToBoolean of a number: only zero is falsy ([JSON.parse] never
    returns NaN).  The nearest double is zero when the numeral is at
    most [2^-1075] in magnitude. *)
Definition truthy_number (n : number) : bool :=
  if (digits n =? 0)%N then false
  else if 0 <=? exponent n then true
  else 10 ^ (- exponent n) <? Z.of_N (digits n) * 2 ^ 1075.

(** ToBoolean. *)
Definition truthy (v : jsval) : bool :=
  match v with
  | JUndefined | JNull => false
  | JBool b => b
  | JNum n => truthy_number n
  | JStr s => truthy_string s
  | JArr _ | JObj _ => true
  end.

(** The value of an own property; the last of several equal keys is
    the one [JSON.parse] keeps. *)
Fixpoint own_property (props : list (jsstring * jsval)) (key : jsstring)
  : option jsval :=
  match props with
  | [] => None
  | (k, v) :: props' =>
      match own_property props' key with
      | Some v' => Some v'
      | None => if JsString.eqb k key then Some v else None
      end
  end.

(** The property [key] of a value that is not [null], for the keys
    [response] and [done], which no prototype defines: only an own
    property of an object is found. *)
Definition property (v : jsval) (key : jsstring) : jsval :=
  match v with
  | JObj props => default JUndefined (own_property props key)
  | _ => JUndefined
  end.

(** [v.key]; reading from [null] throws. *)
Definition get `{Engine} (v : jsval) (key : jsstring) : js_error + jsval :=
  match v with
  | JNull => inl (null_property_error key)
  | _ => inr (property v key)
  end.

End JsValue.

(** ** The network, as [fetch] and the body reader present it *)

(** How the response body ends: [reader.read()] resolves with
    [done: true], or rejects (the connection dropped). *)
Inductive body_end := EndOfStream | ReadFailure (e : js_error).

Record body := {
  chunks : list (list Byte.byte);
  ending : body_end
}.

(** [fetch] rejects, or resolves with a response whose [body] may be
    [null]. *)
Inductive fetch_result :=
| FetchRejected (e : js_error)
| FetchResolved (b : option body).

(** The request [streamGenerate] sends: POST to [url] with the JSON
    body [{ model, prompt, stream }]. *)
Record request := {
  url : jsstring;
  content_type : jsstring;
  model : jsstring;
  prompt : jsstring;
  stream : bool
}.

(** A call of a method of the observer. *)
Inductive event :=
| Next (v : jsval)
| Complete
| Error (e : js_error).

(** What [streamGenerate] does once subscribed, in order. *)
Inductive action :=
| Fetch (r : request)
| Read
| Call (ev : event).

(** ** [streamGenerate] *)

Module StreamDecoder.
Import JsValue.

(** How the inner [while] loop is left. *)
Inductive control :=
| Break (buffer : jsstring)
| Return_
| Throw (e : js_error).

Definition inspect {A} (a : A) : {b : A | a = b} := exist _ a eq_refl.

Section WithEngine.
Context `{Engine}.

(** The inner loop over the lines that are complete in [buffer]:
    the fragments handed to [observer.next], in order, and how the
    loop is left. *)
Equations? drain (buffer : jsstring) : list jsval * control
  by wf (length buffer) lt :=
  drain buffer with inspect (0 <=? indexOf buffer [LF]) := {
    | exist _ false _ => ([], Break buffer)
    | exist _ true Hidx
        with trim (slice buffer 0 (Some (indexOf buffer [LF]))) := {
        | [] => drain (slice buffer (indexOf buffer [LF] + 1) None)
        | line with JSON_parse line := {
            | inl e => ([], Throw e)
            | inr chunk with get chunk (lit "response") := {
                | inl e => ([], Throw e)
                | inr fragment with get chunk (lit "done") := {
                    | inl e => ([fragment], Throw e)
                    | inr done_ with truthy done_ := {
                        | true => ([fragment], Return_)
                        | false =>
                            let '(out, c) :=
                              drain (slice buffer (indexOf buffer [LF] + 1) None) in
                            (fragment :: out, c) } } } } } }.
Proof.
  all: apply Z.leb_le in Hidx.
  all: destruct buffer as [|c0 buffer]; [cbn in Hidx; lia|].
  all: unfold slice, clamp_index; rewrite length_take, length_drop.
  all: destruct (indexOf (c0 :: buffer) [LF] + 1 <? 0) eqn:E; [lia|].
  all: cbn [length] in *; lia.
Qed.

(** The body of the inner loop on one line: the fragment handed
    to [observer.next], if any, and how the loop is left, if it
    is. *)
Definition line_step (raw : jsstring) : list jsval * option control :=
  match trim raw with
  | [] => ([], None)
  | line =>
      match JSON_parse line with
      | inl e => ([], Some (Throw e))
      | inr chunk =>
          match get chunk (lit "response") with
          | inl e => ([], Some (Throw e))
          | inr fragment =>
              match get chunk (lit "done") with
              | inl e => ([fragment], Some (Throw e))
              | inr done_ =>
                  if truthy done_ then ([fragment], Some Return_)
                  else ([fragment], None)
              end
          end
      end
  end.

(** The lines in order, up to the first that leaves the loop;
    [rest] is what stays in the buffer when none does. *)
Fixpoint process_lines (lines : list jsstring) (rest : jsstring)
  : list jsval * control :=
  match lines with
  | [] => ([], Break rest)
  | l :: lines' =>
      match line_step l with
      | (out, Some c) => (out, c)
      | (out, None) =>
          let '(out', c) := process_lines lines' rest in (out ++ out', c)
      end
  end.

(** The reference the incremental loop is compared with: the whole
    text split at line feeds and every segment processed in order. *)
Definition naive_reference (text : jsstring) : list jsval * control :=
  process_lines (split text) [].

(** A record of the wire, [{ "response": ..., "done": ... }]. *)
Record wire_record := {
  response : jsstring;
  done : bool
}.

(** The record a line carries, when it is one: the line has no line
    feed inside and its trimmed text parses to an object with a
    string [response] and a boolean [done]. *)
Definition record_of_line (l : jsstring) : option wire_record :=
  if bool_decide (LF ∈ l) then None
  else match trim l with
       | [] => None
       | line =>
           match JSON_parse line with
           | inr (JObj props) =>
               match own_property props (lit "response"),
                     own_property props (lit "done") with
               | Some (JStr r), Some (JBool d) =>
                   Some {| response := r; done := d |}
               | _, _ => None
               end
           | _ => None
           end
       end.

(** The records up to and including the first whose [done] is
    [true]. *)
Fixpoint upto_done (records : list wire_record) : list wire_record :=
  match records with
  | [] => []
  | r :: records' => r :: if done r then [] else upto_done records'
  end.

Definition calls (out : list jsval) : list action :=
  (fun v => Call (Next v)) <$> out.

(** The outer loop: one [reader.read()] per turn, the decoded text
    appended to [buffer], then the inner loop.  [done] on the last
    read leaves the loop for the final [observer.complete()]; a
    rejected read or an exception leaves the [async] function, whose
    rejection [catch] hands to [observer.error]. *)
Fixpoint read_loop (decoder : TextDecoder.t) (buffer : jsstring)
    (chunks : list (list Byte.byte)) (ending : body_end) : list action :=
  Read ::
  match chunks with
  | [] =>
      match ending with
      | EndOfStream => [Call Complete]
      | ReadFailure e => [Call (Error e)]
      end
  | value :: chunks' =>
      let '(decoder', text) := TextDecoder.decode decoder value in
      match drain (buffer ++ text) with
      | (out, Break buffer') =>
          calls out ++ read_loop decoder' buffer' chunks' ending
      | (out, Return_) => calls out ++ [Call Complete]
      | (out, Throw e) => calls out ++ [Call (Error e)]
      end
  end.

Definition endpoint : jsstring := lit "http://localhost:11434/api/generate".
Definition default_model : jsstring := lit "gemma:2b".

Definition generate_request (prompt : jsstring) (model : option jsstring)
  : request :=
  {| url := endpoint;
     content_type := lit "application/json";
     model := default default_model model;
     prompt := prompt;
     stream := true |}.

(** The text of the whole body, and the call the end of the body
    leads to when no line has left the loop. *)
Definition decoded_text (chunks : list (list Byte.byte)) : jsstring :=
  (TextDecoder.decode TextDecoder.create (mjoin chunks)).2.

Definition end_event (ending : body_end) : event :=
  match ending with
  | EndOfStream => Complete
  | ReadFailure e => Error e
  end.

(** The [then] and [catch] callbacks: a rejected [fetch] and a
    [null] body end in [observer.error]. *)
Definition respond (net : fetch_result) : list action :=
  match net with
  | FetchRejected e => [Call (Error e)]
  | FetchResolved None => [Call (Error (null_property_error (lit "getReader")))]
  | FetchResolved (Some b) =>
      read_loop TextDecoder.create [] (chunks b) (ending b)
  end.

(** [streamGenerate(prompt, model)], subscribed to, on a network
    that answers with [net].  The request is sent at once, whatever
    [prompt] is. *)
Definition streamGenerate (prompt : jsstring) (model : option jsstring)
    (net : fetch_result) : list action :=
  Fetch (generate_request prompt model) :: respond net.

(** The observer calls of a run, and the number of reads. *)
Definition events (acts : list action) : list event :=
  omap (fun a => match a with Call ev => Some ev | _ => None end) acts.

Definition fragments (acts : list action) : list jsval :=
  omap (fun a => match a with Call (Next v) => Some v | _ => None end) acts.

Definition reads (acts : list action) : nat :=
  length (omap (fun a => match a with Read => Some () | _ => None end) acts).

(** The actions up to and including the [n]-th fragment handed to
    the observer, and those after it. *)
Fixpoint upto_fragment (acts : list action) (n : nat)
  : list action * list action :=
  match acts, n with
  | _, O => ([], acts)
  | [], S _ => ([], [])
  | a :: acts', S n' =>
      let '(before, after) :=
        upto_fragment acts'
          match a with Call (Next _) => n' | _ => n end in
      (a :: before, after)
  end.

End WithEngine.
End StreamDecoder.

(** ** The chat component *)

Module Chat.
Import JsValue StreamDecoder.

Inductive origin := user | bot.

(** What the [text] field can hold at run time: a string, or the NaN
    that [undefined + x] gives for a primitive [x] that is no string. *)
Inductive text_value := TString (s : jsstring) | TNaN.

(** [interface Message]; [None] is an absent field. *)
Record Message := {
  from : origin;
  text : option text_value;
  loading : option bool
}.

Record ChatComponent := {
  messages : list Message;
  isLoading : bool
}.

Section WithEngine.
Context `{Engine}.

(** The message [m] with the text [t]: an assignment to [m.text]. *)
Definition with_text (m : Message) (t : option text_value) : Message :=
  {| from := from m; text := t; loading := loading m |}.

(** ToString of a parsed value, as the [+] of [text += chunk] and
    the join of an array compute it.  [None] when it throws a
    TypeError: for an object with an own property [toString], whose
    value is never a function, alone or as an item of an array.  An
    array is joined with commas, its [null] and [undefined] items
    left empty. *)
Fixpoint to_string (v : jsval) : option jsstring :=
  match v with
  | JUndefined => Some (lit "undefined")
  | JNull => Some (lit "null")
  | JBool true => Some (lit "true")
  | JBool false => Some (lit "false")
  | JNum n => Some (Number_toString n)
  | JStr s => Some s
  | JArr items =>
      (fix join (l : list jsval) : option jsstring :=
         match l with
         | [] => Some []
         | x :: l' =>
             match match x with
                   | JUndefined | JNull => Some []
                   | _ => to_string x
                   end with
             | None => None
             | Some item =>
                 match l' with
                 | [] => Some item
                 | _ :: _ =>
                     match join l' with
                     | None => None
                     | Some items' => Some (item ++ lit "," ++ items')
                     end
                 end
             end
         end) items
  | JObj props =>
      match own_property props (lit "toString") with
      | Some _ => None
      | None => Some (lit "[object Object]")
      end
  end.

Definition text_to_string (t : option text_value) : jsstring :=
  match t with
  | None => lit "undefined"
  | Some (TString s) => s
  | Some TNaN => lit "NaN"
  end.

(** [t + v], the value [text += chunk] stores: a concatenation when
    either side is a string after ToPrimitive, NaN otherwise; [None]
    when ToPrimitive of [v] throws. *)
Definition plus (t : option text_value) (v : jsval) : option text_value :=
  match to_string v with
  | None => None
  | Some added =>
      Some match t, v with
           | Some (TString s), _ => TString (s ++ added)
           | _, (JStr _ | JArr _ | JObj _) => TString (text_to_string t ++ added)
           | _, _ => TNaN
           end
  end.

(** The text after the fragments [frags] were added one by one; a
    fragment whose addition throws leaves the text as it is. *)
Definition plus_all (t : option text_value) (frags : list jsval)
  : option text_value :=
  foldl (fun t v => match plus t v with Some t' => Some t' | None => t end)
    t frags.

(** The warning sign, its variation selector and a space. *)
Definition warning_prefix : jsstring := [9888; 65039; 32]%N.

(** The [next] handler: [this.messages[botIndex].text += chunk].
    With no message at [botIndex], or with a chunk that has no
    string form, the handler throws and the log stays as it is; the
    subscriber reports what a handler throws later, on a timer of
    its own, and goes on. *)
Definition on_next (botIndex : nat) (chunk : jsval) (c : ChatComponent)
  : ChatComponent :=
  match messages c !! botIndex with
  | None => c
  | Some m =>
      match plus (text m) chunk with
      | None => c
      | Some t =>
          {| messages := <[botIndex := with_text m (Some t)]> (messages c);
             isLoading := isLoading c |}
      end
  end.

(** The [error] handler:
    [this.messages[botIndex].text = warning + err.message]. *)
Definition on_error (botIndex : nat) (err : js_error) (c : ChatComponent)
  : ChatComponent :=
  match messages c !! botIndex with
  | None => c
  | Some m =>
      {| messages :=
           <[botIndex := with_text m (Some (TString (warning_prefix ++ message err)))]>
             (messages c);
         isLoading := isLoading c |}
  end.

(** The subscriber RxJS builds for [subscribe({ next, error })]. *)
Record subscription := {
  botIndex : nat;
  isStopped : bool
}.

(** The component, its subscriptions in the order they were made,
    and everything the decoders did so far, each action with the
    number of its subscription. *)
Record world := {
  chat : ChatComponent;
  subscriptions : list subscription;
  performed : list (nat * action)
}.

Definition initial : world :=
  {| chat := {| messages := []; isLoading := false |};
     subscriptions := [];
     performed := [] |}.

(** [sendMessage(prompt)] up to the return of [subscribe]: both
    bubbles are pushed and the request is sent.  Nothing looks at
    the subscriptions that are open. *)
Definition sendMessage (prompt : jsstring) (w : world) : world :=
  let text := trim prompt in
  if negb (truthy_string text) then w
  else
    let messages1 :=
      messages (chat w)
      ++ [{| from := user; text := Some (TString text); loading := None |}] in
    let messages2 :=
      messages1
      ++ [{| from := bot; text := Some (TString []); loading := None |}] in
    let botIndex := (length messages2 - 1)%nat in
    {| chat := {| messages := messages2; isLoading := isLoading (chat w) |};
       subscriptions :=
         subscriptions w ++ [{| botIndex := botIndex; isStopped := false |}];
       performed :=
         performed w
         ++ [(length (subscriptions w), Fetch (generate_request text None))] |}.

Definition stop (k : nat) (w : world) : world :=
  match subscriptions w !! k with
  | None => w
  | Some s =>
      {| chat := chat w;
         subscriptions :=
           <[k := {| botIndex := botIndex s; isStopped := true |}]>
             (subscriptions w);
         performed := performed w |}
  end.

Definition with_chat (c : ChatComponent) (w : world) : world :=
  {| chat := c; subscriptions := subscriptions w; performed := performed w |}.

(** A call on the subscriber of subscription [k].  A stopped
    subscriber ignores it; [error] and [complete] stop it; there is
    no [complete] handler. *)
Definition notify (k : nat) (ev : event) (w : world) : world :=
  match subscriptions w !! k with
  | None => w
  | Some s =>
      if isStopped s then w
      else match ev with
           | Next v => with_chat (on_next (botIndex s) v (chat w)) w
           | Error e => stop k (with_chat (on_error (botIndex s) e (chat w)) w)
           | Complete => stop k w
           end
  end.

(** [subscription.unsubscribe()]: the subscriber is stopped.  The
    function given to [new Observable] returns no teardown, so
    nothing else happens. *)
Definition unsubscribe (k : nat) (w : world) : world := stop k w.

(** One action of the decoder of subscription [k]. *)
Definition perform (k : nat) (a : action) (w : world) : world :=
  let w' := match a with
            | Call ev => notify k ev w
            | _ => w
            end in
  {| chat := chat w'; subscriptions := subscriptions w';
     performed := performed w' ++ [(k, a)] |}.

Definition perform_all (k : nat) (acts : list action) (w : world) : world :=
  foldl (fun w a => perform k a w) w acts.

(** The calls [evs] on the subscriber of subscription [k]. *)
Definition deliver (k : nat) (evs : list event) (w : world) : world :=
  foldl (fun w ev => notify k ev w) w evs.

(** A whole exchange: the prompt is sent and the network answers
    with [net]. *)
Definition converse (prompt : jsstring) (net : fetch_result) (w : world)
  : world :=
  let w' := sendMessage prompt w in
  if negb (truthy_string (trim prompt)) then w'
  else perform_all (length (subscriptions w)) (respond net) w'.

(** The subscriber of subscription [k] takes no more calls. *)
Definition closed (k : nat) (w : world) : Prop :=
  forall s, subscriptions w !! k = Some s -> isStopped s = true.

(** A turn is streaming while a subscription that fills it is open. *)
Definition streaming (w : world) (i : nat) : Prop :=
  exists k s, subscriptions w !! k = Some s
              /\ botIndex s = i /\ isStopped s = false.

End WithEngine.
End Chat.

(** ** A reference engine

    [JSON.parse] after ECMA-404, for running the decoder on concrete
    streams.  The theorems below hold for every engine. *)

Module ReferenceEngine.

Definition is_json_space (c : code_unit) : bool :=
  ((c =? 32) || (c =? 9) || (c =? 10) || (c =? 13))%N.

Fixpoint skip_space (s : jsstring) : jsstring :=
  match s with
  | c :: s' => if is_json_space c then skip_space s' else s
  | [] => []
  end.

Definition is_digit (c : code_unit) : bool := ((48 <=? c) && (c <=? 57))%N.

Definition hex_value (c : code_unit) : option N :=
  (if (48 <=? c) && (c <=? 57) then Some (c - 48)
   else if (65 <=? c) && (c <=? 70) then Some (c - 55)
   else if (97 <=? c) && (c <=? 102) then Some (c - 87)
   else None)%N.

(** The character a backslash and [c] stand for, [u] apart. *)
Definition escaped (c : code_unit) : option code_unit :=
  (if c =? 34 then Some 34
   else if c =? 92 then Some 92
   else if c =? 47 then Some 47
   else if c =? 98 then Some 8
   else if c =? 102 then Some 12
   else if c =? 110 then Some 10
   else if c =? 114 then Some 13
   else if c =? 116 then Some 9
   else None)%N.

(** The characters of a string after its opening quote, up to the
    closing one. *)
Fixpoint parse_chars (s : jsstring) (acc : jsstring)
  : option (jsstring * jsstring) :=
  match s with
  | [] => None
  | c :: s' =>
      if (c =? 34)%N then Some (reverse acc, s')
      else if (c =? 92)%N then
        match s' with
        | [] => None
        | e :: s'' =>
            if (e =? 117)%N then
              match s'' with
              | a :: b :: c :: d :: s3 =>
                  match hex_value a, hex_value b, hex_value c, hex_value d with
                  | Some a, Some b, Some c, Some d =>
                      parse_chars s3 ((a * 4096 + b * 256 + c * 16 + d)%N :: acc)
                  | _, _, _, _ => None
                  end
              | _ => None
              end
            else match escaped e with
                 | Some x => parse_chars s'' (x :: acc)
                 | None => None
                 end
        end
      else if (c <? 32)%N then None
      else parse_chars s' (c :: acc)
  end.

(** A run of digits: its value on top of [acc], how many there were,
    and the rest. *)
Fixpoint parse_digits (s : jsstring) (acc : N) (count : nat)
  : N * nat * jsstring :=
  match s with
  | c :: s' =>
      if is_digit c then parse_digits s' (acc * 10 + (c - 48))%N (S count)
      else (acc, count, s)
  | [] => (acc, count, [])
  end.

Definition head_is (c : code_unit) (s : jsstring) : bool :=
  match s with
  | x :: _ => (x =? c)%N
  | [] => false
  end.

Arguments head_is c%_N s.

Definition parse_exponent (s : jsstring) : option (Z * jsstring) :=
  if head_is 101 s || head_is 69 s then
    let s1 := drop 1 s in
    let '(sign, s2) :=
      if head_is 43 s1 then (1, drop 1 s1)
      else if head_is 45 s1 then (-1, drop 1 s1)
      else (1, s1) in
    match parse_digits s2 0 0 with
    | (_, O, _) => None
    | (e, _, s3) => Some (sign * Z.of_N e, s3)
    end
  else Some (0, s).

Definition parse_number (s : jsstring) : option (number * jsstring) :=
  let neg := head_is 45 s in
  let s1 := if neg then drop 1 s else s in
  match s1 with
  | c :: s2 =>
      if is_digit c then
        let '(int, s3) :=
          if (c =? 48)%N then (0%N, s2)
          else let '(n, _, s3) := parse_digits s1 0 0 in (n, s3) in
        let frac :=
          if head_is 46 s3 then
            match parse_digits (drop 1 s3) int 0 with
            | (_, O, _) => None
            | (n, k, s5) => Some (n, k, s5)
            end
          else Some (int, O, s3) in
        match frac with
        | None => None
        | Some (n, k, s5) =>
            match parse_exponent s5 with
            | None => None
            | Some (e, s6) =>
                Some ({| negative := neg; digits := n;
                         exponent := e - Z.of_nat k |}, s6)
            end
        end
      else None
  | [] => None
  end.

(** A value, and the members of an object or the items of an array
    after the first.  Of two calls in a row at least one follows a
    consumed code unit, so a supply of calls beyond twice the length
    of the text never runs out ([parse_value_supply] below). *)
Fixpoint parse_value (calls : nat) (s : jsstring) : option (jsval * jsstring) :=
  match calls with
  | O => None
  | S calls' =>
      let s0 := skip_space s in
      if head_is 123 s0 then
        if head_is 125 (skip_space (drop 1 s0))
        then Some (JObj [], drop 1 (skip_space (drop 1 s0)))
        else parse_members calls' (drop 1 s0) []
      else if head_is 91 s0 then
        if head_is 93 (skip_space (drop 1 s0))
        then Some (JArr [], drop 1 (skip_space (drop 1 s0)))
        else parse_items calls' (drop 1 s0) []
      else if head_is 34 s0 then
        match parse_chars (drop 1 s0) [] with
        | Some (str, s2) => Some (JStr str, s2)
        | None => None
        end
      else if starts_with (lit "true") s0 then Some (JBool true, drop 4 s0)
      else if starts_with (lit "false") s0 then Some (JBool false, drop 5 s0)
      else if starts_with (lit "null") s0 then Some (JNull, drop 4 s0)
      else
        match parse_number s0 with
        | Some (n, s1) => Some (JNum n, s1)
        | None => None
        end
  end
with parse_members (calls : nat) (s : jsstring) (acc : list (jsstring * jsval))
  : option (jsval * jsstring) :=
  match calls with
  | O => None
  | S calls' =>
      let s0 := skip_space s in
      if head_is 34 s0 then
        match parse_chars (drop 1 s0) [] with
        | Some (key, s2) =>
            if head_is 58 (skip_space s2) then
              match parse_value calls' (drop 1 (skip_space s2)) with
              | Some (v, s4) =>
                  if head_is 44 (skip_space s4)
                  then parse_members calls' (drop 1 (skip_space s4))
                         ((key, v) :: acc)
                  else if head_is 125 (skip_space s4)
                  then Some (JObj (reverse ((key, v) :: acc)),
                             drop 1 (skip_space s4))
                  else None
              | None => None
              end
            else None
        | None => None
        end
      else None
  end
with parse_items (calls : nat) (s : jsstring) (acc : list jsval)
  : option (jsval * jsstring) :=
  match calls with
  | O => None
  | S calls' =>
      match parse_value calls' s with
      | Some (v, s1) =>
          if head_is 44 (skip_space s1)
          then parse_items calls' (drop 1 (skip_space s1)) (v :: acc)
          else if head_is 93 (skip_space s1)
          then Some (JArr (reverse (v :: acc)), drop 1 (skip_space s1))
          else None
      | None => None
      end
  end.

Definition syntax_error : js_error :=
  {| name := SyntaxError; message := lit "Unexpected token in JSON" |}.

(** [JSON.parse]: one value, with nothing but space after it. *)
Definition parse (s : jsstring) : js_error + jsval :=
  match parse_value (2 * length s + 3) s with
  | Some (v, rest) =>
      match skip_space rest with
      | [] => inr v
      | _ :: _ => inl syntax_error
      end
  | None => inl syntax_error
  end.

Fixpoint uint_units (d : Decimal.uint) : jsstring :=
  match d with
  | Decimal.Nil => []
  | Decimal.D0 d => 48%N :: uint_units d
  | Decimal.D1 d => 49%N :: uint_units d
  | Decimal.D2 d => 50%N :: uint_units d
  | Decimal.D3 d => 51%N :: uint_units d
  | Decimal.D4 d => 52%N :: uint_units d
  | Decimal.D5 d => 53%N :: uint_units d
  | Decimal.D6 d => 54%N :: uint_units d
  | Decimal.D7 d => 55%N :: uint_units d
  | Decimal.D8 d => 56%N :: uint_units d
  | Decimal.D9 d => 57%N :: uint_units d
  end.

Definition decimal (n : N) : jsstring := uint_units (N.to_uint n).

Fixpoint strip_zeros (rev_digits : jsstring) (e : Z) : jsstring * Z :=
  match rev_digits with
  | 48%N :: rest => strip_zeros rest (e + 1)
  | _ => (reverse rev_digits, e)
  end.

(** [Number::toString] from the digits of the numeral; these are the
    digits the engine prints when the numeral has at most 15
    significant digits and its value is a normal double. *)
Definition number_to_string (x : number) : jsstring :=
  if negb (JsValue.truthy_number x) then lit "0"
  else
    let sign := if negative x then lit "-" else [] in
    let '(ds, e) := strip_zeros (reverse (decimal (digits x))) (exponent x) in
    let k := Z.of_nat (length ds) in
    let n := k + e in
    if 2 ^ 1024 - 2 ^ 970 <=? Z.of_N (digits x) * 10 ^ exponent x
    then sign ++ lit "Infinity"
    else if (k <=? n) && (n <=? 21)
    then sign ++ ds ++ replicate (Z.to_nat (n - k)) 48%N
    else if (0 <? n) && (n <=? 21)
    then sign ++ take (Z.to_nat n) ds ++ lit "." ++ drop (Z.to_nat n) ds
    else if (-6 <? n) && (n <=? 0)
    then sign ++ lit "0." ++ replicate (Z.to_nat (- n)) 48%N ++ ds
    else
      sign ++ take 1 ds
      ++ (if 1 <? k then lit "." ++ drop 1 ds else [])
      ++ lit "e" ++ (if 0 <=? n - 1 then lit "+" else lit "-")
      ++ decimal (Z.to_N (Z.abs (n - 1))).

Definition null_error (key : jsstring) : js_error :=
  {| name := TypeError;
     message := lit "Cannot read properties of null (reading '"
                ++ key ++ lit "')" |}.

Definition engine : Engine := {|
  JSON_parse := parse;
  Number_toString := number_to_string;
  null_property_error := null_error
|}.

End ReferenceEngine.

(** ** Sample streams *)

Module Sample.
Import StreamDecoder.

(** The text of a sample, written with an apostrophe for each
    quotation mark. *)
Definition quoted (s : string) : jsstring :=
  (fun c => if (c =? 39)%N then 34%N else c) <$> lit s.

(** The bytes of an ASCII text, as the server sends them. *)
Definition wire (s : jsstring) : list Byte.byte :=
  (fun c => default Byte.x00 (Byte.of_N c)) <$> s.

Definition why : jsstring := quoted "{'response':'Why','done':false}".
Definition did : jsstring := quoted "{'response':' did...','done':false}".
Definition yet : jsstring := quoted "{'response':' yet.','done':true}".
Definition hel : jsstring := quoted "{'response':'Hel','done':false}".
Definition late : jsstring := quoted "{'response':'late','done':false}".

Definition joke_prompt : jsstring := lit "Tell me a joke.".

(** Three records, one chunk each. *)
Definition joke : body :=
  {| chunks := [wire (why ++ [LF]); wire (did ++ [LF]); wire (yet ++ [LF])];
     ending := EndOfStream |}.

(** The same bytes with a record after the last one, cut inside the
    records, on a connection that drops in the end. *)
Definition joke_recut : body :=
  {| chunks := [wire (why ++ [LF] ++ take 9 did);
                wire (drop 9 did ++ [LF] ++ take 20 yet);
                wire (drop 20 yet ++ [LF] ++ late ++ [LF]);
                wire (late ++ [LF])];
     ending := ReadFailure {| name := TypeError; message := lit "network error" |} |}.

(** One record, then the connection drops. *)
Definition dropped : body :=
  {| chunks := [wire (hel ++ [LF])];
     ending := ReadFailure {| name := TypeError; message := lit "network error" |} |}.

(** One record, then a line that is no JSON text, then a record. *)
Definition malformed : body :=
  {| chunks := [wire (hel ++ [LF]); wire (lit "not json" ++ [LF]);
                wire (yet ++ [LF])];
     ending := EndOfStream |}.

(** The world after the joke was asked for, and the subscription and
    the turn of the answer. *)
Definition asked : Chat.world := Chat.sendMessage joke_prompt Chat.initial.
Definition answer : Chat.subscription :=
  {| Chat.botIndex := 1; Chat.isStopped := false |}.
Definition bubble : Chat.Message :=
  {| Chat.from := Chat.bot; Chat.text := Some (Chat.TString []);
     Chat.loading := None |}.

End Sample.

(** ** Runs of the component *)

Module Runs.
Import JsValue StreamDecoder Chat.

(** A call that ends a stream. *)
Definition terminal (ev : event) : Prop :=
  match ev with
  | Next _ => False
  | Complete | Error _ => True
  end.

(** The requests of a trace. *)
Definition fetches (acts : list action) : list request :=
  omap (fun a => match a with Fetch r => Some r | _ => None end) acts.

Section WithEngine.
Context `{Engine}.

(** One thing that happens to the component: a prompt is sent, the
    decoder of a subscription reads or calls its observer, or a
    subscription is cancelled.  Any order is allowed, so what holds
    for all runs holds for the runs the network allows. *)
Inductive step : world -> world -> Prop :=
| step_send (p : jsstring) (w : world) : step w (sendMessage p w)
| step_read (k : nat) (w : world) : step w (perform k Read w)
| step_call (k : nat) (ev : event) (w : world) : step w (perform k (Call ev) w)
| step_unsubscribe (k : nat) (w : world) : step w (unsubscribe k w).

(** The worlds a run can be in, from a component just created. *)
Inductive reachable : world -> Prop :=
| reachable_initial : reachable initial
| reachable_step (w w' : world) : reachable w -> step w w' -> reachable w'.

(** The requests sent so far, each with its subscription. *)
Definition sent (w : world) : list (nat * request) :=
  omap (fun ka => match ka.2 with Fetch r => Some (ka.1, r) | _ => None end)
    (performed w).

(** What the runs keep. *)
Record kept (w : world) : Prop := {
  kept_length : length (messages (chat w)) = (2 * length (subscriptions w))%nat;
  kept_botIndex : forall k s,
    subscriptions w !! k = Some s -> botIndex s = (2 * k + 1)%nat;
  kept_turns : forall i m,
    messages (chat w) !! i = Some m ->
    from m = (if Nat.even i then user else bot)
    /\ (exists t, text m = Some (TString t)) /\ loading m = None;
  kept_isLoading : isLoading (chat w) = false;
  kept_sent_length : length (sent w) = length (subscriptions w);
  kept_sent : forall k kr,
    sent w !! k = Some kr ->
    kr.1 = k /\ kr.2 = generate_request (prompt kr.2) None
    /\ prompt kr.2 <> []
    /\ exists m, messages (chat w) !! (2 * k)%nat = Some m
                 /\ from m = user /\ text m = Some (TString (prompt kr.2))
}.

(** The text of the answer when the stream has ended with [t]. *)
Definition answer_text (frags : list jsval) (t : event) : jsstring :=
  match t with
  | Error e => warning_prefix ++ message e
  | _ => mjoin (omap to_string frags)
  end.

End WithEngine.
End Runs.

(** ** The first version of the chat component

    [sendMessage] of the component before streaming: one
    [http.post] per prompt, a placeholder bubble while it is under
    way. *)

Module Legacy.
Import JsValue.

(** [interface Message] as this version fills it: [text] is what
    [res.response] was, a string or not. *)
Record Message := {
  from : Chat.origin;
  text : option jsval;
  loading : option bool
}.

Record ChatComponent := {
  messages : list Message;
  isLoading : bool
}.

(** What the observable of [http.post] tells its subscriber: the
    parsed body and then [complete], or an error. *)
Inductive http_result :=
| Responded (res : jsval)
| Failed (err : js_error).

(** The request: the same endpoint, the model [llama3], no stream. *)
Definition post_request (text : jsstring) : request :=
  {| url := StreamDecoder.endpoint;
     content_type := lit "application/json";
     model := lit "llama3";
     prompt := text;
     stream := false |}.

(** The placeholder bubble. *)
Definition placeholder : Message :=
  {| from := Chat.bot; text := None; loading := Some true |}.

Definition is_placeholder (m : Message) : bool :=
  match loading m with
  | Some true => true
  | _ => false
  end.

Definition placeholders (c : ChatComponent) : nat :=
  length (List.filter is_placeholder (messages c)).

(** [res.response]: reading from [null] or [undefined] throws;
    every other value has the property or gives [undefined]. *)
Definition response_of (res : jsval) : option jsval :=
  match res with
  | JNull | JUndefined => None
  | _ => Some (property res (lit "response"))
  end.

(** The [next] handler:
    [this.messages[loaderIndex] = { from: 'bot', text: res.response }].
    Reading [response] from a [null] body throws: [None], and the
    log stays as it is.  An index past the end would extend the
    array; [loaderIndex] never is. *)
Definition on_response (loaderIndex : nat) (res : jsval) (c : ChatComponent)
  : option ChatComponent :=
  match response_of res with
  | None => None
  | Some r =>
      Some {| messages :=
                <[loaderIndex := {| from := Chat.bot; text := Some r; loading := None |}]>
                  (messages c);
              isLoading := isLoading c |}
  end.

(** The [error] handler: one more bubble, with the warning sign and
    the message. *)
Definition on_failure (err : js_error) (c : ChatComponent) : ChatComponent :=
  {| messages :=
       messages c
       ++ [{| from := Chat.bot;
              text := Some (JStr (Chat.warning_prefix ++ message err));
              loading := None |}];
     isLoading := isLoading c |}.

(** The [complete] handler. *)
Definition on_complete (c : ChatComponent) : ChatComponent :=
  {| messages := messages c; isLoading := false |}.

(** [sendMessage(prompt)] up to the return of [subscribe]: the user
    bubble, the spinner flag, the placeholder; with them the index of
    the placeholder and the request, or nothing for a blank prompt. *)
Definition sendMessage (prompt : jsstring) (c : ChatComponent)
  : ChatComponent * option (nat * request) :=
  let text := trim prompt in
  if negb (truthy_string text) then (c, None)
  else
    let messages1 :=
      messages c
      ++ [{| from := Chat.user; text := Some (JStr text); loading := None |}] in
    let messages2 := messages1 ++ [placeholder] in
    ({| messages := messages2; isLoading := true |},
     Some ((length messages2 - 1)%nat, post_request text)).

(** The subscriber of one request: the index its handlers hold, and
    whether the observable has ended. *)
Record subscription := {
  loaderIndex : nat;
  isStopped : bool
}.

(** The component with its requests, and the answers that reached a
    handler so far, each with its subscription. *)
Record world := {
  chat : ChatComponent;
  subscriptions : list subscription;
  answered : list (nat * http_result)
}.

Definition initial : world :=
  {| chat := {| messages := []; isLoading := false |};
     subscriptions := [];
     answered := [] |}.

(** A prompt is sent. *)
Definition send (prompt : jsstring) (w : world) : world :=
  match sendMessage prompt (chat w) with
  | (c, None) =>
      {| chat := c; subscriptions := subscriptions w; answered := answered w |}
  | (c, Some (i, _)) =>
      {| chat := c;
         subscriptions := subscriptions w ++ [{| loaderIndex := i; isStopped := false |}];
         answered := answered w |}
  end.

(** The observable of request [k] answers: the body and then
    [complete], or an error.  A subscriber that has stopped hears
    nothing.  When the [next] handler throws, on a [null] body, the
    log is as it was; the subscriber reports what a handler throws
    later, on a timer of its own, and [complete] follows as ever. *)
Definition answer (k : nat) (result : http_result) (w : world) : world :=
  match subscriptions w !! k with
  | None => w
  | Some s =>
      if isStopped s then w
      else
        {| chat :=
             match result with
             | Responded res =>
                 on_complete
                   match on_response (loaderIndex s) res (chat w) with
                   | Some c => c
                   | None => chat w
                   end
             | Failed err => on_failure err (chat w)
             end;
           subscriptions :=
             <[k := {| loaderIndex := loaderIndex s; isStopped := true |}]>
               (subscriptions w);
           answered := answered w ++ [(k, result)] |}
  end.

(** One thing that happens to the component; the answers may come in
    any order. *)
Inductive step : world -> world -> Prop :=
| step_send (p : jsstring) (w : world) : step w (send p w)
| step_answer (k : nat) (result : http_result) (w : world) :
    step w (answer k result w).

Inductive reachable : world -> Prop :=
| reachable_initial : reachable initial
| reachable_step (w w' : world) : reachable w -> step w w' -> reachable w'.

(** The requests that have not ended, and the answers that left the
    placeholder where it was: an error, and a body the [next] handler
    threw on. *)
Definition waiting (w : world) : nat :=
  length (List.filter (fun s => negb (isStopped s)) (subscriptions w)).

Definition keeps_placeholder (a : nat * http_result) : bool :=
  match a.2 with
  | Failed _ => true
  | Responded res =>
      match response_of res with
      | None => true
      | Some _ => false
      end
  end.

Definition unanswered (w : world) : nat :=
  length (List.filter keeps_placeholder (answered w)).

Definition user_turn (t : jsstring) : Message :=
  {| from := Chat.user; text := Some (JStr t); loading := None |}.

Definition bot_turn (r : jsval) : Message :=
  {| from := Chat.bot; text := Some r; loading := None |}.

(** What the runs keep. *)
Record kept (w : world) : Prop := {
  kept_index : forall k s,
    subscriptions w !! k = Some s ->
    (exists t, t <> []
       /\ messages (chat w) !! (loaderIndex s - 1)%nat = Some (user_turn t))
    /\ (1 <= loaderIndex s < length (messages (chat w)))%nat
    /\ (isStopped s = false ->
        messages (chat w) !! loaderIndex s = Some placeholder);
  kept_distinct : forall j k s s',
    subscriptions w !! j = Some s -> subscriptions w !! k = Some s' ->
    loaderIndex s = loaderIndex s' -> j = k;
  kept_answered : forall k result,
    (k, result) ∈ answered w ->
    exists s, subscriptions w !! k = Some s /\ isStopped s = true
      /\ messages (chat w) !! loaderIndex s
         = Some match result with
                | Responded res =>
                    match response_of res with
                    | Some r => bot_turn r
                    | None => placeholder
                    end
                | Failed _ => placeholder
                end;
  kept_count : placeholders (chat w) = (waiting w + unanswered w)%nat
}.

End Legacy.

(** ** The utilities *)

Module Utils.
Import JsValue.

(** A value that may be [null] or [undefined]. *)
Inductive nullable (A : Type) : Type :=
| Null
| Undefined
| Value (a : A).

Arguments Null {A}.
Arguments Undefined {A}.
Arguments Value {A} a.

Definition isNil {A : Type} (value : nullable A) : bool :=
  match value with
  | Null | Undefined => true
  | Value _ => false
  end.

(** [isNil(str) || str.trim().length === 0]. *)
Definition isEmptyString (str : nullable jsstring) : bool :=
  isNil str
  || match str with
     | Value s => (length (trim s) =? 0)%nat
     | _ => true
     end.

(** [s.split(sep)] for a separator of one code unit. *)
Fixpoint split_on (sep : code_unit) (s : jsstring) : list jsstring :=
  match s with
  | [] => [[]]
  | c :: s' =>
      if (c =? sep)%N then [] :: split_on sep s'
      else match split_on sep s' with
           | seg :: segs => (c :: seg) :: segs
           | [] => [[c]]
           end
  end.

(** A parsed value as [isNil] sees it. *)
Definition as_nullable (v : jsval) : nullable jsval :=
  match v with
  | JNull => Null
  | JUndefined => Undefined
  | _ => Value v
  end.

(** The index a property key stands for: decimal digits with no
    leading zero. *)
Definition array_index (key : jsstring) : option nat :=
  match key with
  | [] => None
  | c :: rest =>
      if forallb ReferenceEngine.is_digit key
         && (negb (c =? 48)%N || (length rest =? 0)%nat)
      then Some (N.to_nat (foldl (fun acc d => acc * 10 + (d - 48))%N 0%N key))
      else None
  end.

Definition length_value (n : nat) : jsval :=
  JNum {| negative := false; digits := N.of_nat n; exponent := 0 |}.

(** [Object.prototype.hasOwnProperty.call(v, key)] for a value that is
    not nil: the keys of an object; the indices and [length] of an
    array and of a string; nothing for a boolean or a number. *)
Definition has_own (v : jsval) (key : jsstring) : bool :=
  match v with
  | JObj props =>
      match own_property props key with Some _ => true | None => false end
  | JArr items =>
      JsString.eqb key (lit "length")
      || match array_index key with
         | Some n => (n <? length items)%nat
         | None => false
         end
  | JStr s =>
      JsString.eqb key (lit "length")
      || match array_index key with
         | Some n => (n <? length s)%nat
         | None => false
         end
  | _ => false
  end.

(** [v[key]] for an own property. *)
Definition get_own (v : jsval) (key : jsstring) : jsval :=
  match v with
  | JObj props => default JUndefined (own_property props key)
  | JArr items =>
      if JsString.eqb key (lit "length") then length_value (length items)
      else match array_index key with
           | Some n => default JUndefined (items !! n)
           | None => JUndefined
           end
  | JStr s =>
      if JsString.eqb key (lit "length") then length_value (length s)
      else match array_index key with
           | Some n =>
               match s !! n with Some c => JStr [c] | None => JUndefined end
           | None => JUndefined
           end
  | _ => JUndefined
  end.

(** The loop of [getNestedProperty] over the parts of the path. *)
Fixpoint walk (current : jsval) (parts : list jsstring) (defaultValue : jsval)
  : jsval :=
  match parts with
  | [] => current
  | part :: parts' =>
      if isNil (as_nullable current) || negb (has_own current part)
      then defaultValue
      else walk (get_own current part) parts' defaultValue
  end.

(** [getNestedProperty(obj, path, defaultValue)] on parsed values; an
    omitted [defaultValue] is [undefined]. *)
Definition getNestedProperty (obj : jsval) (path : jsstring)
    (defaultValue : jsval) : jsval :=
  if isNil (as_nullable obj) || isEmptyString (Value path) then defaultValue
  else walk obj (split_on 46%N path) defaultValue.

Section UniqueArray.
Context {T : Type} `{EqDecision T}.

(** [set.add(x)] on a set kept in the order of insertion.  The
    elements are primitive values, for which the equality of [Set] is
    equality. *)
Definition set_add (x : T) (s : list T) : list T :=
  if decide (x ∈ s) then s else s ++ [x].

(** [new Set(arr)], spread into an array. *)
Definition new_Set (arr : list T) : list T :=
  foldl (fun s x => set_add x s) [] arr.

(** [uniqueArray(arr)]; [None] is an argument that is no array. *)
Definition uniqueArray (arr : option (list T)) : list T :=
  match arr with
  | None => []
  | Some l => new_Set l
  end.

End UniqueArray.

(** [generateUUID]. *)

Definition uuid_template : jsstring := lit "xxxxxxxx-xxxx-4xxx-yxxx-xxxxxxxxxxxx".

Fixpoint hex_units (d : Hexadecimal.uint) : jsstring :=
  match d with
  | Hexadecimal.Nil => []
  | Hexadecimal.D0 d => 48%N :: hex_units d
  | Hexadecimal.D1 d => 49%N :: hex_units d
  | Hexadecimal.D2 d => 50%N :: hex_units d
  | Hexadecimal.D3 d => 51%N :: hex_units d
  | Hexadecimal.D4 d => 52%N :: hex_units d
  | Hexadecimal.D5 d => 53%N :: hex_units d
  | Hexadecimal.D6 d => 54%N :: hex_units d
  | Hexadecimal.D7 d => 55%N :: hex_units d
  | Hexadecimal.D8 d => 56%N :: hex_units d
  | Hexadecimal.D9 d => 57%N :: hex_units d
  | Hexadecimal.Da d => 97%N :: hex_units d
  | Hexadecimal.Db d => 98%N :: hex_units d
  | Hexadecimal.Dc d => 99%N :: hex_units d
  | Hexadecimal.Dd d => 100%N :: hex_units d
  | Hexadecimal.De d => 101%N :: hex_units d
  | Hexadecimal.Df d => 102%N :: hex_units d
  end.

(** [v.toString(16)] for an integer that is not negative. *)
Definition to_hex (v : N) : jsstring := hex_units (N.to_hex_uint v).

(** The function given to [replace]: [r] is [(Math.random() * 16) | 0]. *)
Definition uuid_digit (c : code_unit) (r : N) : jsstring :=
  to_hex (if (c =? 120)%N then r else N.lor (N.land r 3) 8).

(** [template.replace(/[xy]/g, ...)]: every [x] and [y], from left to
    right, is replaced with the next draw; [random i] is the draw of
    the [i]-th call. *)
Fixpoint uuid_fill (template : jsstring) (random : nat -> N) (i : nat) : jsstring :=
  match template with
  | [] => []
  | c :: template' =>
      if (c =? 120)%N || (c =? 121)%N
      then uuid_digit c (random i) ++ uuid_fill template' random (S i)
      else c :: uuid_fill template' random i
  end.

Definition generateUUID (random : nat -> N) : jsstring :=
  uuid_fill uuid_template random 0.

(** A digit of a hexadecimal numeral, in lower case. *)
Definition lower_hex (c : code_unit) : bool :=
  ((48 <=? c) && (c <=? 57) || (97 <=? c) && (c <=? 102))%N.

(** The digits [8], [9], [a] and [b]. *)
Definition variant_digits : list code_unit := [56; 57; 97; 98]%N.

(** [debounce] and [throttle]: what is called on the function they
    return, and a timer that fires.  [func] does not call the function
    itself; it may throw. *)
Inductive timer_event (A : Type) : Type :=
| Invoke (args : A)
| Fire.

Arguments Invoke {A} args.
Arguments Fire {A}.

Section Timers.
Context {A : Type}.

(** The closure of [debounce]: the timer that is set, with the
    arguments its callback holds, and the calls of [func] so far. *)
Record debounced := {
  timeout : option A;
  debounce_applied : list A
}.

(** A call: the timer that is set is cleared, a new one is set. *)
Definition debounce_invoke (args : A) (d : debounced) : debounced :=
  {| timeout := Some args; debounce_applied := debounce_applied d |}.

(** The timer fires: [func.apply(context, args); timeout = null]. *)
Definition debounce_fire (d : debounced) : debounced :=
  match timeout d with
  | Some args =>
      {| timeout := None; debounce_applied := debounce_applied d ++ [args] |}
  | None => d
  end.

Definition debounce_step (d : debounced) (ev : timer_event A) : debounced :=
  match ev with
  | Invoke args => debounce_invoke args d
  | Fire => debounce_fire d
  end.

Definition debounce_run (evs : list (timer_event A)) (d : debounced) : debounced :=
  foldl debounce_step d evs.

(** The closure of [throttle]: the flag, which is set as long as the
    timer is, and the calls of [func] so far. *)
Record throttled := {
  inThrottle : bool;
  throttle_applied : list A
}.

(** A call with [args], on which [func] throws or not:
    [func.apply(context, args)] comes first, so when it throws the
    flag is not set and no timer is started. *)
Definition throttle_invoke (args : A) (throws : bool) (t : throttled)
  : throttled :=
  if inThrottle t then t
  else {| inThrottle := negb throws;
          throttle_applied := throttle_applied t ++ [args] |}.

Definition throttle_fire (t : throttled) : throttled :=
  {| inThrottle := false; throttle_applied := throttle_applied t |}.

(** The events of a throttled function: each call comes with whether
    [func] would throw on it. *)
Definition throttle_step (t : throttled) (ev : timer_event (A * bool))
  : throttled :=
  match ev with
  | Invoke (args, throws) => throttle_invoke args throws t
  | Fire => throttle_fire t
  end.

Definition throttle_run (evs : list (timer_event (A * bool))) (t : throttled)
  : throttled :=
  foldl throttle_step t evs.

Definition invoked (evs : list (timer_event A)) : list A :=
  omap (fun ev => match ev with Invoke a => Some a | Fire => None end) evs.

Definition fired (evs : list (timer_event A)) : nat :=
  length (omap (fun ev => match ev with Fire => Some () | Invoke _ => None end) evs).

End Timers.


End Utils.

(** ** More sample streams and runs *)

Module Cases.
Import StreamDecoder.

(** Two records with an empty line and a line of spaces in between,
    and the same stream without them. *)
Definition spaced_lines : list jsstring :=
  [Sample.hel; []; lit "  "; Sample.yet].

Definition spaced : body :=
  {| chunks := [Sample.wire (join_lines spaced_lines)];
     ending := EndOfStream |}.

Definition unspaced : body :=
  {| chunks := [Sample.wire (join_lines [Sample.hel; Sample.yet])];
     ending := EndOfStream |}.

(** One record, then a line that is the JSON text [null], then a
    record whose beginning comes in the chunk of the [null]. *)
Definition null_line : body :=
  {| chunks := [Sample.wire (Sample.hel ++ [LF]);
                Sample.wire (lit "null" ++ [LF] ++ take 9 Sample.yet);
                Sample.wire (drop 9 Sample.yet ++ [LF])];
     ending := EndOfStream |}.

(** A record whose [response] is an object with a [toString] key
    between two records with strings. *)
Definition odd : jsstring :=
  Sample.quoted "{'response':{'toString':1},'done':false}".

Definition with_object : body :=
  {| chunks := [Sample.wire (Sample.hel ++ [LF]);
                Sample.wire (odd ++ [LF]);
                Sample.wire (Sample.yet ++ [LF])];
     ending := EndOfStream |}.

(** The first fragment of the joke has arrived. *)
Definition streaming_joke `{Engine} : Chat.world :=
  Chat.perform 0 (Call (Next (JStr (lit "Why")))) Sample.asked.

(** The profile of the usage example of the utilities. *)
Definition profile : jsval :=
  JObj [(lit "personal",
         JObj [(lit "name", JStr (lit "Jane Doe"));
               (lit "contact",
                JObj [(lit "email", JStr (lit "jane@example.com"))])])].

(** The first version of the component: three prompts; the second
    request is answered, then the first fails, then the third is
    answered with the body [null]. *)
Definition legacy_run : Legacy.world :=
  {| Legacy.chat :=
       {| Legacy.messages :=
            [Legacy.user_turn (lit "a"); Legacy.placeholder;
             Legacy.user_turn (lit "b"); Legacy.bot_turn (JStr (lit "yo"));
             Legacy.user_turn (lit "c"); Legacy.placeholder;
             Legacy.bot_turn (JStr (Chat.warning_prefix ++ lit "down"))];
          Legacy.isLoading := false |};
     Legacy.subscriptions :=
       [{| Legacy.loaderIndex := 1; Legacy.isStopped := true |};
        {| Legacy.loaderIndex := 3; Legacy.isStopped := true |};
        {| Legacy.loaderIndex := 5; Legacy.isStopped := true |}];
     Legacy.answered :=
       [(1%nat, Legacy.Responded (JObj [(lit "response", JStr (lit "yo"))]));
        (0%nat, Legacy.Failed {| name := TypeError; message := lit "down" |});
        (2%nat, Legacy.Responded JNull)] |}.

End Cases.

(** * Properties *)

Import JsValue StreamDecoder Chat.

(** ** The reference parser *)

Module ParserSupply.
Import ReferenceEngine.
#[local] Open Scope nat_scope.

Lemma skip_space_length (s : jsstring) : length (skip_space s) <= length s.
Proof.
  induction s as [|c s IH]; [done|]. cbn [skip_space].
  destruct (is_json_space c); cbn [length]; lia.
Qed.

Lemma head_is_drop (c : code_unit) (s : jsstring) :
  head_is c s = true -> S (length (drop 1 s)) = length s.
Proof. destruct s; [done|]. intros _. cbn. by rewrite drop_0. Qed.

Lemma parse_chars_length (s acc str rest : jsstring) :
  parse_chars s acc = Some (str, rest) -> length rest < length s.
Proof.
  revert acc. induction s as [s IH] using (induction_ltof1 _ (@length _)).
  unfold ltof in IH. intros acc. destruct s as [|c s]; [done|].
  cbn [parse_chars length].
  destruct (c =? 34)%N; [intros [= _ <-]; lia|].
  destruct (c =? 92)%N.
  - destruct s as [|e s]; [done|]. destruct (e =? 117)%N.
    + destruct s as [|a [|b [|c' [|d s]]]]; try done.
      destruct (hex_value a), (hex_value b), (hex_value c'), (hex_value d);
        try done.
      intros Hp%IH; cbn [length] in *; lia.
    + destruct (escaped e); [|done]. intros Hp%IH; cbn [length] in *; lia.
  - destruct (c <? 32)%N; [done|]. intros Hp%IH; cbn [length] in *; lia.
Qed.

Lemma parse_digits_length (s : jsstring) (acc : N) (count : nat) :
  length (parse_digits s acc count).2 <= length s.
Proof.
  revert acc count. induction s as [|c s IH]; intros acc count; [done|].
  cbn [parse_digits]. destruct (is_digit c); [|done].
  specialize (IH (acc * 10 + (c - 48))%N (S count)). cbn [length]. lia.
Qed.

Lemma parse_exponent_length (s rest : jsstring) (e : Z) :
  parse_exponent s = Some (e, rest) -> length rest <= length s.
Proof.
  unfold parse_exponent.
  destruct (head_is 101 s || head_is 69 s); [|by intros [= _ <-]].
  pose proof (length_drop s 1) as H1.
  assert (H2 : exists sign s2, (if head_is 43 (drop 1 s) then (1%Z, drop 1 (drop 1 s))
             else if head_is 45 (drop 1 s) then ((-1)%Z, drop 1 (drop 1 s))
             else (1%Z, drop 1 s)) = (sign, s2) /\ length s2 <= length s).
  { destruct (head_is 43 (drop 1 s)); [|destruct (head_is 45 (drop 1 s))];
      eexists _, _; (split; [done|]); rewrite ?length_drop; lia. }
  destruct H2 as (sign & s2 & -> & H2).
  pose proof (parse_digits_length s2 0 0) as H3.
  destruct (parse_digits s2 0 0) as [[x [|k]] s3]; [done|].
  intros [= _ <-]. cbn in H3. lia.
Qed.

Lemma parse_number_length (s rest : jsstring) (n : number) :
  parse_number s = Some (n, rest) -> length rest <= length s.
Proof.
  unfold parse_number.
  assert (H1 : length (if head_is 45 s then drop 1 s else s) <= length s)
    by (destruct (head_is 45 s); rewrite ?length_drop; lia).
  destruct (if head_is 45 s then drop 1 s else s) as [|c s2] eqn:E1; [done|].
  rewrite ?E1 in H1. cbn [length] in H1.
  destruct (is_digit c); [|done].
  assert (H2 : exists int s3,
             (if (c =? 48)%N then (0%N, s2)
              else let '(n, _, s3) := parse_digits (c :: s2) 0 0 in (n, s3))
             = (int, s3) /\ length s3 <= length s).
  { destruct (c =? 48)%N.
    - eexists _, _. split; [done|]. cbn [length] in H1. lia.
    - pose proof (parse_digits_length (c :: s2) 0 0) as H.
      destruct (parse_digits (c :: s2) 0 0) as [[x k] s3].
      eexists _, _. split; [done|]. cbn in H. lia. }
  destruct H2 as (int & s3 & -> & H2).
  destruct (head_is 46 s3).
  - pose proof (parse_digits_length (drop 1 s3) int 0) as H3.
    rewrite length_drop in H3.
    destruct (parse_digits (drop 1 s3) int 0) as [[x [|k]] s5]; [done|].
    destruct (parse_exponent s5) as [[e s6]|] eqn:E; [|done].
    apply parse_exponent_length in E. intros [= _ <-]. cbn in H3. lia.
  - destruct (parse_exponent s3) as [[e s6]|] eqn:E; [|done].
    apply parse_exponent_length in E. intros [= _ <-]. lia.
Qed.

Ltac note_space x :=
  lazymatch goal with
  | _ : length (skip_space x) <= length x |- _ => fail
  | _ => pose proof (skip_space_length x)
  end.

Ltac length_facts :=
  repeat match goal with
    | H : head_is _ _ = true |- _ => apply head_is_drop in H
    | H : parse_chars _ _ = Some _ |- _ => apply parse_chars_length in H
    | H : parse_number _ = Some _ |- _ => apply parse_number_length in H
    | |- context [skip_space ?x] => note_space x
    | _ : context [skip_space ?x] |- _ => note_space x
    end;
  rewrite ?length_drop in *.

Lemma parse_length (n : nat) :
  (forall s v r, parse_value n s = Some (v, r) -> length r <= length s)
  /\ (forall s acc v r,
        parse_members n s acc = Some (v, r) -> length r <= length s)
  /\ (forall s acc v r,
        parse_items n s acc = Some (v, r) -> length r <= length s).
Proof.
  induction n as [|n (IHv & IHm & IHi)]; [done|]. split_and!.
  - intros s v r. cbn [parse_value]. cbv zeta.
    repeat (case_match; try done); intros Hr; inversion Hr; subst; clear Hr;
      try match goal with H : parse_members _ _ _ = Some _ |- _ => apply IHm in H end;
      try match goal with H : parse_items _ _ _ = Some _ |- _ => apply IHi in H end;
      length_facts; lia.
  - intros s acc v r. cbn [parse_members]. cbv zeta.
    repeat (case_match; try done); intros Hr; inversion Hr; subst; clear Hr;
      try match goal with H : parse_members _ _ _ = Some _ |- _ => apply IHm in H end;
      try match goal with H : parse_value _ _ = Some _ |- _ => apply IHv in H end;
      length_facts; lia.
  - intros s acc v r. cbn [parse_items].
    repeat (case_match; try done); intros Hr; inversion Hr; subst; clear Hr;
      try match goal with H : parse_items _ _ _ = Some _ |- _ => apply IHi in H end;
      try match goal with H : parse_value _ _ = Some _ |- _ => apply IHv in H end;
      length_facts; lia.
Qed.

(** The supply of calls does not matter once it is beyond twice the
    length of the text. *)
Lemma parse_supply (n : nat) :
  forall m,
    (forall s, 2 * length s + 1 <= n -> 2 * length s + 1 <= m ->
       parse_value n s = parse_value m s)
    /\ (forall s acc, 2 * length s + 2 <= n -> 2 * length s + 2 <= m ->
          parse_members n s acc = parse_members m s acc)
    /\ (forall s acc, 2 * length s + 2 <= n -> 2 * length s + 2 <= m ->
          parse_items n s acc = parse_items m s acc).
Proof.
  induction n as [|n IH]; intros m; [split_and!; intros; lia|].
  destruct m as [|m]; [split_and!; intros; lia|].
  destruct (IH m) as (IHv & IHm & IHi). split_and!.
  - intros s Hn Hm. cbn [parse_value]. cbv zeta.
    destruct (head_is 123 (skip_space s)) eqn:E1.
    { destruct (head_is 125 _); [done|]. apply IHm; length_facts; lia. }
    destruct (head_is 91 (skip_space s)) eqn:E2; [|done].
    destruct (head_is 93 _); [done|]. apply IHi; length_facts; lia.
  - intros s acc Hn Hm. cbn [parse_members]. cbv zeta.
    destruct (head_is 34 (skip_space s)) eqn:E1; [|done].
    destruct (parse_chars _ _) as [[key s2]|] eqn:E2; [|done].
    destruct (head_is 58 (skip_space s2)) eqn:E3; [|done].
    rewrite (IHv (drop 1 (skip_space s2))) by (length_facts; lia).
    destruct (parse_value m _) as [[v s4]|] eqn:E4; [|done].
    apply parse_length in E4.
    destruct (head_is 44 (skip_space s4)) eqn:E5; [|done].
    apply IHm; length_facts; lia.
  - intros s acc Hn Hm. cbn [parse_items].
    rewrite (IHv s) by lia.
    destruct (parse_value m s) as [[v s1]|] eqn:E1; [|done].
    apply parse_length in E1.
    destruct (head_is 44 (skip_space s1)) eqn:E2; [|done].
    apply IHi; length_facts; lia.
Qed.

(** [parse] gives its value all the calls it can use. *)
Lemma parse_value_supply (n : nat) (s : jsstring) :
  2 * length s + 3 <= n -> parse_value n s = parse_value (2 * length s + 3) s.
Proof. intros Hn. apply parse_supply; lia. Qed.

End ParserSupply.

(** A decidable proposition settled by evaluation. *)
Ltac by_computation :=
  match goal with |- ?P => apply (bool_decide_unpack P) end;
  vm_compute; exact I.

(** ** Lines and the inner loop *)

Lemma indexOf_from_cons (c : code_unit) (s : jsstring) (k : Z) :
  indexOf_from k (c :: s) [LF]
  = if (LF =? c)%N then k else indexOf_from (k + 1) s [LF].
Proof. cbn [indexOf_from starts_with]. by rewrite andb_true_r. Qed.

Lemma indexOf_from_absent (s : jsstring) (k : Z) :
  LF ∉ s -> indexOf_from k s [LF] = -1.
Proof.
  revert k. induction s as [|c s IH]; intros k Hs; [done|].
  apply not_elem_of_cons in Hs as [Hc Hs]. rewrite indexOf_from_cons.
  destruct (N.eqb_spec LF c) as [?|_]; [done|]. by apply IH.
Qed.

Lemma indexOf_from_line (l rest : jsstring) (k : Z) :
  LF ∉ l -> indexOf_from k (l ++ LF :: rest) [LF] = k + Z.of_nat (length l).
Proof.
  revert k. induction l as [|c l IH]; intros k Hl;
    cbn [app length]; rewrite indexOf_from_cons.
  - rewrite N.eqb_refl. lia.
  - apply not_elem_of_cons in Hl as [Hc Hl].
    destruct (N.eqb_spec LF c) as [?|_]; [done|].
    rewrite IH by done. lia.
Qed.

Lemma slice_line (l rest : jsstring) :
  slice (l ++ LF :: rest) 0 (Some (Z.of_nat (length l))) = l.
Proof.
  unfold slice, clamp_index. rewrite length_app. cbn [length].
  destruct (Z.ltb_spec (Z.of_nat (length l)) 0); [lia|].
  change (0 <? 0) with false. cbv iota.
  rewrite Z.min_l, Z.min_l by lia.
  rewrite Z.sub_0_r, Nat2Z.id. change (Z.to_nat 0) with 0%nat.
  by rewrite drop_0, take_app_length.
Qed.

Lemma slice_rest (l rest : jsstring) :
  slice (l ++ LF :: rest) (Z.of_nat (length l) + 1) None = rest.
Proof.
  unfold slice, clamp_index. rewrite length_app. cbn [length].
  destruct (Z.ltb_spec (Z.of_nat (length l) + 1) 0); [lia|].
  rewrite Z.min_l by lia.
  replace (Z.to_nat (Z.of_nat (length l) + 1)) with (length l + 1)%nat by lia.
  rewrite <- drop_drop, drop_app_length. cbn.
  rewrite drop_0. apply take_ge. lia.
Qed.

Section Decoder.
Context `{Engine}.

Lemma drain_unfold (buffer : jsstring) :
  drain buffer =
  if 0 <=? indexOf buffer [LF] then
    match line_step (slice buffer 0 (Some (indexOf buffer [LF]))) with
    | (out, Some c) => (out, c)
    | (out, None) =>
        let '(out', c) := drain (slice buffer (indexOf buffer [LF] + 1) None) in
        (out ++ out', c)
    end
  else ([], Break buffer).
Proof.
  funelim (drain buffer); clear Heqcall;
    match goal with E : (0 <=? _) = _ |- _ => rewrite E end;
    [done|..]; unfold line_step;
    repeat match goal with
      | E : trim _ = _ |- _ => rewrite E; clear E
      | E : JSON_parse _ = _ |- _ => rewrite E; clear E
      | E : JsValue.get _ _ = _ |- _ => rewrite E; clear E
      | E : JsValue.truthy _ = _ |- _ => rewrite E; clear E
      end; try done.
  all: by destruct (drain _).
Qed.

Lemma drain_no_newline (buffer : jsstring) :
  LF ∉ buffer -> drain buffer = ([], Break buffer).
Proof.
  intros Hb. rewrite drain_unfold. unfold indexOf.
  by rewrite indexOf_from_absent.
Qed.

Lemma drain_line (l rest : jsstring) :
  LF ∉ l ->
  drain (l ++ LF :: rest) =
  match line_step l with
  | (out, Some c) => (out, c)
  | (out, None) => let '(out', c) := drain rest in (out ++ out', c)
  end.
Proof.
  intros Hl. rewrite drain_unfold. unfold indexOf.
  rewrite indexOf_from_line by done. rewrite Z.add_0_l.
  rewrite slice_line, slice_rest.
  by destruct (Z.leb_spec 0 (Z.of_nat (length l))); [|lia].
Qed.

Lemma join_lines_cons (l : jsstring) (lines : list jsstring) :
  join_lines (l :: lines) = l ++ LF :: join_lines lines.
Proof. unfold join_lines. cbn [fmap list_fmap mjoin list_join]. by rewrite <- app_assoc. Qed.

Lemma drain_lines (lines : list jsstring) (rest : jsstring) :
  Forall (fun l => LF ∉ l) lines -> LF ∉ rest ->
  drain (join_lines lines ++ rest) = process_lines lines rest.
Proof.
  intros Hlines Hrest. induction Hlines as [|l lines Hl _ IH].
  - by apply drain_no_newline.
  - rewrite join_lines_cons, <- app_assoc. cbn [app process_lines].
    rewrite drain_line by done.
    destruct (line_step l) as [out [c|]]; [done|]. by rewrite IH.
Qed.

Lemma join_lines_nil : join_lines [] = [].
Proof. done. Qed.

Lemma split_spec (s : jsstring) :
  exists lines rest,
    split s = lines ++ [rest] /\ s = join_lines lines ++ rest
    /\ Forall (fun l => LF ∉ l) lines /\ LF ∉ rest.
Proof.
  induction s as [|c s (lines & rest & Hsplit & Hs & Hlines & Hrest)].
  - exists [], []. split_and!; [done|done|done|]. apply not_elem_of_nil.
  - cbn [split]. destruct (N.eqb_spec c LF) as [->|Hc].
    + exists ([] :: lines), rest. rewrite Hsplit, join_lines_cons.
      split_and!; [done|cbn [app]; by rewrite <- Hs| |done].
      constructor; [apply not_elem_of_nil|done].
    + rewrite Hsplit. destruct lines as [|l lines].
      * exists [], (c :: rest). rewrite join_lines_nil in *. cbn in *.
        split_and!; [done|by rewrite Hs|done|].
        rewrite not_elem_of_cons. by split; [congruence|].
      * exists ((c :: l) :: lines), rest. rewrite !join_lines_cons in *.
        cbn [app]. pose proof (Forall_inv Hlines) as Hl.
        pose proof (Forall_inv_tail Hlines) as Hlines'.
        split_and!; [done|by rewrite Hs, <- !app_assoc| |done].
        constructor; [|done]. rewrite not_elem_of_cons. by split; [congruence|].
Qed.

Lemma complete_lines_partial_line (s : jsstring) (lines : list jsstring)
    (rest : jsstring) :
  split s = lines ++ [rest] ->
  complete_lines s = lines /\ partial_line s = rest.
Proof.
  intros Hs. unfold complete_lines, partial_line. rewrite Hs. split.
  - rewrite length_app. cbn [length].
    replace (length lines + 1 - 1)%nat with (length lines) by lia.
    by rewrite take_app_length.
  - apply List.last_last.
Qed.

Lemma split_join (lines : list jsstring) (rest : jsstring) :
  Forall (fun l => LF ∉ l) lines -> LF ∉ rest ->
  split (join_lines lines ++ rest) = lines ++ [rest].
Proof.
  assert (Hone : forall l, LF ∉ l -> split l = [l]).
  { induction l as [|c l IH]; [done|]. intros [Hc Hl]%not_elem_of_cons.
    cbn [split]. destruct (N.eqb_spec c LF) as [?|_]; [done|].
    by rewrite IH. }
  assert (Hline : forall l tail, LF ∉ l ->
            split (l ++ LF :: tail) = l :: split tail).
  { induction l as [|c l IH]; intros tail Hl.
    - cbn [app split]. by rewrite N.eqb_refl.
    - apply not_elem_of_cons in Hl as [Hc Hl]. cbn [app split].
      destruct (N.eqb_spec c LF) as [?|_]; [done|]. by rewrite IH. }
  intros Hlines Hrest. induction Hlines as [|l lines Hl _ IH].
  - by apply Hone.
  - rewrite join_lines_cons, <- app_assoc. cbn [app].
    by rewrite Hline, IH.
Qed.

Lemma text_lines (s : jsstring) :
  s = join_lines (complete_lines s) ++ partial_line s
  /\ Forall (fun l => LF ∉ l) (complete_lines s)
  /\ LF ∉ partial_line s.
Proof.
  destruct (split_spec s) as (lines & rest & Hsplit & Hs & Hlines & Hrest).
  by destruct (complete_lines_partial_line s lines rest Hsplit) as [-> ->].
Qed.

Lemma complete_lines_join (lines : list jsstring) (rest : jsstring) :
  Forall (fun l => LF ∉ l) lines -> LF ∉ rest ->
  complete_lines (join_lines lines ++ rest) = lines
  /\ partial_line (join_lines lines ++ rest) = rest.
Proof.
  intros. apply complete_lines_partial_line. by apply split_join.
Qed.

(** The inner loop processes exactly the lines a line feed ends. *)
Lemma drain_complete_lines (buffer : jsstring) :
  drain buffer = process_lines (complete_lines buffer) (partial_line buffer).
Proof.
  destruct (text_lines buffer) as (Hb & Hlines & Hrest).
  rewrite Hb at 1. by apply drain_lines.
Qed.

Lemma line_step_leaves (l b : jsstring) (out : list jsval) :
  line_step l <> (out, Some (Break b)).
Proof.
  unfold line_step. destruct (trim l); [done|].
  destruct (JSON_parse _) as [?|chunk]; [done|].
  destruct (JsValue.get chunk _); [done|].
  destruct (JsValue.get chunk _); [done|].
  by destruct (JsValue.truthy _).
Qed.

Lemma process_lines_app (lines1 lines2 : list jsstring) (rest : jsstring) :
  process_lines (lines1 ++ lines2) rest =
  match process_lines lines1 [] with
  | (out, Break _) =>
      let '(out', c) := process_lines lines2 rest in (out ++ out', c)
  | (out, c) => (out, c)
  end.
Proof.
  induction lines1 as [|l lines1 IH]; cbn [app process_lines].
  - by destruct (process_lines lines2 rest).
  - destruct (line_step l) as [out [c|]] eqn:El.
    + destruct c; [by apply line_step_leaves in El|done..].
    + rewrite IH. destruct (process_lines lines1 []) as [out1 [b| |e]];
        [|done..].
      destruct (process_lines lines2 rest). by rewrite app_assoc.
Qed.

Lemma process_lines_break (lines : list jsstring) (rest b : jsstring)
    (out : list jsval) :
  process_lines lines rest = (out, Break b) -> b = rest.
Proof.
  revert out. induction lines as [|l lines IH]; intros out; cbn.
  - congruence.
  - destruct (line_step l) as [o [c|]] eqn:El.
    + destruct c; [by apply line_step_leaves in El|congruence..].
    + destruct (process_lines lines rest) as [o' c'] eqn:E.
      intros [= <- ->]. by eapply IH.
Qed.

Lemma process_lines_rest (lines : list jsstring) (rest rest' : jsstring) :
  process_lines lines rest' =
  match process_lines lines rest with
  | (out, Break _) => (out, Break rest')
  | r => r
  end.
Proof.
  induction lines as [|l lines IH]; cbn; [done|].
  destruct (line_step l) as [o [c|]] eqn:El.
  { destruct c; [by apply line_step_leaves in El|done..]. }
  rewrite IH. by destruct (process_lines lines rest) as [o' [?| |?]].
Qed.

Lemma drain_break_no_LF (buffer b : jsstring) (out : list jsval) :
  drain buffer = (out, Break b) -> LF ∉ b.
Proof.
  rewrite drain_complete_lines. intros ->%process_lines_break.
  apply text_lines.
Qed.

(** Text that arrives later does not change what the loop did with the
    text it had: a loop that was left stays left, a loop that ran out
    of lines goes on from the partial line. *)
Lemma drain_app (buffer text : jsstring) :
  drain (buffer ++ text) =
  match drain buffer with
  | (out, Break b) => let '(out', c) := drain (b ++ text) in (out ++ out', c)
  | (out, c) => (out, c)
  end.
Proof.
  destruct (split_spec buffer) as (ls & r & _ & -> & Hls & Hr).
  destruct (split_spec (r ++ text)) as (ls' & r' & _ & Ht & Hls' & Hr').
  rewrite (drain_lines ls r), (process_lines_rest ls [] r) by done.
  rewrite <- app_assoc, Ht, app_assoc.
  replace (join_lines ls ++ join_lines ls') with (join_lines (ls ++ ls'))
    by (unfold join_lines; by rewrite fmap_app, join_app).
  rewrite !drain_lines by (by try apply Forall_app).
  rewrite process_lines_app.
  destruct (process_lines ls []) as [out [b| |e]]; [|done..].
  by rewrite Ht, drain_lines.
Qed.

Lemma decode_app (d : TextDecoder.t) (a b : list Byte.byte) :
  TextDecoder.decode d (a ++ b) =
  let '(d1, t1) := TextDecoder.decode d a in
  let '(d2, t2) := TextDecoder.decode d1 b in
  (d2, t1 ++ t2).
Proof.
  revert d. induction a as [|x a IH]; intros d; cbn [app TextDecoder.decode].
  - by destruct (TextDecoder.decode d b).
  - destruct (TextDecoder.step d x) as [d1 o1]. rewrite IH.
    destruct (TextDecoder.decode d1 a) as [d2 o2].
    destruct (TextDecoder.decode d2 b) as [d3 o3]. by rewrite app_assoc.
Qed.

Lemma events_app (a b : list action) : events (a ++ b) = events a ++ events b.
Proof. apply omap_app. Qed.

Lemma fragments_app (a b : list action) :
  fragments (a ++ b) = fragments a ++ fragments b.
Proof. apply omap_app. Qed.

Lemma reads_app (a b : list action) : (reads (a ++ b) = reads a + reads b)%nat.
Proof. unfold reads. by rewrite omap_app, length_app. Qed.

Lemma events_read (acts : list action) : events (Read :: acts) = events acts.
Proof. done. Qed.

Lemma events_calls (out : list jsval) : events (calls out) = Next <$> out.
Proof. induction out as [|v out IH]; [done|]. cbn. by f_equal. Qed.

Lemma fragments_calls (out : list jsval) : fragments (calls out) = out.
Proof. induction out as [|v out IH]; [done|]. cbn. by f_equal. Qed.

Lemma reads_calls (out : list jsval) : reads (calls out) = 0%nat.
Proof. unfold reads. induction out as [|v out IH]; [done|]. by cbn. Qed.

Lemma fragments_events (acts : list action) :
  fragments acts
  = omap (fun ev => match ev with Next v => Some v | _ => None end) (events acts).
Proof.
  induction acts as [|[r| |[v| |e]] acts IH]; [done|..]; cbn;
    first [exact IH | f_equal; exact IH].
Qed.

(** What the observer is told depends on the text of the body and on
    how the body ends, not on how the text was cut into chunks. *)
Lemma read_loop_events (chunks : list (list Byte.byte)) (ending : body_end)
    (d : TextDecoder.t) (buffer : jsstring) :
  LF ∉ buffer ->
  events (read_loop d buffer chunks ending) =
  match drain (buffer ++ (TextDecoder.decode d (mjoin chunks)).2) with
  | (out, Break _) => (Next <$> out) ++ [end_event ending]
  | (out, Return_) => (Next <$> out) ++ [Complete]
  | (out, Throw e) => (Next <$> out) ++ [Error e]
  end.
Proof.
  revert d buffer. induction chunks as [|value chunks IH]; intros d buffer Hb.
  - cbn [mjoin list_join TextDecoder.decode snd read_loop].
    rewrite app_nil_r, drain_no_newline by done. by destruct ending.
  - cbn [mjoin list_join read_loop]. rewrite decode_app.
    destruct (TextDecoder.decode d value) as [d1 t1].
    specialize (IH d1).
    destruct (TextDecoder.decode d1 (mjoin chunks)) as [d2 t2].
    cbn [snd] in *. rewrite app_assoc, (drain_app (buffer ++ t1) t2).
    destruct (drain (buffer ++ t1)) as [out [b| |e]] eqn:E; rewrite events_read.
    + rewrite events_app, events_calls, IH by (by eapply drain_break_no_LF).
      destruct (drain (b ++ t2)) as [out' [b'| |e']];
        by rewrite fmap_app, <- app_assoc.
    + by rewrite events_app, events_calls.
    + by rewrite events_app, events_calls.
Qed.

Lemma respond_events (b : body) :
  events (respond (FetchResolved (Some b))) =
  match drain (decoded_text (chunks b)) with
  | (out, Break _) => (Next <$> out) ++ [end_event (ending b)]
  | (out, Return_) => (Next <$> out) ++ [Complete]
  | (out, Throw e) => (Next <$> out) ++ [Error e]
  end.
Proof.
  unfold respond. rewrite read_loop_events by apply not_elem_of_nil. done.
Qed.

Lemma omap_next (out : list jsval) (tail : list event) :
  omap (fun ev => match ev with Next v => Some v | _ => None end)
    ((Next <$> out) ++ tail)
  = out ++ omap (fun ev => match ev with Next v => Some v | _ => None end) tail.
Proof. induction out as [|v out IH]; [done|]. cbn. by f_equal. Qed.

Lemma respond_fragments (b : body) :
  fragments (respond (FetchResolved (Some b)))
  = (drain (decoded_text (chunks b))).1.
Proof.
  rewrite fragments_events, respond_events.
  destruct (drain _) as [out [?| |?]]; cbn [fst]; rewrite omap_next;
    try destruct (ending b); cbn; apply app_nil_r.
Qed.

(** Two ways of cutting the same bytes into chunks are told apart by
    no observer. *)
Lemma chunking_irrelevant (chunks chunks' : list (list Byte.byte))
    (ending : body_end) :
  mjoin chunks = mjoin chunks' ->
  events (respond (FetchResolved (Some {| chunks := chunks; ending := ending |})))
  = events (respond (FetchResolved (Some {| chunks := chunks'; ending := ending |}))).
Proof.
  intros E. rewrite !respond_events. unfold decoded_text. cbn.
  by rewrite E.
Qed.

Lemma record_line_step (l : jsstring) (r : wire_record) :
  record_of_line l = Some r ->
  (LF ∉ l)
  /\ line_step l
     = ([JStr (response r)], if done r then Some Return_ else None).
Proof.
  unfold record_of_line, line_step. case_bool_decide as Hl; [done|].
  destruct (trim l) as [|c line]; [done|].
  destruct (JSON_parse (c :: line)) as [?|[| | | | | |props]]; try done.
  cbn [get property].
  destruct (own_property props (lit "response")) as [[| | | |resp| |]|];
    try done.
  destruct (own_property props (lit "done")) as [[| |d| | | |]|];
    try done.
  intros [= <-]. split; [done|]. cbn. by destruct d.
Qed.

Lemma process_records (lines : list jsstring) (records : list wire_record)
    (rest : jsstring) :
  Forall2 (fun l r => record_of_line l = Some r) lines records ->
  Forall (fun l => LF ∉ l) lines
  /\ process_lines lines rest
     = ((fun r => JStr (response r)) <$> upto_done records,
        if existsb done records then Return_ else Break rest).
Proof.
  induction 1 as [|l r lines records Hl _ [IH1 IH2]]; [done|].
  apply record_line_step in Hl as [Hl Hstep]. split; [by constructor|].
  cbn [process_lines upto_done existsb]. rewrite Hstep.
  destruct (done r); [done|]. by rewrite IH2.
Qed.

(** A loop that has not been left after more text was not left
    before. *)
Lemma drain_app_break (buffer text b : jsstring) (out : list jsval) :
  drain (buffer ++ text) = (out, Break b) ->
  exists out1 b1 out2,
    drain buffer = (out1, Break b1) /\ drain (b1 ++ text) = (out2, Break b)
    /\ out = out1 ++ out2.
Proof.
  rewrite drain_app. destruct (drain buffer) as [out1 [b1| |e]]; [|done..].
  destruct (drain (b1 ++ text)) as [out2 c] eqn:E2. intros [= <- ->].
  by exists out1, b1, out2.
Qed.

(** The turns of the outer loop that read [cs1], when the text of
    [cs1] leaves the inner loop by its condition: one read each, the
    same whatever follows. *)
Lemma read_loop_prefix (cs1 : list (list Byte.byte)) (d : TextDecoder.t)
    (buffer b : jsstring) (out : list jsval) :
  LF ∉ buffer ->
  drain (buffer ++ (TextDecoder.decode d (mjoin cs1)).2) = (out, Break b) ->
  exists pre,
    events pre = Next <$> out /\ reads pre = length cs1
    /\ forall cs2 ending,
         read_loop d buffer (cs1 ++ cs2) ending
         = pre ++ read_loop (TextDecoder.decode d (mjoin cs1)).1 b cs2 ending.
Proof.
  revert d buffer out. induction cs1 as [|value cs1 IH]; intros d buffer out Hb.
  - cbn [mjoin list_join TextDecoder.decode fst snd].
    rewrite app_nil_r, drain_no_newline by done. intros [= <- <-].
    by exists [].
  - cbn [mjoin list_join]. rewrite decode_app.
    destruct (TextDecoder.decode d value) as [d1 t1] eqn:Ed.
    specialize (IH d1).
    destruct (TextDecoder.decode d1 (mjoin cs1)) as [d2 t2].
    cbn [fst snd] in *. rewrite app_assoc.
    intros (out1 & b1 & out2 & E1 & E2 & ->)%drain_app_break.
    destruct (IH b1 out2) as (pre & Hev & Hrd & Hpre);
      [by eapply drain_break_no_LF|done|].
    exists (Read :: calls out1 ++ pre). split_and!.
    + by rewrite events_read, events_app, events_calls, Hev, fmap_app.
    + change (reads (Read :: ?a)) with (S (reads a)).
      by rewrite reads_app, reads_calls, Hrd.
    + intros cs2 ending. cbn [app read_loop]. rewrite Ed, E1, Hpre.
      by rewrite <- app_assoc.
Qed.
End Decoder.

(** ** Well-formed streams *)

Section WellFormed.
Context `{Engine}.

Lemma fragments_streamGenerate (p : jsstring) (m : option jsstring) (b : body) :
  fragments (streamGenerate p m (FetchResolved (Some b)))
  = (drain (decoded_text (chunks b))).1.
Proof. unfold streamGenerate. apply respond_fragments. Qed.

Lemma to_string_responses (records : list wire_record) :
  mapM to_string ((fun r => JStr (response r)) <$> records)
  = Some (response <$> records).
Proof.
  induction records as [|r records IH]; [done|].
  rewrite !fmap_cons. cbn [mapM to_string]. by rewrite IH.
Qed.

(** C1. When the body is a sequence of lines that each carry a record,
    whatever the chunks, the fragments handed to the observer are the
    [response] fields of the records up to and including the first
    whose [done] is [true], in order; each of them has a string form,
    and the concatenation of these is the concatenation of the
    [response] fields. *)
Theorem well_formed_stream_fragments (lines : list jsstring)
    (records : list wire_record) (cs : list (list Byte.byte))
    (ending : body_end) (p : jsstring) (m : option jsstring) :
  Forall2 (fun l r => record_of_line l = Some r) lines records ->
  decoded_text cs = join_lines lines ->
  let acts :=
    streamGenerate p m (FetchResolved (Some {| chunks := cs; ending := ending |})) in
  fragments acts = (fun r => JStr (response r)) <$> upto_done records
  /\ mjoin <$> mapM to_string (fragments acts)
     = Some (mjoin (response <$> upto_done records)).
Proof.
  intros Hlines Htext acts.
  assert (Hfr : fragments acts
                = (fun r => JStr (response r)) <$> upto_done records).
  { unfold acts. rewrite fragments_streamGenerate. cbn [chunks].
    rewrite Htext, <- (app_nil_r (join_lines lines)).
    destruct (process_records lines records [] Hlines) as [Hno Hpl].
    rewrite drain_lines by (done || apply not_elem_of_nil).
    by rewrite Hpl. }
  split; [done|]. by rewrite Hfr, to_string_responses.
Qed.

End WellFormed.

Section WellFormedSample.
#[local] Existing Instance ReferenceEngine.engine.

(** The three records of the joke, cut inside the records. *)
Lemma well_formed_stream_fragments_witness :
  let lines := [Sample.why; Sample.did; Sample.yet; Sample.late; Sample.late] in
  let records :=
    [{| response := lit "Why"; done := false |};
     {| response := lit " did..."; done := false |};
     {| response := lit " yet."; done := true |};
     {| response := lit "late"; done := false |};
     {| response := lit "late"; done := false |}] in
  Forall2 (fun l r => record_of_line l = Some r) lines records
  /\ decoded_text (chunks Sample.joke_recut) = join_lines lines
  /\ mjoin <$> mapM to_string
                  (fragments (streamGenerate Sample.joke_prompt None
                                (FetchResolved (Some Sample.joke_recut))))
     = Some (lit "Why did... yet.").
Proof.
  intros lines records.
  assert (Hl : Forall2 (fun l r => record_of_line l = Some r) lines records)
    by (repeat constructor).
  assert (Ht : decoded_text (chunks Sample.joke_recut) = join_lines lines)
    by (vm_compute; reflexivity).
  split_and!; [done|done|].
  exact (proj2 (well_formed_stream_fragments lines records
                  (chunks Sample.joke_recut) (ending Sample.joke_recut)
                  Sample.joke_prompt None Hl Ht)).
Defined.

End WellFormedSample.

(** ** Chunk boundaries *)

Section Chunks.
Context `{Engine}.

Lemma process_lines_fst (lines : list jsstring) (rest rest' : jsstring) :
  (process_lines lines rest).1 = (process_lines lines rest').1.
Proof.
  rewrite (process_lines_rest lines rest rest').
  by destruct (process_lines lines rest) as [out [?| |?]].
Qed.

Lemma naive_reference_lines (lines : list jsstring) :
  Forall (fun l => LF ∉ l) lines ->
  (naive_reference (join_lines lines)).1 = (process_lines lines []).1.
Proof.
  intros Hlines. unfold naive_reference.
  rewrite <- (app_nil_r (join_lines lines)).
  rewrite split_join by (done || apply not_elem_of_nil).
  rewrite process_lines_app.
  destruct (process_lines lines []) as [out [b| |e]]; [|done..].
  cbn. apply app_nil_r.
Qed.

(** C9, as the code has it.  However a byte stream is cut into chunks,
    the fragments of the incremental loop are those of the reference
    run on the lines of the whole text that a line feed ends; what
    follows the last line feed is not processed. *)
Theorem chunk_boundary_invariance (stream : list Byte.byte)
    (cs : list (list Byte.byte)) (ending : body_end) :
  mjoin cs = stream ->
  let text := (TextDecoder.decode TextDecoder.create stream).2 in
  fragments (respond (FetchResolved (Some {| chunks := cs; ending := ending |})))
  = (naive_reference (join_lines (complete_lines text))).1.
Proof.
  intros <- text. rewrite respond_fragments. cbn [chunks].
  fold text. change (decoded_text cs) with text.
  destruct (text_lines text) as (_ & Hlines & _).
  rewrite naive_reference_lines, drain_complete_lines by done.
  apply process_lines_fst.
Qed.

End Chunks.

Section ChunksSample.
#[local] Existing Instance ReferenceEngine.engine.

(** The joke in one chunk and in the four chunks of the recut stream. *)
Lemma chunk_boundary_invariance_witness :
  mjoin (chunks Sample.joke_recut)
  = Sample.wire (join_lines [Sample.why; Sample.did; Sample.yet;
                             Sample.late; Sample.late])
  /\ fragments (respond (FetchResolved (Some Sample.joke_recut)))
     = (naive_reference
          (join_lines
             (complete_lines
                (TextDecoder.decode TextDecoder.create
                   (Sample.wire
                      (join_lines [Sample.why; Sample.did; Sample.yet;
                                   Sample.late; Sample.late]))).2))).1.
Proof.
  assert (E : mjoin (chunks Sample.joke_recut)
              = Sample.wire (join_lines [Sample.why; Sample.did; Sample.yet;
                                         Sample.late; Sample.late]))
    by (vm_compute; reflexivity).
  split; [exact E|].
  exact (chunk_boundary_invariance _ (chunks Sample.joke_recut)
           (ending Sample.joke_recut) E).
Defined.

(** C9, as stated, fails on a body whose last record has no line feed
    after it: the loop leaves the record in the buffer, the reference
    processes it. *)
Lemma chunk_boundary_counterexample :
  let cs := [Sample.wire (Sample.hel ++ [LF]); Sample.wire Sample.yet] in
  fragments (respond (FetchResolved (Some {| chunks := cs; ending := EndOfStream |})))
  = [JStr (lit "Hel")]
  /\ (naive_reference (decoded_text cs)).1 = [JStr (lit "Hel"); JStr (lit " yet.")].
Proof. split; vm_compute; reflexivity. Qed.

End ChunksSample.

(** ** The terminal record *)

Section Terminal.
Context `{Engine}.

Lemma reads_read (acts : list action) : reads (Read :: acts) = S (reads acts).
Proof. done. Qed.

Lemma join_lines_snoc (lines : list jsstring) (l : jsstring) :
  join_lines (lines ++ [l]) = join_lines lines ++ l ++ [LF].
Proof.
  unfold join_lines. rewrite fmap_app, join_app. cbn. by rewrite app_nil_r.
Qed.

(** C6. A record whose [done] is [true] ends the stream: after the
    fragments of the lines before it the observer gets its [response]
    and then [complete]; the read that brought the end of its line was
    the last one, whatever follows in the buffer, in later chunks or at
    the end of the body. *)
Theorem done_record_ends_stream (before : list jsstring) (frags : list jsval)
    (l rest u r : jsstring) (cs1 : list (list Byte.byte)) (c : list Byte.byte)
    (cs2 : list (list Byte.byte)) (fin : body_end) :
  Forall (fun l => LF ∉ l) before ->
  process_lines before [] = (frags, Break []) ->
  record_of_line l = Some {| response := r; done := true |} ->
  decoded_text (cs1 ++ [c]) = join_lines before ++ l ++ LF :: rest ->
  decoded_text cs1 ++ u = join_lines before ++ l ->
  let acts :=
    respond (FetchResolved (Some {| chunks := cs1 ++ c :: cs2; ending := fin |})) in
  events acts = (Next <$> frags) ++ [Next (JStr r); Complete]
  /\ reads acts = S (length cs1).
Proof.
  intros Hbefore Hfrags Hl Hwhole Hpart acts.
  apply record_line_step in Hl as [Hl Hstep]. cbn [response done] in Hstep.
  (* the text of [cs1] does not leave the inner loop *)
  assert (Hd1 : drain (decoded_text cs1 ++ u) = (frags, Break l)).
  { rewrite Hpart, drain_lines by done.
    by rewrite (process_lines_rest before [] l), Hfrags. }
  apply drain_app_break in Hd1 as (out1 & b1 & out2 & Hd1 & Hd2 & ->).
  (* the text up to the end of [c] does *)
  unfold decoded_text in Hwhole. rewrite join_app, decode_app in Hwhole.
  cbn [mjoin list_join] in Hwhole. rewrite app_nil_r in Hwhole.
  unfold decoded_text in Hd1.
  destruct (TextDecoder.decode TextDecoder.create (mjoin cs1)) as [d1 t1] eqn:Ed1.
  destruct (TextDecoder.decode d1 c) as [d2 t2] eqn:Ed2.
  cbn [snd] in Hwhole, Hd1.
  assert (Hd : drain (t1 ++ t2) = ((out1 ++ out2) ++ [JStr r], Return_)).
  { rewrite Hwhole.
    replace (join_lines before ++ l ++ LF :: rest)
      with ((join_lines (before ++ [l]) ++ []) ++ rest)
      by (rewrite join_lines_snoc, app_nil_r, <- !app_assoc; done).
    rewrite drain_app, drain_lines
      by (try apply Forall_app; try apply not_elem_of_nil; by repeat constructor).
    rewrite process_lines_app, Hfrags. cbn [process_lines].
    by rewrite Hstep. }
  rewrite drain_app, Hd1 in Hd.
  destruct (drain (b1 ++ t2)) as [out' c'] eqn:Ed.
  injection Hd as Hout ->. rewrite <- app_assoc in Hout.
  apply app_inv_head in Hout as ->.
  (* the loop itself *)
  destruct (read_loop_prefix cs1 TextDecoder.create [] b1 out1)
    as (pre & Hev & Hrd & Hpre); [apply not_elem_of_nil|by rewrite Ed1|].
  unfold acts, respond. cbn [chunks ending]. rewrite Hpre, Ed1.
  cbn [fst read_loop]. rewrite Ed2, Ed. split.
  - rewrite events_app, events_read, events_app, events_calls, Hev.
    rewrite !fmap_app, <- !app_assoc. done.
  - rewrite reads_app, reads_read, reads_app, reads_calls, Hrd. cbn. lia.
Qed.

(** C7, as the code has it.  Of a line the loop checks that it is a
    JSON text and that its value is not [null], nothing else: the
    [response] property is handed on as it is, [undefined] when there
    is none, and the loop is left when [done] is truthy, boolean or
    not.  No error comes from the shape of the record. *)
Theorem record_shape_unchecked (l rest : jsstring) (v : jsval) :
  LF ∉ l -> trim l <> [] -> JSON_parse (trim l) = inr v -> v <> JNull ->
  drain (l ++ LF :: rest) =
  if truthy (property v (lit "done"))
  then ([property v (lit "response")], Return_)
  else let '(out, c) := drain rest in (property v (lit "response") :: out, c).
Proof.
  intros Hl Hline Hparse Hv. rewrite drain_line by done. unfold line_step.
  destruct (trim l) as [|c line]; [done|]. rewrite Hparse.
  assert (Hget : forall key, get v key = inr (property v key))
    by (by destruct v).
  rewrite !Hget. destruct (truthy _); [done|]. by destruct (drain rest).
Qed.

End Terminal.

Section TerminalSample.
#[local] Existing Instance ReferenceEngine.engine.

(** The recut joke: the line feed of the last record is in the third
    chunk; a record and a fourth chunk follow, and the connection
    drops. *)
Lemma done_record_ends_stream_witness :
  Forall (fun l => LF ∉ l) [Sample.why; Sample.did]
  /\ process_lines [Sample.why; Sample.did] []
     = ([JStr (lit "Why"); JStr (lit " did...")], Break [])
  /\ record_of_line Sample.yet = Some {| response := lit " yet."; done := true |}
  /\ events (respond (FetchResolved (Some Sample.joke_recut)))
     = [Next (JStr (lit "Why")); Next (JStr (lit " did..."));
        Next (JStr (lit " yet.")); Complete]
  /\ reads (respond (FetchResolved (Some Sample.joke_recut))) = 3%nat.
Proof.
  assert (H1 : Forall (fun l => LF ∉ l) [Sample.why; Sample.did])
    by (repeat apply Forall_cons; try apply Forall_nil; by_computation).
  assert (H2 : process_lines [Sample.why; Sample.did] []
               = ([JStr (lit "Why"); JStr (lit " did...")], Break []))
    by (vm_compute; reflexivity).
  assert (H3 : record_of_line Sample.yet
               = Some {| response := lit " yet."; done := true |})
    by (vm_compute; reflexivity).
  assert (H4 : decoded_text (take 2 (chunks Sample.joke_recut)
                             ++ [Sample.wire (drop 20 Sample.yet ++ [LF]
                                              ++ Sample.late ++ [LF])])
               = join_lines [Sample.why; Sample.did] ++ Sample.yet
                 ++ LF :: (Sample.late ++ [LF]))
    by (vm_compute; reflexivity).
  assert (H5 : decoded_text (take 2 (chunks Sample.joke_recut))
               ++ drop 20 Sample.yet
               = join_lines [Sample.why; Sample.did] ++ Sample.yet)
    by (vm_compute; reflexivity).
  destruct (done_record_ends_stream [Sample.why; Sample.did] _ Sample.yet
              (Sample.late ++ [LF]) (drop 20 Sample.yet) (lit " yet.")
              (take 2 (chunks Sample.joke_recut))
              (Sample.wire (drop 20 Sample.yet ++ [LF] ++ Sample.late ++ [LF]))
              (drop 3 (chunks Sample.joke_recut))
              (ending Sample.joke_recut) H1 H2 H3 H4 H5) as [E1 E2].
  split_and!; [done..|exact E1|exact E2].
Defined.

Lemma record_shape_unchecked_witness :
  let l := Sample.quoted "{'done':0.0}" in
  let v := JObj [(lit "done", JNum {| negative := false; digits := 0; exponent := -1 |})] in
  (LF ∉ l) /\ trim l <> [] /\ JSON_parse (trim l) = inr v /\ v <> JNull
  /\ drain (l ++ LF :: Sample.yet ++ [LF])
     = ([JUndefined; JStr (lit " yet.")], Return_).
Proof.
  intros l v.
  assert (H1 : LF ∉ l) by by_computation.
  assert (H2 : trim l <> []) by (vm_compute; congruence).
  assert (H3 : JSON_parse (trim l) = inr v) by (vm_compute; reflexivity).
  assert (H4 : v <> JNull) by discriminate.
  split_and!; [exact H1|exact H2|exact H3|exact H4|].
  rewrite (record_shape_unchecked l (Sample.yet ++ [LF]) v H1 H2 H3 H4).
  vm_compute. reflexivity.
Defined.

(** C7, as stated, fails: a record with no [response] gives the
    fragment [undefined] and no error, and a [done] that is a string
    ends the stream like [true]. *)
Lemma record_shape_counterexample :
  events (respond (FetchResolved (Some
    {| chunks := [Sample.wire (Sample.quoted "{'done':false}" ++ [LF])];
       ending := EndOfStream |})))
  = [Next JUndefined; Complete]
  /\ events (respond (FetchResolved (Some
       {| chunks := [Sample.wire (Sample.quoted "{'response':'a','done':'no'}"
                                  ++ [LF] ++ Sample.late ++ [LF])];
          ending := EndOfStream |})))
     = [Next (JStr (lit "a")); Complete].
Proof. split; vm_compute; reflexivity. Qed.

End TerminalSample.

(** ** The conversation log *)

Section Controller.
Context `{Engine}.

Lemma notify_closed (k : nat) (ev : event) (w : world) :
  closed k w -> notify k ev w = w.
Proof.
  unfold closed, notify. intros Hk.
  destruct (subscriptions w !! k) as [s|]; [|done].
  by rewrite (Hk s eq_refl).
Qed.

Lemma stop_closed (k : nat) (w : world) : closed k (stop k w).
Proof.
  unfold closed, stop. intros s.
  destruct (subscriptions w !! k) as [s0|] eqn:E; cbn; [|congruence].
  rewrite list_lookup_insert_eq by (by eapply lookup_lt_Some).
  by intros [= <-].
Qed.

Lemma perform_closed (k : nat) (a : action) (w : world) :
  closed k w ->
  closed k (perform k a w) /\ chat (perform k a w) = chat w
  /\ subscriptions (perform k a w) = subscriptions w
  /\ performed (perform k a w) = performed w ++ [(k, a)].
Proof.
  intros Hk. unfold perform.
  destruct a as [r| |ev]; cbn; try done. by rewrite notify_closed.
Qed.

Lemma perform_all_cons (k : nat) (a : action) (acts : list action) (w : world) :
  perform_all k (a :: acts) w = perform_all k acts (perform k a w).
Proof. done. Qed.

Lemma perform_all_app (k : nat) (acts acts' : list action) (w : world) :
  perform_all k (acts ++ acts') w = perform_all k acts' (perform_all k acts w).
Proof. apply foldl_app. Qed.

Lemma perform_all_closed (k : nat) (acts : list action) (w : world) :
  closed k w ->
  chat (perform_all k acts w) = chat w
  /\ subscriptions (perform_all k acts w) = subscriptions w
  /\ performed (perform_all k acts w)
     = performed w ++ ((fun a => (k, a)) <$> acts).
Proof.
  revert w. induction acts as [|a acts IH]; intros w Hk.
  - cbn. by rewrite app_nil_r.
  - destruct (perform_closed k a w Hk) as (Hk' & Hc & Hs & Hp).
    destruct (IH _ Hk') as (Hc' & Hs' & Hp'). rewrite perform_all_cons.
    rewrite Hc', Hs', Hp', Hc, Hs, Hp. by rewrite <- app_assoc.
Qed.

Lemma upto_fragment_app (acts : list action) (n : nat) :
  (upto_fragment acts n).1 ++ (upto_fragment acts n).2 = acts.
Proof.
  revert n. induction acts as [|a acts IH]; intros [|n]; try done.
  cbn [upto_fragment].
  destruct (upto_fragment acts _) as [before after] eqn:E. cbn.
  f_equal. specialize (IH match a with Call (Next _) => n | _ => S n end).
  by rewrite E in IH.
Qed.

(** C4, as the code has it.  Once the consumer has unsubscribed, after
    any number [n] of fragments, nothing the decoder does reaches the
    log or the subscriptions.  The decoder is not told: it performs all
    the actions it had left, reads included. *)
Theorem unsubscribed_stream_is_ignored (net : fetch_result) (n k : nat)
    (w : world) :
  let before := (upto_fragment (respond net) n).1 in
  let after := (upto_fragment (respond net) n).2 in
  let w1 := unsubscribe k (perform_all k before w) in
  let w2 := perform_all k after w1 in
  before ++ after = respond net
  /\ chat w2 = chat w1
  /\ subscriptions w2 = subscriptions w1
  /\ performed w2 = performed w1 ++ ((fun a => (k, a)) <$> after).
Proof.
  intros before after w1 w2. split; [apply upto_fragment_app|].
  apply perform_all_closed, stop_closed.
Qed.

End Controller.

Section ControllerSample.
#[local] Existing Instance ReferenceEngine.engine.

(** C4, as stated, fails where it has the reader released: the
    consumer unsubscribes in the handler of the first fragment of the
    joke, and the decoder still reads twice and parses two records. *)
Lemma unsubscribe_counterexample :
  let acts := respond (FetchResolved (Some Sample.joke)) in
  let w0 := sendMessage Sample.joke_prompt initial in
  let w1 := unsubscribe 0 (perform_all 0 (upto_fragment acts 1).1 w0) in
  let w2 := perform_all 0 (upto_fragment acts 1).2 w1 in
  reads (upto_fragment acts 1).2 = 2%nat
  /\ drop (length (performed w1)) (performed w2)
     = [(0%nat, Read); (0%nat, Call (Next (JStr (lit " did..."))));
        (0%nat, Read); (0%nat, Call (Next (JStr (lit " yet."))));
        (0%nat, Call Complete)].
Proof. split; vm_compute; reflexivity. Qed.

End ControllerSample.

Section Turns.
Context `{Engine}.

Lemma streaming_mono (w w' : world) (i : nat) (tail : list subscription) :
  subscriptions w' = subscriptions w ++ tail ->
  streaming w i -> streaming w' i.
Proof.
  intros Hs (k & s & Hk & Hi & Ho). exists k, s. split; [|done].
  rewrite Hs. by apply lookup_app_l_Some.
Qed.

(** What [sendMessage] adds for a prompt that is not blank. *)
Lemma sendMessage_pushes (prompt : jsstring) (w : world) :
  trim prompt <> [] ->
  messages (chat (sendMessage prompt w))
  = messages (chat w)
    ++ [{| from := user; text := Some (TString (trim prompt)); loading := None |};
        {| from := bot; text := Some (TString []); loading := None |}]
  /\ subscriptions (sendMessage prompt w)
     = subscriptions w
       ++ [{| botIndex := S (length (messages (chat w))); isStopped := false |}].
Proof.
  intros Hp. unfold sendMessage.
  destruct (trim prompt) as [|c text] eqn:E; [done|]. cbn [truthy_string negb].
  cbn [chat messages subscriptions]. rewrite !length_app. cbn [length].
  replace (length (messages (chat w)) + 1 + 1 - 1)%nat
    with (S (length (messages (chat w)))) by lia.
  by rewrite <- app_assoc.
Qed.

(** C2, as the code has it.  [sendMessage] has no busy state: a prompt
    that is not blank is taken in every state, turns that are streaming
    or not.  It pushes the user turn and an empty bot turn after the
    turns there are, sends the request, and opens one more
    subscription next to those that are open; so several turns can be
    streaming at once. *)
Theorem sendMessage_has_no_busy_state (prompt : jsstring) (w : world) :
  trim prompt <> [] ->
  let w' := sendMessage prompt w in
  messages (chat w')
  = messages (chat w)
    ++ [{| from := user; text := Some (TString (trim prompt)); loading := None |};
        {| from := bot; text := Some (TString []); loading := None |}]
  /\ subscriptions w'
     = subscriptions w
       ++ [{| botIndex := S (length (messages (chat w))); isStopped := false |}]
  /\ performed w'
     = performed w
       ++ [(length (subscriptions w), Fetch (generate_request (trim prompt) None))]
  /\ (forall i, streaming w i -> streaming w' i)
  /\ streaming w' (S (length (messages (chat w)))).
Proof.
  intros Hp w'. unfold w', sendMessage.
  destruct (trim prompt) as [|c text] eqn:E; [done|]. cbn [truthy_string negb].
  cbn [chat messages subscriptions performed].
  assert (Hi : (length ((messages (chat w)
                         ++ [{| from := user; text := Some (TString (c :: text));
                                loading := None |}])
                        ++ [{| from := bot; text := Some (TString []);
                               loading := None |}]) - 1)%nat
               = S (length (messages (chat w))))
    by (rewrite !length_app; cbn; lia).
  rewrite Hi. split_and!; [by rewrite <- app_assoc|done|done| |].
  - intros i.
    by apply (streaming_mono w _ i
                [{| botIndex := S (length (messages (chat w)));
                    isStopped := false |}]).
  - exists (length (subscriptions w)),
      {| botIndex := S (length (messages (chat w))); isStopped := false |}.
    split; [|done]. cbn [subscriptions].
    by rewrite lookup_app_r, Nat.sub_diag.
Qed.

(** C8, as the code has it.  A prompt that is blank after trimming
    leaves everything as it was: no turn, no subscription, no request.
    The check is in [sendMessage] only; [streamGenerate] sends its
    request for every prompt. *)
Theorem blank_prompt_is_dropped (prompt : jsstring) (w : world)
    (net : fetch_result) (m : option jsstring) :
  trim prompt = [] ->
  sendMessage prompt w = w
  /\ converse prompt net w = w
  /\ streamGenerate prompt m net = Fetch (generate_request prompt m) :: respond net.
Proof.
  intros Hp. unfold converse, sendMessage. by rewrite Hp.
Qed.

End Turns.

Section TurnsSample.
#[local] Existing Instance ReferenceEngine.engine.

Lemma sendMessage_has_no_busy_state_witness :
  let w := sendMessage Sample.joke_prompt initial in
  trim (lit " again ") <> []
  /\ streaming w 1
  /\ streaming (sendMessage (lit " again ") w) 1
  /\ streaming (sendMessage (lit " again ") w) 3.
Proof.
  intros w.
  assert (Hp : trim (lit " again ") <> []) by (vm_compute; congruence).
  assert (Hw : streaming w 1) by (by exists 0%nat, {| botIndex := 1; isStopped := false |}).
  destruct (sendMessage_has_no_busy_state (lit " again ") w Hp)
    as (_ & _ & _ & Hold & Hnew).
  split_and!; [exact Hp|exact Hw|exact (Hold 1%nat Hw)|exact Hnew].
Defined.

(** C2, as stated, fails: a second prompt sent while the first answer
    is streaming is not rejected; the log grows from two turns to four
    and two turns are streaming. *)
Lemma busy_counterexample :
  let w := sendMessage Sample.joke_prompt initial in
  let w' := sendMessage (lit "again") w in
  streaming w 1
  /\ length (messages (chat w)) = 2%nat
  /\ length (messages (chat w')) = 4%nat
  /\ streaming w' 1 /\ streaming w' 3.
Proof.
  cbn zeta. split_and!; try (vm_compute; reflexivity).
  - by exists 0%nat, {| botIndex := 1; isStopped := false |}.
  - by exists 0%nat, {| botIndex := 1; isStopped := false |}.
  - by exists 1%nat, {| botIndex := 3; isStopped := false |}.
Qed.

Lemma blank_prompt_is_dropped_witness :
  trim (lit "   ") = []
  /\ sendMessage (lit "   ") initial = initial
  /\ converse (lit "   ") (FetchResolved (Some Sample.joke)) initial = initial.
Proof.
  assert (Hp : trim (lit "   ") = []) by (vm_compute; reflexivity).
  destruct (blank_prompt_is_dropped (lit "   ") initial
              (FetchResolved (Some Sample.joke)) None Hp) as (E1 & E2 & _).
  split_and!; [exact Hp|exact E1|exact E2].
Defined.

(** C8, as stated, fails for [streamGenerate]: subscribed to with a
    blank prompt it sends the request; the error the observer gets is
    the one of the network. *)
Lemma blank_prompt_counterexample :
  let e := {| name := TypeError; message := lit "Failed to fetch" |} in
  streamGenerate (lit "   ") None (FetchRejected e)
  = [Fetch {| url := endpoint; content_type := lit "application/json";
              model := lit "gemma:2b"; prompt := lit "   "; stream := true |};
     Call (Error e)].
Proof. reflexivity. Qed.

End TurnsSample.

(** ** The handlers *)

Section Handlers.
Context `{Engine}.

Lemma on_next_messages (i : nat) (v : jsval) (c : ChatComponent) (m : Message) :
  messages c !! i = Some m ->
  messages (on_next i v c)
  = <[i := with_text m (plus_all (text m) [v])]> (messages c)
  /\ isLoading (on_next i v c) = isLoading c.
Proof.
  intros Hm. unfold on_next, plus_all. rewrite Hm. cbn [foldl].
  destruct (plus (text m) v); [done|]. split; [|done].
  rewrite list_insert_id; [done|]. rewrite Hm. by destruct m.
Qed.

Lemma on_next_absent (i : nat) (v : jsval) (c : ChatComponent) :
  messages c !! i = None -> on_next i v c = c.
Proof. unfold on_next. by intros ->. Qed.

Lemma on_error_messages (i : nat) (e : js_error) (c : ChatComponent) (m : Message) :
  messages c !! i = Some m ->
  messages (on_error i e c)
  = <[i := with_text m (Some (TString (warning_prefix ++ message e)))]> (messages c)
  /\ isLoading (on_error i e c) = isLoading c.
Proof. unfold on_error. by intros ->. Qed.

Lemma perform_next (k : nat) (s : subscription) (v : jsval) (w : world) :
  subscriptions w !! k = Some s -> isStopped s = false ->
  chat (perform k (Call (Next v)) w) = on_next (botIndex s) v (chat w)
  /\ subscriptions (perform k (Call (Next v)) w) = subscriptions w.
Proof. intros Hk Ho. unfold perform, notify. by rewrite Hk, Ho. Qed.

Lemma perform_error (k : nat) (s : subscription) (e : js_error) (w : world) :
  subscriptions w !! k = Some s -> isStopped s = false ->
  chat (perform k (Call (Error e)) w) = on_error (botIndex s) e (chat w).
Proof.
  intros Hk Ho. unfold perform, notify, stop. rewrite Hk, Ho. cbn.
  by rewrite Hk.
Qed.

(** The fragments of an open subscription, one after the other. *)
Lemma perform_fragments (frags : list jsval) (k : nat) (s : subscription)
    (m : Message) (w : world) :
  subscriptions w !! k = Some s -> isStopped s = false ->
  messages (chat w) !! botIndex s = Some m ->
  let w' := perform_all k (calls frags) w in
  subscriptions w' = subscriptions w
  /\ messages (chat w')
     = <[botIndex s := with_text m (plus_all (text m) frags)]> (messages (chat w)).
Proof.
  revert m w. induction frags as [|v frags IH]; intros m w Hk Ho Hm.
  - cbn. split; [done|]. rewrite list_insert_id; [done|]. by destruct m.
  - cbn zeta. change (calls (v :: frags)) with (Call (Next v) :: calls frags).
    rewrite perform_all_cons.
    destruct (perform_next k s v w Hk Ho) as [Hc Hs].
    destruct (on_next_messages (botIndex s) v (chat w) m Hm) as [Hmsg _].
    rewrite <- Hc in Hmsg.
    destruct (IH (with_text m (plus_all (text m) [v]))
                (perform k (Call (Next v)) w)) as [Hs' Hm'].
    + by rewrite Hs.
    + done.
    + rewrite Hmsg. apply list_lookup_insert_eq. by eapply lookup_lt_Some.
    + split; [by rewrite Hs'|]. rewrite Hm', Hmsg.
      by rewrite list_insert_insert_eq.
Qed.

(** An error after any fragments: the text of the turn is the warning
    sign and the message, the other turns are as they were. *)
Lemma error_overwrites (frags : list jsval) (e : js_error) (k : nat)
    (s : subscription) (m : Message) (w : world) :
  subscriptions w !! k = Some s -> isStopped s = false ->
  messages (chat w) !! botIndex s = Some m ->
  messages (chat (perform_all k (calls frags ++ [Call (Error e)]) w))
  = <[botIndex s := with_text m (Some (TString (warning_prefix ++ message e)))]>
      (messages (chat w)).
Proof.
  intros Hk Ho Hm. rewrite perform_all_app.
  destruct (perform_fragments frags k s m w Hk Ho Hm) as [Hs Hmsg].
  set (w1 := perform_all k (calls frags) w) in *.
  change (perform_all k [Call (Error e)] w1) with (perform k (Call (Error e)) w1).
  rewrite (perform_error k s e w1) by (by rewrite ?Hs).
  destruct (on_error_messages (botIndex s) e (chat w1)
              (with_text m (plus_all (text m) frags))) as [-> _].
  - rewrite Hmsg. apply list_lookup_insert_eq. by eapply lookup_lt_Some.
  - rewrite Hmsg. by rewrite list_insert_insert_eq.
Qed.

(** C3, as the code has it.  An error after [N] fragments replaces the
    text of the streaming turn: the text is then the warning sign and
    the message of the error, with nothing of the fragments before it;
    the other turns are as they were. *)
Theorem error_replaces_streamed_text (frags : list jsval) (e : js_error)
    (k : nat) (s : subscription) (m : Message) (w : world) :
  subscriptions w !! k = Some s -> isStopped s = false ->
  messages (chat w) !! botIndex s = Some m ->
  let w' := perform_all k (calls frags ++ [Call (Error e)]) w in
  messages (chat w') !! botIndex s
  = Some {| from := from m;
            text := Some (TString (warning_prefix ++ message e));
            loading := loading m |}
  /\ forall j, j <> botIndex s -> messages (chat w') !! j = messages (chat w) !! j.
Proof.
  intros Hk Ho Hm w'. unfold w'.
  rewrite (error_overwrites frags e k s m w) by done. split.
  - apply list_lookup_insert_eq. by eapply lookup_lt_Some.
  - intros j Hj. by apply list_lookup_insert_ne.
Qed.

(** C10. A fragment delivered to a subscription changes the text of the
    turn the subscription was made for, at [botIndex], and nothing
    else: the log keeps its length, every other turn keeps all its
    fields, and the turn itself keeps [from] and [loading]. *)
Theorem fragment_changes_one_text (k : nat) (s : subscription) (v : jsval)
    (w : world) :
  subscriptions w !! k = Some s ->
  let w' := perform k (Call (Next v)) w in
  length (messages (chat w')) = length (messages (chat w))
  /\ (forall j, j <> botIndex s ->
        messages (chat w') !! j = messages (chat w) !! j)
  /\ from <$> messages (chat w') !! botIndex s
     = from <$> messages (chat w) !! botIndex s
  /\ loading <$> messages (chat w') !! botIndex s
     = loading <$> messages (chat w) !! botIndex s
  /\ isLoading (chat w') = isLoading (chat w)
  /\ subscriptions w' = subscriptions w.
Proof.
  intros Hk w'. destruct (isStopped s) eqn:Ho.
  - assert (Hc : closed k w) by (intros s'; rewrite Hk; by intros [= <-]).
    destruct (perform_closed k (Call (Next v)) w Hc) as (_ & Hchat & Hs & _).
    unfold w'. by rewrite Hchat, Hs.
  - destruct (perform_next k s v w Hk Ho) as [Hchat Hs]. unfold w'.
    rewrite Hchat, Hs.
    destruct (messages (chat w) !! botIndex s) as [m|] eqn:Hm.
    + destruct (on_next_messages _ v _ m Hm) as [-> ->].
      rewrite length_insert. split_and!; try done.
      * intros j Hj. by apply list_lookup_insert_ne.
      * by rewrite list_lookup_insert_eq by (by eapply lookup_lt_Some).
      * by rewrite list_lookup_insert_eq by (by eapply lookup_lt_Some).
    + rewrite on_next_absent by done. by rewrite Hm.
Qed.

End Handlers.

(** ** Errors of the stream *)

Section Errors.
Context `{Engine}.

Lemma notify_same (k : nat) (ev : event) (w w0 : world) :
  chat w = chat w0 -> subscriptions w = subscriptions w0 ->
  chat (notify k ev w) = chat (notify k ev w0)
  /\ subscriptions (notify k ev w) = subscriptions (notify k ev w0).
Proof.
  intros Hc Hs. unfold notify, stop, with_chat. rewrite Hs.
  destruct (subscriptions w0 !! k) as [s|] eqn:Hk; [|done].
  destruct (isStopped s); [done|].
  destruct ev as [v| |e]; cbn; rewrite ?Hs, ?Hk, ?Hc; done.
Qed.

(** The log and the subscriptions see the calls on the observer and
    nothing else of what a decoder does. *)
Lemma perform_all_deliver (k : nat) (acts : list action) (w w0 : world) :
  chat w = chat w0 -> subscriptions w = subscriptions w0 ->
  chat (perform_all k acts w) = chat (deliver k (events acts) w0)
  /\ subscriptions (perform_all k acts w)
     = subscriptions (deliver k (events acts) w0).
Proof.
  revert w w0. induction acts as [|a acts IH]; intros w w0 Hc Hs; [done|].
  rewrite perform_all_cons. destruct a as [r| |ev].
  - by apply IH.
  - by apply IH.
  - change (events (Call ev :: acts)) with (ev :: events acts).
    change (deliver k (ev :: events acts) w0)
      with (deliver k (events acts) (notify k ev w0)).
    destruct (notify_same k ev w w0 Hc Hs). by apply IH.
Qed.

Lemma perform_all_same_events (k : nat) (acts acts' : list action) (w : world) :
  events acts = events acts' ->
  chat (perform_all k acts w) = chat (perform_all k acts' w).
Proof.
  intros E.
  destruct (perform_all_deliver k acts w w eq_refl eq_refl) as [-> _].
  destruct (perform_all_deliver k acts' w w eq_refl eq_refl) as [-> _].
  by rewrite E.
Qed.

Lemma events_fragments_error (frags : list jsval) (e : js_error) :
  events (calls frags ++ [Call (Error e)]) = (Next <$> frags) ++ [Error e].
Proof. by rewrite events_app, events_calls. Qed.

(** A line that leaves the inner loop ends the reading: the read
    that brought the end of the line is the last one, whatever
    follows in the buffer, in later chunks or at the end of the
    body. *)
Lemma leaving_line_is_last (before : list jsstring) (frags out : list jsval)
    (l rest u : jsstring) (ctl : control) (cs1 : list (list Byte.byte))
    (c : list Byte.byte) (cs2 : list (list Byte.byte)) (fin : body_end) :
  Forall (fun l => LF ∉ l) before ->
  process_lines before [] = (frags, Break []) ->
  LF ∉ l -> line_step l = (out, Some ctl) ->
  decoded_text (cs1 ++ [c]) = join_lines before ++ l ++ LF :: rest ->
  decoded_text cs1 ++ u = join_lines before ++ l ->
  let acts :=
    respond (FetchResolved (Some {| chunks := cs1 ++ c :: cs2; ending := fin |})) in
  events acts
  = (Next <$> frags ++ out)
    ++ [match ctl with Throw e => Error e | _ => Complete end]
  /\ reads acts = S (length cs1).
Proof.
  intros Hbefore Hfrags Hl Hstep Hwhole Hpart acts.
  assert (Hd1 : drain (decoded_text cs1 ++ u) = (frags, Break l)).
  { rewrite Hpart, drain_lines by done.
    by rewrite (process_lines_rest before [] l), Hfrags. }
  apply drain_app_break in Hd1 as (out1 & b1 & out2 & Hd1 & Hd2 & ->).
  unfold decoded_text in Hwhole. rewrite join_app, decode_app in Hwhole.
  cbn [mjoin list_join] in Hwhole. rewrite app_nil_r in Hwhole.
  unfold decoded_text in Hd1.
  destruct (TextDecoder.decode TextDecoder.create (mjoin cs1)) as [d1 t1] eqn:Ed1.
  destruct (TextDecoder.decode d1 c) as [d2 t2] eqn:Ed2.
  cbn [snd] in Hwhole, Hd1.
  assert (Hd : drain (t1 ++ t2) = ((out1 ++ out2) ++ out, ctl)).
  { rewrite Hwhole.
    replace (join_lines before ++ l ++ LF :: rest)
      with ((join_lines (before ++ [l]) ++ []) ++ rest)
      by (rewrite join_lines_snoc, app_nil_r, <- !app_assoc; done).
    rewrite drain_app, drain_lines
      by (try apply Forall_app; try apply not_elem_of_nil; by repeat constructor).
    rewrite process_lines_app, Hfrags. cbn [process_lines]. rewrite Hstep.
    destruct ctl; [by apply line_step_leaves in Hstep|done..]. }
  rewrite drain_app, Hd1 in Hd.
  destruct (drain (b1 ++ t2)) as [out' c'] eqn:Ed.
  injection Hd as Hout ->. rewrite <- app_assoc in Hout.
  apply app_inv_head in Hout as ->.
  destruct (read_loop_prefix cs1 TextDecoder.create [] b1 out1)
    as (pre & Hev & Hrd & Hpre); [apply not_elem_of_nil|by rewrite Ed1|].
  unfold acts, respond. cbn [chunks ending]. rewrite Hpre, Ed1.
  cbn [fst read_loop]. rewrite Ed2, Ed.
  destruct ctl as [b| |e]; [by apply line_step_leaves in Hstep|..]; split.
  - rewrite events_app, events_read, events_app, events_calls, Hev.
    rewrite !fmap_app, <- !app_assoc. done.
  - rewrite reads_app, reads_read, reads_app, reads_calls, Hrd. cbn. lia.
  - rewrite events_app, events_read, events_app, events_calls, Hev.
    rewrite !fmap_app, <- !app_assoc. done.
  - rewrite reads_app, reads_read, reads_app, reads_calls, Hrd. cbn. lia.
Qed.

(** C5, as the code has it.  A line that is no JSON text ends the
    stream with one error: the observer gets the fragments of the
    lines before it, in order, then the error, and nothing of the line
    or of what follows it; the read that brought the end of the line
    is the last one, whatever chunks follow it.  The error handler
    then replaces the text of the turn: the fragments that were added
    to it are gone. *)
Theorem malformed_line_ends_stream (before : list jsstring)
    (frags : list jsval) (bad rest : jsstring) (e : js_error)
    (cs : list (list Byte.byte)) (ending : body_end) (p : jsstring)
    (w : world) :
  Forall (fun l => LF ∉ l) before ->
  process_lines before [] = (frags, Break []) ->
  LF ∉ bad -> trim bad <> [] -> JSON_parse (trim bad) = inl e ->
  decoded_text cs = join_lines before ++ bad ++ LF :: rest ->
  trim p <> [] ->
  let net := FetchResolved (Some {| chunks := cs; ending := ending |}) in
  events (respond net) = (Next <$> frags) ++ [Error e]
  /\ messages (chat (converse p net w)) !! S (length (messages (chat w)))
     = Some {| from := bot;
               text := Some (TString (warning_prefix ++ message e));
               loading := None |}
  /\ forall (cs1 : list (list Byte.byte)) (c : list Byte.byte)
        (cs2 : list (list Byte.byte)) (u rest' : jsstring),
       cs = cs1 ++ c :: cs2 ->
       decoded_text (cs1 ++ [c]) = join_lines before ++ bad ++ LF :: rest' ->
       decoded_text cs1 ++ u = join_lines before ++ bad ->
       reads (respond net) = S (length cs1).
Proof.
  intros Hbefore Hfrags Hbad Hline Hparse Htext Hp net.
  assert (Hreads : forall (cs1 : list (list Byte.byte)) (c : list Byte.byte)
            (cs2 : list (list Byte.byte)) (u rest' : jsstring),
            cs = cs1 ++ c :: cs2 ->
            decoded_text (cs1 ++ [c]) = join_lines before ++ bad ++ LF :: rest' ->
            decoded_text cs1 ++ u = join_lines before ++ bad ->
            reads (respond net) = S (length cs1)).
  { intros cs1 c cs2 u rest' Hcs Hwhole Hpart. unfold net. rewrite Hcs.
    assert (Hstep : line_step bad = ([], Some (Throw e))).
    { unfold line_step. destruct (trim bad) as [|c0 line]; [done|].
      by rewrite Hparse. }
    exact (proj2 (leaving_line_is_last before frags [] bad rest' u (Throw e)
                    cs1 c cs2 ending Hbefore Hfrags Hbad Hstep Hwhole Hpart)). }
  assert (Hev : events (respond net) = (Next <$> frags) ++ [Error e]).
  { unfold net. rewrite respond_events. cbn [chunks]. rewrite Htext.
    replace (join_lines before ++ bad ++ LF :: rest)
      with ((join_lines (before ++ [bad]) ++ []) ++ rest)
      by (rewrite join_lines_snoc, app_nil_r, <- !app_assoc; done).
    rewrite drain_app, drain_lines
      by (try apply Forall_app; try apply not_elem_of_nil; by repeat constructor).
    rewrite process_lines_app, Hfrags. cbn [process_lines]. unfold line_step.
    destruct (trim bad) as [|c line]; [done|]. rewrite Hparse.
    by rewrite app_nil_r. }
  split; [done|]. split; [|exact Hreads].
  destruct (sendMessage_pushes p w Hp) as (Hm & Hs).
  unfold converse. destruct (trim p) as [|c text] eqn:E; [done|].
  cbn [truthy_string negb].
  rewrite (perform_all_same_events _ _ (calls frags ++ [Call (Error e)]))
    by (by rewrite events_fragments_error).
  rewrite (error_overwrites frags e _
             {| botIndex := S (length (messages (chat w))); isStopped := false |}
             {| from := bot; text := Some (TString []); loading := None |}).
  - cbn [botIndex]. apply list_lookup_insert_eq. rewrite Hm, length_app. cbn. lia.
  - rewrite Hs. by rewrite lookup_app_r, Nat.sub_diag.
  - done.
  - cbn [botIndex]. rewrite Hm.
    rewrite lookup_app_r by lia.
    by replace (S (length (messages (chat w))) - length (messages (chat w)))%nat
      with 1%nat by lia.
Qed.

End Errors.

Section HandlersSample.
#[local] Existing Instance ReferenceEngine.engine.

Lemma error_replaces_streamed_text_witness :
  let e := {| name := TypeError; message := lit "network error" |} in
  let w' := perform_all 0 (calls [JStr (lit "Hel"); JStr (lit "lo")]
                           ++ [Call (Error e)]) Sample.asked in
  subscriptions Sample.asked !! 0%nat = Some Sample.answer
  /\ isStopped Sample.answer = false
  /\ messages (chat Sample.asked) !! botIndex Sample.answer = Some Sample.bubble
  /\ messages (chat w') !! 1%nat
     = Some {| from := bot;
               text := Some (TString (warning_prefix ++ lit "network error"));
               loading := None |}.
Proof.
  intros e w'.
  assert (H1 : subscriptions Sample.asked !! 0%nat = Some Sample.answer) by reflexivity.
  assert (H2 : isStopped Sample.answer = false) by reflexivity.
  assert (H3 : messages (chat Sample.asked) !! botIndex Sample.answer = Some Sample.bubble)
    by reflexivity.
  split_and!; [exact H1|exact H2|exact H3|].
  exact (proj1 (error_replaces_streamed_text
                  [JStr (lit "Hel"); JStr (lit "lo")] e 0 Sample.answer Sample.bubble Sample.asked
                  H1 H2 H3)).
Defined.

(** C3, as stated, fails: the record [Hel] arrives, then the
    connection drops; the text of the turn is the warning and the
    message, and does not begin with [Hel]. *)
Lemma error_keeps_text_counterexample :
  let w := converse Sample.joke_prompt (FetchResolved (Some Sample.dropped)) initial in
  fragments (respond (FetchResolved (Some Sample.dropped))) = [JStr (lit "Hel")]
  /\ text <$> messages (chat w) !! 1%nat
     = Some (Some (TString (warning_prefix ++ lit "network error")))
  /\ take 3 (warning_prefix ++ lit "network error") <> lit "Hel".
Proof. split_and!; [vm_compute; reflexivity..|vm_compute; congruence]. Qed.

Lemma fragment_changes_one_text_witness :
  let w' := perform 0 (Call (Next (JStr (lit "Why")))) Sample.asked in
  subscriptions Sample.asked !! 0%nat = Some Sample.answer
  /\ length (messages (chat w')) = 2%nat
  /\ messages (chat w') !! 0%nat = messages (chat Sample.asked) !! 0%nat
  /\ text <$> messages (chat w') !! 1%nat = Some (Some (TString (lit "Why"))).
Proof.
  intros w'.
  assert (H1 : subscriptions Sample.asked !! 0%nat = Some Sample.answer) by reflexivity.
  destruct (fragment_changes_one_text 0 Sample.answer (JStr (lit "Why")) Sample.asked H1)
    as (Hlen & Hother & _).
  split_and!; [exact H1|exact Hlen|apply Hother; discriminate|reflexivity].
Defined.

Lemma malformed_line_ends_stream_witness :
  let net := FetchResolved (Some Sample.malformed) in
  Forall (fun l => LF ∉ l) [Sample.hel]
  /\ process_lines [Sample.hel] [] = ([JStr (lit "Hel")], Break [])
  /\ JSON_parse (trim (lit "not json")) = inl ReferenceEngine.syntax_error
  /\ events (respond net)
     = [Next (JStr (lit "Hel")); Error ReferenceEngine.syntax_error]
  /\ messages (chat (converse Sample.joke_prompt net initial)) !! 1%nat
     = Some {| from := bot;
               text := Some (TString (warning_prefix
                                      ++ lit "Unexpected token in JSON"));
               loading := None |}
  /\ length (chunks Sample.malformed) = 3%nat
  /\ reads (respond net) = 2%nat.
Proof.
  intros net.
  assert (H1 : Forall (fun l => LF ∉ l) [Sample.hel])
    by (repeat apply Forall_cons; try apply Forall_nil; by_computation).
  assert (H2 : process_lines [Sample.hel] [] = ([JStr (lit "Hel")], Break []))
    by (vm_compute; reflexivity).
  assert (H3 : LF ∉ lit "not json") by by_computation.
  assert (H4 : trim (lit "not json") <> []) by (vm_compute; congruence).
  assert (H5 : JSON_parse (trim (lit "not json")) = inl ReferenceEngine.syntax_error)
    by (vm_compute; reflexivity).
  assert (H6 : decoded_text (chunks Sample.malformed)
               = join_lines [Sample.hel] ++ lit "not json"
                 ++ LF :: (Sample.yet ++ [LF]))
    by (vm_compute; reflexivity).
  assert (H7 : trim Sample.joke_prompt <> []) by (vm_compute; congruence).
  destruct (malformed_line_ends_stream [Sample.hel] _ (lit "not json")
              (Sample.yet ++ [LF]) ReferenceEngine.syntax_error
              (chunks Sample.malformed) (ending Sample.malformed)
              Sample.joke_prompt initial H1 H2 H3 H4 H5 H6 H7) as (E1 & E2 & E3).
  split_and!; [exact H1|exact H2|exact H5|exact E1|exact E2|reflexivity|].
  apply (E3 [Sample.wire (Sample.hel ++ [LF])]
            (Sample.wire (lit "not json" ++ [LF]))
            [Sample.wire (Sample.yet ++ [LF])] (lit "not json") []).
  - reflexivity.
  - vm_compute; reflexivity.
  - vm_compute; reflexivity.
Defined.

(** C5, as stated, fails where it has the fragments stay in the log:
    [Hel] was added to the turn before the malformed line, and the
    text of the turn after the error does not begin with it. *)
Lemma malformed_line_counterexample :
  let net := FetchResolved (Some Sample.malformed) in
  let w := converse Sample.joke_prompt net initial in
  fragments (respond net) = [JStr (lit "Hel")]
  /\ text <$> messages (chat w) !! 1%nat
     = Some (Some (TString (warning_prefix ++ lit "Unexpected token in JSON")))
  /\ take 3 (warning_prefix ++ lit "Unexpected token in JSON") <> lit "Hel".
Proof. split_and!; [vm_compute; reflexivity..|vm_compute; congruence]. Qed.

End HandlersSample.

(** ** The scenarios of the specification *)

Section Scenarios.
#[local] Existing Instance ReferenceEngine.engine.

(** Three records in three chunks: the turn of the answer holds the
    three fragments in order and its subscription is closed. *)
Example joke_scenario :
  let w := converse Sample.joke_prompt (FetchResolved (Some Sample.joke)) initial in
  messages (chat w)
  = [{| from := user; text := Some (TString (lit "Tell me a joke.")); loading := None |};
     {| from := bot; text := Some (TString (lit "Why did... yet.")); loading := None |}]
  /\ subscriptions w = [{| botIndex := 1; isStopped := true |}]
  /\ reads (respond (FetchResolved (Some Sample.joke))) = 3%nat.
Proof. split_and!; vm_compute; reflexivity. Qed.

(** The same records cut inside a record, with more after the last:
    the same events, by evaluation and by [chunking_irrelevant]. *)
Example joke_recut_scenario :
  events (respond (FetchResolved (Some Sample.joke_recut)))
  = events (respond (FetchResolved (Some Sample.joke))).
Proof. vm_compute. reflexivity. Qed.

(** A character of two bytes, cut between the bytes: the decoder keeps
    the first byte for the next chunk. *)
Example split_character_scenario :
  let line := Sample.quoted "{'response':'caf" in
  let tail := Sample.quoted "','done':true}" ++ [LF] in
  fragments (respond (FetchResolved (Some
    {| chunks := [Sample.wire line ++ [Byte.xc3];
                  Byte.xa9 :: Sample.wire tail];
       ending := EndOfStream |})))
  = [JStr (lit "caf" ++ [233%N])].
Proof. vm_compute. reflexivity. Qed.

(** A body with no record whose [done] is [true] completes at the end
    of the body; a rejected [fetch] and a missing body are errors. *)
Example implicit_completion_scenario :
  events (respond (FetchResolved (Some
    {| chunks := [Sample.wire (Sample.why ++ [LF])]; ending := EndOfStream |})))
  = [Next (JStr (lit "Why")); Complete]
  /\ events (respond (FetchResolved None))
     = [Error (ReferenceEngine.null_error (lit "getReader"))]
  /\ reads (respond (FetchResolved None)) = 0%nat.
Proof. split_and!; vm_compute; reflexivity. Qed.

(** Blank lines and carriage returns around a record are skipped. *)
Example blank_lines_scenario :
  fragments (respond (FetchResolved (Some
    {| chunks := [Sample.wire ([LF; 13%N; LF; 32%N] ++ Sample.why ++ [13%N; LF]
                                ++ [LF] ++ Sample.yet ++ [LF])];
       ending := EndOfStream |})))
  = [JStr (lit "Why"); JStr (lit " yet.")].
Proof. vm_compute. reflexivity. Qed.

(** Two prompts sent one after the other, and fragments of the two
    answers arriving in turn: each fragment goes to the turn of its own
    subscription. *)
Example interleaved_scenario :
  let w := sendMessage (lit "second") (sendMessage (lit "first") initial) in
  let w' :=
    perform 0 (Call (Next (JStr (lit "c"))))
      (perform 1 (Call (Next (JStr (lit "b"))))
         (perform 0 (Call (Next (JStr (lit "a")))) w)) in
  text <$> messages (chat w')
  = [Some (TString (lit "first")); Some (TString (lit "ac"));
     Some (TString (lit "second")); Some (TString (lit "b"))].
Proof. vm_compute. reflexivity. Qed.

(** A fragment that is no string is added as JavaScript adds it. *)
Example untyped_fragment_scenario :
  let w := converse Sample.joke_prompt (FetchResolved (Some
    {| chunks := [Sample.wire (Sample.quoted "{'response':[1,null,'x'],'done':false}"
                               ++ [LF] ++ Sample.quoted "{'done':true}" ++ [LF])];
       ending := EndOfStream |})) initial in
  text <$> messages (chat w) !! 1%nat
  = Some (Some (TString (lit "1,,xundefined"))).
Proof. vm_compute. reflexivity. Qed.

End Scenarios.

(** * More of [streamGenerate] *)

Import Runs.

Section Trace.
Context `{Engine}.

Lemma read_loop_trace (cs : list (list Byte.byte)) (fin : body_end)
    (d : TextDecoder.t) (buffer : jsstring) :
  exists t, terminal t
    /\ events (read_loop d buffer cs fin)
       = (Next <$> fragments (read_loop d buffer cs fin)) ++ [t].
Proof.
  revert d buffer. induction cs as [|value cs IH]; intros d buffer.
  - destruct fin as [|e]; [by exists Complete|by exists (Error e)].
  - cbn [read_loop]. destruct (TextDecoder.decode d value) as [d1 t1].
    destruct (drain (buffer ++ t1)) as [out [b| |e]].
    + destruct (IH d1 b) as (t & Ht & E). exists t. split; [done|].
      change (fragments (Read :: ?a)) with (fragments a).
      rewrite events_read, events_app, fragments_app, E.
      by rewrite events_calls, fragments_calls, fmap_app, app_assoc.
    + exists Complete. split; [done|].
      change (fragments (Read :: ?a)) with (fragments a).
      rewrite events_read, events_app, fragments_app.
      rewrite events_calls, fragments_calls. cbn. by rewrite app_nil_r.
    + exists (Error e). split; [done|].
      change (fragments (Read :: ?a)) with (fragments a).
      rewrite events_read, events_app, fragments_app.
      rewrite events_calls, fragments_calls. cbn. by rewrite app_nil_r.
Qed.

(** X1. Whatever the network answers, a rejected [fetch], a missing
    body or any body cut in any way, the observer gets fragments and
    then exactly one [complete] or [error], which is the last call. *)
Theorem stream_ends_once (net : fetch_result) :
  exists t, terminal t
    /\ events (respond net) = (Next <$> fragments (respond net)) ++ [t].
Proof.
  destruct net as [e|[b|]].
  - by exists (Error e).
  - apply read_loop_trace.
  - by eexists (Error _).
Qed.

Lemma read_loop_reads (cs : list (list Byte.byte)) (fin : body_end)
    (d : TextDecoder.t) (buffer : jsstring) :
  fetches (read_loop d buffer cs fin) = []
  /\ (1 <= reads (read_loop d buffer cs fin) <= S (length cs))%nat.
Proof.
  revert d buffer. induction cs as [|value cs IH]; intros d buffer.
  - destruct fin; cbn; split; (done || lia).
  - cbn [read_loop]. destruct (TextDecoder.decode d value) as [d1 t1].
    assert (Hc : forall out, fetches (calls out) = [])
      by (induction out; [done|by cbn]).
    destruct (drain (buffer ++ t1)) as [out [b| |e]].
    + destruct (IH d1 b) as (Hf & Hr). split.
      * change (fetches (Read :: ?a)) with (fetches a).
        unfold fetches in *. by rewrite omap_app, Hf, Hc.
      * rewrite reads_read, reads_app, reads_calls. cbn [length]. lia.
    + split.
      * change (fetches (Read :: ?a)) with (fetches a).
        unfold fetches in *. by rewrite omap_app, Hc.
      * rewrite reads_read, reads_app, reads_calls. cbn. lia.
    + split.
      * change (fetches (Read :: ?a)) with (fetches a).
        unfold fetches in *. by rewrite omap_app, Hc.
      * rewrite reads_read, reads_app, reads_calls. cbn. lia.
Qed.

(** X2. A subscription sends one request and never another: no retry
    after an error, no second request for a long body.  It reads the
    body at most once per chunk and once for its end, and not at all
    when [fetch] was rejected. *)
Theorem one_request_bounded_reads (p : jsstring) (m : option jsstring)
    (net : fetch_result) :
  fetches (streamGenerate p m net) = [generate_request p m]
  /\ (reads (streamGenerate p m net)
      <= match net with
         | FetchResolved (Some b) => S (length (chunks b))
         | _ => 0
         end)%nat.
Proof.
  unfold streamGenerate.
  change (fetches (Fetch ?r :: ?a)) with (r :: fetches a).
  change (reads (Fetch ?r :: ?a)) with (reads a).
  destruct net as [e|[b|]]; [done| |done]. cbn [respond].
  destruct (read_loop_reads (chunks b) (ending b) TextDecoder.create [])
    as [-> ?]. split; [done|lia].
Qed.

Lemma decoded_text_app (cs1 cs2 : list (list Byte.byte)) :
  decoded_text (cs1 ++ cs2)
  = decoded_text cs1
    ++ (TextDecoder.decode
          (TextDecoder.decode TextDecoder.create (mjoin cs1)).1 (mjoin cs2)).2.
Proof.
  unfold decoded_text. rewrite join_app, decode_app.
  destruct (TextDecoder.decode TextDecoder.create (mjoin cs1)) as [d1 t1].
  cbn [fst snd]. by destruct (TextDecoder.decode d1 (mjoin cs2)).
Qed.

(** X3. What was handed to the observer is never taken back: the
    fragments of the chunks received so far are the first fragments of
    any longer body that begins with these chunks, however the two
    bodies end. *)
Theorem fragments_grow (cs1 cs2 : list (list Byte.byte)) (fin fin' : body_end) :
  fragments (respond (FetchResolved (Some {| chunks := cs1; ending := fin |})))
  `prefix_of`
  fragments (respond (FetchResolved (Some {| chunks := cs1 ++ cs2; ending := fin' |}))).
Proof.
  rewrite !respond_fragments. cbn [chunks].
  rewrite decoded_text_app, drain_app.
  destruct (drain (decoded_text cs1)) as [out [b| |e]]; [|done..].
  destruct (drain _) as [out' c]. by exists out'.
Qed.

End Trace.

Section Lines.
Context `{Engine}.

Lemma process_lines_filter (lines : list jsstring) (rest : jsstring) :
  process_lines (filter (fun l => trim l <> []) lines) rest
  = process_lines lines rest.
Proof.
  induction lines as [|l lines IH]; [done|].
  rewrite filter_cons. case_decide as Hl.
  - cbn [process_lines]. by rewrite IH.
  - cbn [process_lines]. unfold line_step.
    destruct (trim l); [|done]. rewrite IH.
    by destruct (process_lines lines rest).
Qed.

(** X4. Lines that are empty or hold only white space carry nothing:
    a body with such lines among its lines and the body without them
    give the observer the same calls. *)
Theorem blank_lines_are_skipped (lines : list jsstring)
    (cs cs' : list (list Byte.byte)) (fin : body_end) :
  Forall (fun l => LF ∉ l) lines ->
  decoded_text cs = join_lines lines ->
  decoded_text cs' = join_lines (filter (fun l => trim l <> []) lines) ->
  events (respond (FetchResolved (Some {| chunks := cs; ending := fin |})))
  = events (respond (FetchResolved (Some {| chunks := cs'; ending := fin |}))).
Proof.
  intros Hlines Hcs Hcs'. rewrite !respond_events. cbn [chunks ending].
  rewrite Hcs, Hcs'.
  pose proof (drain_lines lines [] Hlines (not_elem_of_nil LF)) as E1.
  assert (Hkept : Forall (fun l => LF ∉ l)
                    (filter (fun l => trim l <> []) lines)).
  { rewrite Forall_forall in Hlines. apply Forall_forall.
    intros l Hin. apply list_elem_of_In, list_elem_of_filter in Hin as [_ Hl].
    by apply Hlines, list_elem_of_In. }
  pose proof (drain_lines _ [] Hkept (not_elem_of_nil LF)) as E2.
  rewrite app_nil_r in E1, E2. by rewrite E1, E2, process_lines_filter.
Qed.

(** X5. A body that ends before any line has ended the stream: the
    observer gets the fragments of the lines a line feed ended and then
    [complete], or the error of the read when the connection dropped.
    What follows the last line feed is dropped without a call, and
    every chunk was read. *)
Theorem body_end_ends_stream (lines : list jsstring) (rest : jsstring)
    (frags : list jsval) (cs : list (list Byte.byte)) (fin : body_end) :
  Forall (fun l => LF ∉ l) lines -> LF ∉ rest ->
  process_lines lines [] = (frags, Break []) ->
  decoded_text cs = join_lines lines ++ rest ->
  let acts := respond (FetchResolved (Some {| chunks := cs; ending := fin |})) in
  events acts = (Next <$> frags) ++ [end_event fin]
  /\ reads acts = S (length cs).
Proof.
  intros Hlines Hrest Hfrags Htext acts.
  assert (Hd : drain (decoded_text cs) = (frags, Break rest)).
  { rewrite Htext, drain_lines by done.
    by rewrite (process_lines_rest lines [] rest), Hfrags. }
  split.
  - unfold acts. rewrite respond_events. cbn [chunks ending]. by rewrite Hd.
  - destruct (read_loop_prefix cs TextDecoder.create [] rest frags)
      as (pre & _ & Hrd & Hpre); [apply not_elem_of_nil|done|].
    unfold acts, respond. cbn [chunks ending].
    rewrite <- (app_nil_r cs) at 1. rewrite Hpre, reads_app, Hrd.
    destruct fin; cbn; lia.
Qed.

(** X6. The JSON text [null] on a line is an error of its own kind:
    reading [response] from it throws, so the observer gets the
    fragments of the lines before, then the [TypeError], and no
    fragment for the line or for what follows; the read that brought
    the end of the line is the last one, whatever follows in the
    buffer, in later chunks or at the end of the body. *)
Theorem null_line_is_an_error (before : list jsstring) (frags : list jsval)
    (l rest u : jsstring) (cs1 : list (list Byte.byte)) (c : list Byte.byte)
    (cs2 : list (list Byte.byte)) (fin : body_end) :
  Forall (fun l => LF ∉ l) before ->
  process_lines before [] = (frags, Break []) ->
  LF ∉ l -> trim l <> [] -> JSON_parse (trim l) = inr JNull ->
  decoded_text (cs1 ++ [c]) = join_lines before ++ l ++ LF :: rest ->
  decoded_text cs1 ++ u = join_lines before ++ l ->
  let acts :=
    respond (FetchResolved (Some {| chunks := cs1 ++ c :: cs2; ending := fin |})) in
  events acts
  = (Next <$> frags) ++ [Error (null_property_error (lit "response"))]
  /\ reads acts = S (length cs1).
Proof.
  intros Hbefore Hfrags Hl Hline Hparse Hwhole Hpart acts.
  assert (Hstep : line_step l
                  = ([], Some (Throw (null_property_error (lit "response"))))).
  { unfold line_step. destruct (trim l) as [|c0 line]; [done|].
    by rewrite Hparse. }
  destruct (leaving_line_is_last before frags [] l rest u _ cs1 c cs2 fin
              Hbefore Hfrags Hl Hstep Hwhole Hpart) as [Hev Hrd].
  split; [|exact Hrd]. fold acts in Hev. by rewrite Hev, app_nil_r.
Qed.

End Lines.

(** * More of [sendMessage]: what every run keeps *)

Section Runs.
Context `{Engine}.

Lemma plus_all_string (s : jsstring) (frags : list jsval) :
  plus_all (Some (TString s)) frags
  = Some (TString (s ++ mjoin (omap to_string frags))).
Proof.
  revert s. induction frags as [|v frags IH]; intros s.
  - cbn. by rewrite app_nil_r.
  - unfold plus_all in *. cbn [foldl omap list_omap]. unfold plus.
    destruct (to_string v) as [added|]; [|apply IH].
    rewrite IH. cbn [mjoin list_join]. by rewrite app_assoc.
Qed.

Lemma kept_initial : kept initial.
Proof. by split. Qed.

Lemma stop_subscriptions (k : nat) (w : world) :
  chat (stop k w) = chat w /\ performed (stop k w) = performed w
  /\ length (subscriptions (stop k w)) = length (subscriptions w)
  /\ forall j s, subscriptions (stop k w) !! j = Some s ->
       exists s0, subscriptions w !! j = Some s0 /\ botIndex s = botIndex s0.
Proof.
  unfold stop. destruct (subscriptions w !! k) as [s0|] eqn:Hk; cbn.
  - split_and!; [done|done|by rewrite length_insert|]. intros j s.
    destruct (decide (j = k)) as [->|Hj].
    + rewrite list_lookup_insert_eq by (by eapply lookup_lt_Some).
      intros [= <-]. by exists s0.
    + rewrite list_lookup_insert_ne by done. intros Hs. by exists s.
  - split_and!; try done. intros j s Hs. by exists s.
Qed.

(** A change of the chat that keeps the shape of the log: the turn at
    an odd index gets a text that is a string. *)
Lemma kept_set_text (w w' : world) (i : nat) (m : Message) (t : jsstring) :
  kept w -> Nat.even i = false -> messages (chat w) !! i = Some m ->
  messages (chat w') = <[i := with_text m (Some (TString t))]> (messages (chat w)) ->
  isLoading (chat w') = isLoading (chat w) ->
  subscriptions w' = subscriptions w -> sent w' = sent w ->
  kept w'.
Proof.
  intros [K1 K2 K3 K4 K5 K6] Hi Hm Hmsg Hl Hs Hsent.
  split; rewrite ?Hmsg, ?Hs, ?Hl, ?Hsent, ?length_insert; try done.
  - intros j m'. destruct (decide (j = i)) as [->|Hj].
    + rewrite list_lookup_insert_eq by (by eapply lookup_lt_Some).
      intros [= <-]. destruct (K3 i m Hm) as (Hf & _ & Hld).
      split_and!; [done|by exists t|done].
    + rewrite list_lookup_insert_ne by done. apply K3.
  - intros k kr Hkr. destruct (K6 k kr Hkr) as (E1 & E2 & E3 & m' & Hm' & Hu).
    split_and!; try done. exists m'. split; [|done].
    rewrite list_lookup_insert_ne; [done|]. intros ->.
    by rewrite Nat.even_mul in Hi.
Qed.

Lemma kept_same_chat (w w' : world) :
  kept w -> chat w' = chat w ->
  length (subscriptions w') = length (subscriptions w) ->
  (forall j s, subscriptions w' !! j = Some s ->
     exists s0, subscriptions w !! j = Some s0 /\ botIndex s = botIndex s0) ->
  sent w' = sent w -> kept w'.
Proof.
  intros [K1 K2 K3 K4 K5 K6] Hc Hlen Hsub Hsent.
  split; rewrite ?Hc, ?Hlen, ?Hsent; try done.
  intros k s Hs. destruct (Hsub k s Hs) as (s0 & Hs0 & ->). by apply K2.
Qed.

Lemma sent_perform (k : nat) (a : action) (w w' : world) :
  performed w' = performed w ++ [(k, a)] ->
  (forall r, a <> Fetch r) -> sent w' = sent w.
Proof.
  intros Hp Ha. unfold sent. rewrite Hp, omap_app. cbn.
  destruct a; [by destruct (Ha r)|..]; by rewrite app_nil_r.
Qed.

Lemma kept_step (w w' : world) : step w w' -> kept w -> kept w'.
Proof.
  intros Hstep K. destruct Hstep as [p w|k w|k ev w|k w].
  - (* a prompt *)
    destruct (decide (trim p = [])) as [Hp|Hp].
    { unfold sendMessage. by rewrite Hp. }
    destruct (sendMessage_pushes p w Hp) as [Hm Hs].
    assert (Hperf : performed (sendMessage p w)
                    = performed w
                      ++ [(length (subscriptions w),
                           Fetch (generate_request (trim p) None))]).
    { unfold sendMessage. destruct (trim p); [done|]. done. }
    assert (Hload : isLoading (chat (sendMessage p w)) = isLoading (chat w)).
    { unfold sendMessage. by destruct (trim p). }
    assert (Hsent : sent (sendMessage p w)
                    = sent w ++ [(length (subscriptions w),
                                  generate_request (trim p) None)]).
    { unfold sent. by rewrite Hperf, omap_app. }
    destruct K as [K1 K2 K3 K4 K5 K6].
    split; rewrite ?Hm, ?Hs, ?Hload, ?Hsent, ?length_app; cbn [length]; try lia.
    + intros k s Hk. apply lookup_app_Some in Hk as [Hk|[Hge Hk]].
      * by apply K2.
      * apply list_lookup_singleton_Some in Hk as [Hk <-]. cbn. lia.
    + intros i m Hi. apply lookup_app_Some in Hi as [Hi|[Hge Hi]].
      * by apply K3.
      * assert (He : Nat.even (length (messages (chat w))) = true)
          by (rewrite K1, Nat.even_mul; done).
        destruct (i - length (messages (chat w)))%nat as [|[|j]] eqn:Ei;
          [| |done].
        -- replace i with (length (messages (chat w))) by lia.
           cbn in Hi. injection Hi as <-. rewrite He.
           split_and!; [done|eexists; reflexivity|done].
        -- replace i with (S (length (messages (chat w)))) by lia.
           cbn in Hi. injection Hi as <-. rewrite Nat.even_succ.
           rewrite <- Nat.negb_even, He.
           split_and!; [done|eexists; reflexivity|done].
    + done.
    + intros k kr Hk. apply lookup_app_Some in Hk as [Hk|[Hge Hk]].
      * destruct (K6 k kr Hk) as (E1 & E2 & E3 & m & Hmk & Hu).
        split_and!; try done. exists m. split; [|done].
        by apply lookup_app_l_Some.
      * apply list_lookup_singleton_Some in Hk as [Hk <-].
        cbn [fst snd]. split_and!; [lia|reflexivity|exact Hp|].
        exists {| from := user; text := Some (TString (trim p));
                  loading := None |}.
        split; [|done].
        replace (2 * k)%nat with (length (messages (chat w)) + 0)%nat by lia.
        by rewrite lookup_app_r, Nat.add_sub' by lia.
  - (* a read *)
    apply (kept_same_chat w); try done. by eauto.
    by apply (sent_perform k Read).
  - (* a call on the observer *)
    unfold perform, notify.
    destruct (subscriptions w !! k) as [s|] eqn:Hk;
      [|apply (kept_same_chat w); try done; [by eauto|by eapply sent_perform]].
    destruct (isStopped s);
      [apply (kept_same_chat w); try done; [by eauto|by eapply sent_perform]|].
    pose proof (kept_botIndex w K k s Hk) as Hb.
    assert (Hin : is_Some (messages (chat w) !! botIndex s)).
    { apply lookup_lt_is_Some. rewrite (kept_length w K).
      apply lookup_lt_Some in Hk. lia. }
    destruct Hin as [m Hm].
    destruct (kept_turns w K _ m Hm) as (_ & [t Ht] & _).
    assert (Hodd : Nat.even (botIndex s) = false).
    { rewrite Hb, Nat.add_1_r, Nat.even_succ, <- Nat.negb_even.
      by rewrite Nat.even_mul. }
    destruct ev as [v| |e].
    + destruct (on_next_messages _ v _ m Hm) as [Hmsg Hl].
      rewrite Ht, plus_all_string in Hmsg.
      eapply (kept_set_text w _ (botIndex s) m); try done.
      by apply (sent_perform k (Call (Next v))).
    + destruct (stop_subscriptions k w) as (Hc & Hp & Hlen & Hsub).
      apply (kept_same_chat w); try done. cbn. unfold sent. cbn.
      rewrite Hp, omap_app. cbn. by rewrite app_nil_r.
    + destruct (on_error_messages _ e _ m Hm) as [Hmsg Hl].
      set (w1 := with_chat (on_error (botIndex s) e (chat w)) w).
      assert (K1 : kept w1) by (by eapply (kept_set_text w w1 (botIndex s) m)).
      destruct (stop_subscriptions k w1) as (Hc & Hp & Hlen & Hsub).
      apply (kept_same_chat w1); try done. unfold sent. cbn.
      rewrite Hp, omap_app. cbn. by rewrite app_nil_r.
  - (* a cancellation *)
    destruct (stop_subscriptions k w) as (Hc & Hp & Hlen & Hsub).
    apply (kept_same_chat w); try done. unfold sent, unsubscribe. by rewrite Hp.
Qed.

Lemma reachable_kept (w : world) : reachable w -> kept w.
Proof.
  induction 1 as [|w w' _ K Hs]; [apply kept_initial|by apply (kept_step w)].
Qed.

End Runs.

Section RunsKept.
Context `{Engine}.

(** X7. In every run the log is pairs of a user turn and a bot turn,
    in this order; the text of every turn is a string (never absent,
    never NaN), no turn has [loading], and [isLoading] stays
    [false]: the streaming [sendMessage] never shows the spinner. *)
Theorem log_alternates (w : world) :
  reachable w ->
  isLoading (chat w) = false
  /\ length (messages (chat w)) = (2 * length (subscriptions w))%nat
  /\ forall i m,
       messages (chat w) !! i = Some m ->
       from m = (if Nat.even i then user else bot)
       /\ (exists t, text m = Some (TString t)) /\ loading m = None.
Proof.
  intros [K1 K2 K3 K4 K5 K6]%reachable_kept. by split_and!.
Qed.

(** X8. In every run each subscription has a bot turn of its own:
    [botIndex] is inside the log, so the handlers never fail on a
    missing turn, and no two subscriptions write to the same turn, so
    answers that stream at the same time are never mixed. *)
Theorem subscriptions_own_their_turns (w : world) :
  reachable w ->
  (forall k s, subscriptions w !! k = Some s ->
     exists m, messages (chat w) !! botIndex s = Some m /\ from m = bot)
  /\ (forall k k' s s',
        subscriptions w !! k = Some s -> subscriptions w !! k' = Some s' ->
        botIndex s = botIndex s' -> k = k').
Proof.
  intros [K1 K2 K3 K4 K5 K6]%reachable_kept. split.
  - intros k s Hk.
    assert (Hin : is_Some (messages (chat w) !! botIndex s)).
    { apply lookup_lt_is_Some. rewrite K1, (K2 k s Hk).
      apply lookup_lt_Some in Hk. lia. }
    destruct Hin as [m Hm]. exists m. split; [done|].
    destruct (K3 _ m Hm) as [-> _].
    by rewrite (K2 k s Hk), Nat.add_1_r, Nat.even_succ, <- Nat.negb_even,
      Nat.even_mul.
  - intros k k' s s' Hk Hk'. rewrite (K2 k s Hk), (K2 k' s' Hk'). lia.
Qed.

(** X9. In every run the requests sent and the user turns match one
    to one: the [k]-th request belongs to the [k]-th subscription,
    asks the default model for a stream, and its prompt is the text of
    the [k]-th user turn, which is never empty. *)
Theorem requests_match_user_turns (w : world) :
  reachable w ->
  length (sent w) = length (subscriptions w)
  /\ forall k kr,
       sent w !! k = Some kr ->
       kr.1 = k
       /\ kr.2 = generate_request (prompt kr.2) None
       /\ prompt kr.2 <> []
       /\ exists m, messages (chat w) !! (2 * k)%nat = Some m
                    /\ from m = user /\ text m = Some (TString (prompt kr.2)).
Proof.
  intros [K1 K2 K3 K4 K5 K6]%reachable_kept. by split.
Qed.

(** What a step does to the log: nothing, two turns more at the end,
    or a new string as the text of one bot turn. *)
Lemma step_messages (w w' : world) :
  step w w' -> kept w ->
  messages (chat w') = messages (chat w)
  \/ (exists u b, messages (chat w') = messages (chat w) ++ [u; b])
  \/ (exists i m t, Nat.even i = false /\ messages (chat w) !! i = Some m
        /\ messages (chat w')
           = <[i := with_text m (Some (TString t))]> (messages (chat w))).
Proof.
  intros Hstep K. destruct Hstep as [p w|k w|k ev w|k w].
  - destruct (decide (trim p = [])) as [Hp|Hp].
    + left. unfold sendMessage. by rewrite Hp.
    + right. left. destruct (sendMessage_pushes p w Hp) as [-> _]. by eauto.
  - by left.
  - unfold perform, notify.
    destruct (subscriptions w !! k) as [s|] eqn:Hk; [|by left].
    destruct (isStopped s); [by left|].
    pose proof (kept_botIndex w K k s Hk) as Hb.
    assert (Hin : is_Some (messages (chat w) !! botIndex s)).
    { apply lookup_lt_is_Some. rewrite (kept_length w K).
      apply lookup_lt_Some in Hk. lia. }
    destruct Hin as [m Hm].
    destruct (kept_turns w K _ m Hm) as (_ & [t Ht] & _).
    assert (Hodd : Nat.even (botIndex s) = false).
    { rewrite Hb, Nat.add_1_r, Nat.even_succ, <- Nat.negb_even.
      by rewrite Nat.even_mul. }
    destruct ev as [v| |e].
    + right. right. destruct (on_next_messages _ v _ m Hm) as [Hmsg _].
      rewrite Ht, plus_all_string in Hmsg. cbn. by eauto 7.
    + left. cbn. by destruct (stop_subscriptions k w) as (-> & _).
    + right. right. destruct (on_error_messages _ e _ m Hm) as [Hmsg _].
      cbn. destruct (stop_subscriptions k
                       (with_chat (on_error (botIndex s) e (chat w)) w))
        as (-> & _). cbn. by eauto 7.
  - left. unfold unsubscribe. by destruct (stop_subscriptions k w) as (-> & _).
Qed.

(** X10. No step of a run removes a turn, moves one or changes who it
    is from, and no step changes a user turn: the log only grows at
    its end, and only the texts of bot turns are rewritten. *)
Theorem log_only_grows (w w' : world) :
  reachable w -> step w w' ->
  (length (messages (chat w)) <= length (messages (chat w')))%nat
  /\ (forall i m, messages (chat w) !! i = Some m ->
        exists m', messages (chat w') !! i = Some m' /\ from m' = from m
                   /\ (from m = user -> m' = m)).
Proof.
  intros K%reachable_kept Hstep.
  destruct (step_messages w w' Hstep K)
    as [->|[(u & b & ->)|(j & mj & t & Hj & Hmj & ->)]].
  - split; [done|]. intros i m Hm. by exists m.
  - split; [rewrite length_app; lia|]. intros i m Hm. exists m.
    split; [by apply lookup_app_l_Some|done].
  - split; [by rewrite length_insert|]. intros i m Hm.
    destruct (decide (i = j)) as [->|Hi].
    + rewrite list_lookup_insert_eq by (by eapply lookup_lt_Some).
      eexists. split; [done|]. rewrite Hmj in Hm. injection Hm as <-.
      split; [done|]. intros Hu.
      destruct (kept_turns w K j mj Hmj) as [Hf _]. rewrite Hj in Hf.
      congruence.
    + rewrite list_lookup_insert_ne by done. by exists m.
Qed.

End RunsKept.

(** * More of the strings: [trim] *)

Lemma trimStart_blank (s : jsstring) :
  trimStart s = [] <-> Forall (fun c => is_white_space c = true) s.
Proof.
  induction s as [|c s IH]; [done|]. cbn [trimStart].
  destruct (is_white_space c) eqn:E.
  - rewrite IH. split; [by constructor|]. by intros ?%Forall_inv_tail.
  - split; [done|]. intros Hc%Forall_inv. congruence.
Qed.

Lemma trimStart_head (s : jsstring) (c : code_unit) (r : jsstring) :
  trimStart s = c :: r -> is_white_space c = false.
Proof.
  induction s as [|x s IH]; [done|]. cbn [trimStart].
  destruct (is_white_space x) eqn:E; [done|]. by intros [= <- _].
Qed.

Lemma trimStart_fixed (c : code_unit) (r : jsstring) :
  is_white_space c = false -> trimStart (c :: r) = c :: r.
Proof. intros E. cbn. by rewrite E. Qed.

Lemma trimStart_idempotent (s : jsstring) : trimStart (trimStart s) = trimStart s.
Proof.
  destruct (trimStart s) as [|c r] eqn:E; [done|].
  by apply trimStart_fixed, (trimStart_head s c r).
Qed.

Lemma trimStart_snoc (s : jsstring) (c : code_unit) :
  is_white_space c = false -> exists s', trimStart (s ++ [c]) = s' ++ [c].
Proof.
  intros Hc. induction s as [|x s [s' IH]].
  - exists []. cbn. by rewrite Hc.
  - cbn [app trimStart]. destruct (is_white_space x).
    + by exists s'.
    + by exists (x :: s).
Qed.

Lemma trimEnd_blank (s : jsstring) :
  trimEnd s = [] <-> Forall (fun c => is_white_space c = true) s.
Proof.
  unfold trimEnd. rewrite <- (reverse_involutive s) at 2.
  rewrite Forall_reverse, <- trimStart_blank. split.
  - intros E. apply (f_equal reverse) in E. by rewrite reverse_involutive in E.
  - by intros ->.
Qed.

Lemma trimEnd_head (c : code_unit) (r : jsstring) :
  is_white_space c = false -> exists r', trimEnd (c :: r) = c :: r'.
Proof.
  intros Hc. unfold trimEnd. rewrite reverse_cons.
  destruct (trimStart_snoc (reverse r) c Hc) as [s' ->].
  exists (reverse s'). by rewrite reverse_app.
Qed.

Lemma trimEnd_idempotent (s : jsstring) : trimEnd (trimEnd s) = trimEnd s.
Proof.
  unfold trimEnd. by rewrite reverse_involutive, trimStart_idempotent.
Qed.

(** [trim] gives the empty string for white space and for nothing
    else. *)
Lemma trim_blank (s : jsstring) :
  trim s = [] <-> Forall (fun c => is_white_space c = true) s.
Proof.
  unfold trim. rewrite trimEnd_blank, <- (trimStart_blank s). split.
  - intros Hall. destruct (trimStart s) as [|c r] eqn:E; [done|].
    apply Forall_inv in Hall. apply trimStart_head in E. congruence.
  - by intros ->.
Qed.

Lemma trim_idempotent (s : jsstring) : trim (trim s) = trim s.
Proof.
  unfold trim. destruct (trimStart s) as [|c r] eqn:E; [done|].
  apply trimStart_head in E. destruct (trimEnd_head c r E) as [r' Er].
  rewrite Er, (trimStart_fixed c r' E), <- Er. apply trimEnd_idempotent.
Qed.

(** * More of [sendMessage]: a whole exchange *)

Section Exchange.
Context `{Engine}.

Lemma perform_all_same_subscriptions (k : nat) (acts acts' : list action)
    (w : world) :
  events acts = events acts' ->
  subscriptions (perform_all k acts w) = subscriptions (perform_all k acts' w).
Proof.
  intros E.
  destruct (perform_all_deliver k acts w w eq_refl eq_refl) as [_ ->].
  destruct (perform_all_deliver k acts' w w eq_refl eq_refl) as [_ ->].
  by rewrite E.
Qed.

Lemma perform_terminal (k : nat) (s : subscription) (t : event) (w : world) :
  subscriptions w !! k = Some s -> isStopped s = false -> terminal t ->
  subscriptions (perform k (Call t) w)
  = <[k := {| botIndex := botIndex s; isStopped := true |}]> (subscriptions w)
  /\ chat (perform k (Call t) w)
     = match t with
       | Error e => on_error (botIndex s) e (chat w)
       | _ => chat w
       end.
Proof.
  intros Hk Ho Ht. unfold perform, notify. rewrite Hk, Ho.
  destruct t as [v| |e]; [done|..]; unfold stop; cbn; by rewrite Hk.
Qed.

Lemma converse_result (p : jsstring) (net : fetch_result) (w : world)
    (frags : list jsval) (t : event) :
  trim p <> [] -> terminal t ->
  events (respond net) = (Next <$> frags) ++ [t] ->
  messages (chat (converse p net w))
  = messages (chat w)
    ++ [{| from := user; text := Some (TString (trim p)); loading := None |};
        {| from := bot; text := Some (TString (answer_text frags t));
           loading := None |}]
  /\ subscriptions (converse p net w)
     = subscriptions w
       ++ [{| botIndex := S (length (messages (chat w))); isStopped := true |}].
Proof.
  intros Hp Ht Hev.
  destruct (sendMessage_pushes p w Hp) as (Hm & Hs).
  unfold converse. destruct (trim p) as [|c txt] eqn:E; [done|].
  cbn [truthy_string negb]. rewrite <- E in *.
  set (w1 := sendMessage p w) in *. set (k := length (subscriptions w)).
  set (i := S (length (messages (chat w)))) in *.
  set (s := {| botIndex := i; isStopped := false |}) in *.
  set (b := {| from := bot; text := Some (TString []); loading := None |}) in *.
  assert (Hk : subscriptions w1 !! k = Some s)
    by (rewrite Hs; unfold k; by rewrite lookup_app_r, Nat.sub_diag).
  assert (Hi : messages (chat w1) !! botIndex s = Some b).
  { rewrite Hm. cbn [botIndex s]. unfold i. rewrite lookup_app_r by lia.
    by replace (S (length (messages (chat w))) - length (messages (chat w)))%nat
      with 1%nat by lia. }
  assert (Hsame : events (respond net) = events (calls frags ++ [Call t]))
    by (by rewrite Hev, events_app, events_calls).
  rewrite (perform_all_same_events k _ _ w1 Hsame).
  rewrite (perform_all_same_subscriptions k _ _ w1 Hsame).
  rewrite perform_all_app.
  destruct (perform_fragments frags k s b w1 Hk eq_refl Hi) as [Hs2 Hm2].
  set (w2 := perform_all k (calls frags) w1) in *.
  change (perform_all k [Call t] w2) with (perform k (Call t) w2).
  assert (Hk2 : subscriptions w2 !! k = Some s) by (by rewrite Hs2).
  assert (Hi2 : messages (chat w2) !! botIndex s
                = Some (with_text b (plus_all (text b) frags))).
  { rewrite Hm2. apply list_lookup_insert_eq. by eapply lookup_lt_Some. }
  assert (Hstop : <[k := {| botIndex := i; isStopped := true |}]> (subscriptions w1)
                  = subscriptions w
                    ++ [{| botIndex := i; isStopped := true |}]).
  { rewrite Hs. unfold k. rewrite insert_app_r_alt, Nat.sub_diag by lia. done. }
  assert (Hset : forall y,
             <[i := y]> (messages (chat w1))
             = messages (chat w)
               ++ [{| from := user; text := Some (TString (trim p));
                      loading := None |}; y]).
  { intros y. rewrite Hm. unfold i.
    rewrite insert_app_r_alt by lia.
    by replace (S (length (messages (chat w))) - length (messages (chat w)))%nat
      with 1%nat by lia. }
  destruct (perform_terminal k s t w2 Hk2 eq_refl Ht) as [-> ->].
  rewrite Hs2. split; [|exact Hstop].
  destruct t as [v| |e]; [done| |].
  - rewrite Hm2. cbn [text b answer_text]. rewrite plus_all_string.
    apply Hset.
  - destruct (on_error_messages (botIndex s) e (chat w2) _ Hi2) as [-> _].
    rewrite Hm2, list_insert_insert_eq. apply Hset.
Qed.

(** X11. An exchange whose stream ends with [complete]: the log gets
    the user turn with the trimmed prompt and one bot turn whose text
    is the concatenation, in order, of the string forms of the
    fragments; a fragment that has none, on which the handler throws,
    adds nothing.  The turns before are as they were. *)
Theorem completed_answer_is_concatenation (p : jsstring) (net : fetch_result)
    (w : world) (frags : list jsval) :
  trim p <> [] ->
  events (respond net) = (Next <$> frags) ++ [Complete] ->
  messages (chat (converse p net w))
  = messages (chat w)
    ++ [{| from := user; text := Some (TString (trim p)); loading := None |};
        {| from := bot; text := Some (TString (mjoin (omap to_string frags)));
           loading := None |}].
Proof.
  intros Hp Hev. by destruct (converse_result p net w frags Complete Hp I Hev).
Qed.

(** X12. Whatever the network answers, an exchange for a prompt that
    is not blank ends with its subscription closed, with exactly two
    turns more in the log, the user turn and a bot turn whose text is
    a string, and with the earlier turns and subscriptions as they
    were: no answer leaves its turn streaming once its stream has
    ended. *)
Theorem exchange_ends_closed (p : jsstring) (net : fetch_result) (w : world) :
  trim p <> [] ->
  exists answer,
    messages (chat (converse p net w))
    = messages (chat w)
      ++ [{| from := user; text := Some (TString (trim p)); loading := None |};
          {| from := bot; text := Some (TString answer); loading := None |}]
    /\ subscriptions (converse p net w)
       = subscriptions w
         ++ [{| botIndex := S (length (messages (chat w))); isStopped := true |}].
Proof.
  intros Hp.
  assert (exists t, terminal t
            /\ events (respond net) = (Next <$> fragments (respond net)) ++ [t])
    as (t & Ht & Hev).
  { destruct net as [e|[b|]];
      [by exists (Error e)|apply read_loop_trace|by eexists (Error _)]. }
  exists (answer_text (fragments (respond net)) t).
  by apply converse_result.
Qed.

(** X13. White space around a prompt does not matter, and a prompt is
    dropped exactly when it is white space and nothing else. *)
Theorem prompt_is_trimmed (p : jsstring) (w : world) :
  sendMessage p w = sendMessage (trim p) w
  /\ (sendMessage p w = w <-> Forall (fun c => is_white_space c = true) p).
Proof.
  split.
  - unfold sendMessage. by rewrite trim_idempotent.
  - rewrite <- trim_blank. split.
    + intros E. destruct (decide (trim p = [])) as [|Hp]; [done|].
      destruct (sendMessage_pushes p w Hp) as [Hm _]. rewrite E in Hm.
      apply (f_equal length) in Hm. rewrite length_app in Hm. cbn in Hm. lia.
    + intros Hp. unfold sendMessage. by rewrite Hp.
Qed.

End Exchange.

Section MoreSamples.
#[local] Existing Instance ReferenceEngine.engine.

Lemma blank_lines_are_skipped_witness :
  Forall (fun l => LF ∉ l) Cases.spaced_lines
  /\ events (respond (FetchResolved (Some Cases.spaced)))
     = events (respond (FetchResolved (Some Cases.unspaced))).
Proof.
  assert (H1 : Forall (fun l => LF ∉ l) Cases.spaced_lines)
    by (repeat apply Forall_cons; try apply Forall_nil; by_computation).
  assert (H2 : decoded_text (chunks Cases.spaced) = join_lines Cases.spaced_lines)
    by (vm_compute; reflexivity).
  assert (H3 : decoded_text (chunks Cases.unspaced)
               = join_lines (filter (fun l => trim l <> []) Cases.spaced_lines))
    by (vm_compute; reflexivity).
  split; [exact H1|].
  exact (blank_lines_are_skipped Cases.spaced_lines (chunks Cases.spaced)
           (chunks Cases.unspaced) EndOfStream H1 H2 H3).
Defined.

Lemma body_end_ends_stream_witness :
  let acts := respond (FetchResolved (Some Sample.dropped)) in
  process_lines [Sample.hel] [] = ([JStr (lit "Hel")], Break [])
  /\ events acts
     = [Next (JStr (lit "Hel"));
        Error {| name := TypeError; message := lit "network error" |}]
  /\ reads acts = 2%nat.
Proof.
  intros acts.
  assert (H1 : Forall (fun l => LF ∉ l) [Sample.hel])
    by (repeat apply Forall_cons; try apply Forall_nil; by_computation).
  assert (H2 : LF ∉ @nil code_unit) by apply not_elem_of_nil.
  assert (H3 : process_lines [Sample.hel] [] = ([JStr (lit "Hel")], Break []))
    by (vm_compute; reflexivity).
  assert (H4 : decoded_text (chunks Sample.dropped) = join_lines [Sample.hel] ++ [])
    by (vm_compute; reflexivity).
  destruct (body_end_ends_stream [Sample.hel] [] [JStr (lit "Hel")]
              (chunks Sample.dropped) (ending Sample.dropped) H1 H2 H3 H4)
    as [E1 E2].
  split_and!; [exact H3|exact E1|exact E2].
Defined.

Lemma null_line_is_an_error_witness :
  let acts := respond (FetchResolved (Some Cases.null_line)) in
  JSON_parse (trim (lit "null")) = inr JNull
  /\ length (chunks Cases.null_line) = 3%nat
  /\ events acts
     = [Next (JStr (lit "Hel"));
        Error (ReferenceEngine.null_error (lit "response"))]
  /\ reads acts = 2%nat.
Proof.
  intros acts.
  assert (H1 : Forall (fun l => LF ∉ l) [Sample.hel])
    by (repeat apply Forall_cons; try apply Forall_nil; by_computation).
  assert (H2 : process_lines [Sample.hel] [] = ([JStr (lit "Hel")], Break []))
    by (vm_compute; reflexivity).
  assert (H3 : LF ∉ lit "null") by by_computation.
  assert (H4 : trim (lit "null") <> []) by (vm_compute; congruence).
  assert (H5 : JSON_parse (trim (lit "null")) = inr JNull)
    by (vm_compute; reflexivity).
  assert (H6 : decoded_text ([Sample.wire (Sample.hel ++ [LF])]
                             ++ [Sample.wire (lit "null" ++ [LF] ++ take 9 Sample.yet)])
               = join_lines [Sample.hel] ++ lit "null" ++ LF :: take 9 Sample.yet)
    by (vm_compute; reflexivity).
  assert (H7 : decoded_text [Sample.wire (Sample.hel ++ [LF])] ++ lit "null"
               = join_lines [Sample.hel] ++ lit "null")
    by (vm_compute; reflexivity).
  destruct (null_line_is_an_error [Sample.hel] [JStr (lit "Hel")] (lit "null")
              (take 9 Sample.yet) (lit "null")
              [Sample.wire (Sample.hel ++ [LF])]
              (Sample.wire (lit "null" ++ [LF] ++ take 9 Sample.yet))
              [Sample.wire (drop 9 Sample.yet ++ [LF])] EndOfStream
              H1 H2 H3 H4 H5 H6 H7) as [E1 E2].
  split_and!; [exact H5|reflexivity|exact E1|exact E2].
Defined.

Lemma asked_reachable : reachable Sample.asked.
Proof. apply (reachable_step initial); [apply reachable_initial|apply step_send]. Qed.

Lemma streaming_joke_reachable : reachable Cases.streaming_joke.
Proof. apply (reachable_step Sample.asked); [apply asked_reachable|apply step_call]. Qed.

Lemma log_alternates_witness :
  isLoading (chat Cases.streaming_joke) = false
  /\ length (messages (chat Cases.streaming_joke)) = 2%nat.
Proof.
  destruct (log_alternates Cases.streaming_joke streaming_joke_reachable)
    as (E1 & E2 & _).
  split; [exact E1|exact E2].
Defined.

Lemma subscriptions_own_their_turns_witness :
  exists m, messages (chat Cases.streaming_joke) !! 1%nat = Some m /\ from m = bot.
Proof.
  exact (proj1 (subscriptions_own_their_turns Cases.streaming_joke
                  streaming_joke_reachable)
           0%nat {| botIndex := 1; isStopped := false |} eq_refl).
Defined.

Lemma requests_match_user_turns_witness :
  length (sent Cases.streaming_joke) = 1%nat
  /\ exists m, messages (chat Cases.streaming_joke) !! 0%nat = Some m
               /\ from m = user /\ text m = Some (TString Sample.joke_prompt).
Proof.
  destruct (requests_match_user_turns Cases.streaming_joke streaming_joke_reachable)
    as [E1 E2].
  split; [exact E1|].
  exact (proj2 (proj2 (proj2
           (E2 0%nat (0%nat, generate_request Sample.joke_prompt None) eq_refl)))).
Defined.

Lemma log_only_grows_witness :
  (length (messages (chat Sample.asked))
   <= length (messages (chat Cases.streaming_joke)))%nat.
Proof.
  exact (proj1 (log_only_grows Sample.asked Cases.streaming_joke asked_reachable
                  (step_call 0 (Next (JStr (lit "Why"))) Sample.asked))).
Defined.

Lemma completed_answer_is_concatenation_witness :
  let toString :=
    JObj [(lit "toString",
           JNum {| negative := false; digits := 1; exponent := 0 |})] in
  events (respond (FetchResolved (Some Cases.with_object)))
  = [Next (JStr (lit "Hel")); Next toString; Next (JStr (lit " yet."));
     Complete]
  /\ messages (chat (converse Sample.joke_prompt
                       (FetchResolved (Some Cases.with_object)) initial))
     = [{| from := user; text := Some (TString Sample.joke_prompt);
           loading := None |};
        {| from := bot; text := Some (TString (lit "Hel yet."));
           loading := None |}].
Proof.
  intros toString.
  assert (H1 : trim Sample.joke_prompt <> []) by (vm_compute; congruence).
  assert (H2 : events (respond (FetchResolved (Some Cases.with_object)))
               = (Next <$> [JStr (lit "Hel"); toString; JStr (lit " yet.")])
                 ++ [Complete])
    by (vm_compute; reflexivity).
  split; [exact H2|].
  exact (completed_answer_is_concatenation Sample.joke_prompt
           (FetchResolved (Some Cases.with_object)) initial _ H1 H2).
Defined.

Lemma exchange_ends_closed_witness :
  exists answer,
    messages (chat (converse Sample.joke_prompt (FetchResolved (Some Sample.dropped))
                      initial))
    = [{| from := user; text := Some (TString Sample.joke_prompt); loading := None |};
       {| from := bot; text := Some (TString answer); loading := None |}]
    /\ subscriptions (converse Sample.joke_prompt
                        (FetchResolved (Some Sample.dropped)) initial)
       = [{| botIndex := 1; isStopped := true |}].
Proof.
  assert (H1 : trim Sample.joke_prompt <> []) by (vm_compute; congruence).
  exact (exchange_ends_closed Sample.joke_prompt
           (FetchResolved (Some Sample.dropped)) initial H1).
Defined.

End MoreSamples.

(** * The first version of [sendMessage] *)

Section LegacyRuns.
Import Legacy.

Lemma filter_insert_length {A : Type} (f : A -> bool) (l : list A) (i : nat)
    (x y : A) :
  l !! i = Some x -> f x = true -> f y = false ->
  S (length (List.filter f (<[i := y]> l))) = length (List.filter f l).
Proof.
  revert i. induction l as [|a l IH]; intros [|i] Hi Hx Hy; try done.
  - cbn in Hi. injection Hi as ->. cbn. by rewrite Hx, Hy.
  - cbn in Hi. cbn. destruct (f a); cbn; [f_equal|]; by apply (IH i).
Qed.

Lemma filter_app_length {A : Type} (f : A -> bool) (l l' : list A) :
  length (List.filter f (l ++ l'))
  = (length (List.filter f l) + length (List.filter f l'))%nat.
Proof. by rewrite List.filter_app, length_app. Qed.

Lemma legacy_kept_initial : kept initial.
Proof.
  split; try done. intros k result Hin. cbn in Hin. by apply elem_of_nil in Hin.
Qed.

Lemma legacy_sendMessage_blank (p : jsstring) (c : ChatComponent) :
  trim p = [] -> sendMessage p c = (c, None).
Proof. unfold sendMessage. by intros ->. Qed.

Lemma legacy_sendMessage_pushes_two (p : jsstring) (c : ChatComponent) :
  trim p <> [] ->
  sendMessage p c
  = ({| messages := messages c ++ [user_turn (trim p); placeholder];
        isLoading := true |},
     Some (S (length (messages c)), post_request (trim p))).
Proof.
  unfold sendMessage. destruct (trim p) as [|u t] eqn:E; [done|]. intros _.
  cbn [truthy_string negb]. rewrite <- app_assoc. cbn [app].
  do 3 f_equal. rewrite !length_app. cbn. lia.
Qed.

Lemma legacy_kept_send (p : jsstring) (w : world) : kept w -> kept (send p w).
Proof.
  intros K. unfold send. destruct (decide (trim p = [])) as [E|E].
  { rewrite legacy_sendMessage_blank by done. by destruct w, K. }
  rewrite legacy_sendMessage_pushes_two by done. destruct K as [Ki Kd Ka Kc].
  assert (forall k s, subscriptions w !! k = Some s ->
            (loaderIndex s < length (messages (chat w)))%nat) as Hlt.
  { intros k s Hs. destruct (Ki k s Hs) as (_ & ? & _). lia. }
  split; cbn [chat messages subscriptions answered isLoading].
  - intros k s Hs. apply lookup_app_Some in Hs as [Hs|[Hk Hs]].
    + destruct (Ki k s Hs) as ((t & Ht & Hu) & Hr & Hp).
      refine (conj _ (conj _ _)).
      * exists t. split; [done|]. rewrite lookup_app_l; [done|lia].
      * rewrite length_app. cbn. lia.
      * intros Ho. rewrite lookup_app_l; [by apply Hp|lia].
    + apply list_lookup_singleton_Some in Hs as [_ <-]. cbn.
      refine (conj _ (conj _ _)).
      * exists (trim p). split; [done|].
        rewrite Nat.sub_0_r, lookup_app_r by lia. by rewrite Nat.sub_diag.
      * rewrite length_app. cbn. lia.
      * intros _. rewrite lookup_app_r by lia.
        by replace (S (length (messages (chat w))) - length (messages (chat w)))%nat
          with 1%nat by lia.
  - intros j k s s' Hj Hk Hi.
    apply lookup_app_Some in Hj as [Hj|[Hj1 Hj]];
      apply lookup_app_Some in Hk as [Hk|[Hk1 Hk]].
    + by eapply Kd.
    + apply list_lookup_singleton_Some in Hk as [_ <-]. cbn in Hi.
      specialize (Hlt j s Hj). lia.
    + apply list_lookup_singleton_Some in Hj as [_ <-]. cbn in Hi.
      specialize (Hlt k s' Hk). lia.
    + apply list_lookup_singleton_Some in Hj as [Hj _].
      apply list_lookup_singleton_Some in Hk as [Hk _]. lia.
  - intros k result Hin. destruct (Ka k result Hin) as (s & Hs & Hst & Hm).
    exists s. split_and!; [by apply lookup_app_l_Some|done|].
    specialize (Hlt k s Hs). by rewrite lookup_app_l.
  - unfold placeholders, waiting, unanswered in *. cbn.
    rewrite !filter_app_length. cbn. lia.
Qed.

(** The state after an answer has reached the handlers of [k]. *)
Lemma answer_open (k : nat) (s : subscription) (result : http_result)
    (w : world) :
  subscriptions w !! k = Some s -> isStopped s = false ->
  answer k result w
  = {| chat :=
         match result with
         | Responded res =>
             {| messages :=
                  match response_of res with
                  | Some r => <[loaderIndex s := bot_turn r]> (messages (chat w))
                  | None => messages (chat w)
                  end;
                isLoading := false |}
         | Failed err => on_failure err (chat w)
         end;
       subscriptions :=
         <[k := {| loaderIndex := loaderIndex s; isStopped := true |}]>
           (subscriptions w);
       answered := answered w ++ [(k, result)] |}.
Proof.
  intros Hs Ho. unfold answer. rewrite Hs, Ho. destruct result as [res|e]; [|done].
  unfold on_response. by destruct (response_of res).
Qed.

Lemma answer_ignored (k : nat) (result : http_result) (w : world) :
  (forall s, subscriptions w !! k = Some s -> isStopped s = true) ->
  answer k result w = w.
Proof.
  intros Hs. unfold answer. destruct (subscriptions w !! k) as [s|]; [|done].
  by rewrite (Hs s).
Qed.

Lemma stopped_lookup (k j : nat) (s s' : subscription) (subs : list subscription) :
  subs !! k = Some s ->
  <[k := {| loaderIndex := loaderIndex s; isStopped := true |}]> subs !! j = Some s' ->
  exists s0, subs !! j = Some s0 /\ loaderIndex s' = loaderIndex s0
    /\ (isStopped s' = false -> j <> k /\ s' = s0)
    /\ (j <> k -> s' = s0).
Proof.
  intros Hk. destruct (decide (j = k)) as [->|Hj].
  - rewrite list_lookup_insert_eq by (by eapply lookup_lt_Some).
    intros [= <-]. exists s. by split_and!.
  - rewrite list_lookup_insert_ne by done. intros Hs. exists s'. by split_and!.
Qed.

(** What an answer does to the log: nothing, a new turn in the place
    of the placeholder of its request, or one more turn at the end. *)
Lemma answer_messages (k : nat) (s : subscription) (result : http_result)
    (w : world) :
  subscriptions w !! k = Some s -> isStopped s = false ->
  messages (chat (answer k result w)) = messages (chat w)
     /\ keeps_placeholder (k, result) = true
     /\ (exists res, result = Responded res)
  \/ (exists res r, result = Responded res
        /\ response_of res = Some r
        /\ messages (chat (answer k result w))
           = <[loaderIndex s := bot_turn r]> (messages (chat w)))
  \/ (exists e m, result = Failed e
        /\ is_placeholder m = false
        /\ messages (chat (answer k result w)) = messages (chat w) ++ [m]).
Proof.
  intros Hs Ho. rewrite (answer_open k s) by done. destruct result as [res|e].
  - cbn [chat messages]. unfold keeps_placeholder. cbn [snd].
    destruct (response_of res) as [r|] eqn:Hg.
    + right. left. by eauto.
    + left. by eauto.
  - right. right.
    by exists e, (bot_turn (JStr (Chat.warning_prefix ++ message e))).
Qed.

Lemma legacy_kept_answer (k : nat) (result : http_result) (w : world) :
  kept w -> kept (answer k result w).
Proof.
  intros K.
  destruct (subscriptions w !! k) as [s|] eqn:Hs;
    [|by rewrite answer_ignored by (by rewrite Hs)].
  destruct (isStopped s) eqn:Ho.
  { rewrite answer_ignored; [done|]. intros s0. rewrite Hs. by intros [= <-]. }
  pose proof (answer_messages k s result w Hs Ho) as Hmsg.
  rewrite (answer_open k s) in * by done. cbn [chat] in Hmsg.
  match type of Hmsg with
  | context [messages ?c = messages (chat w)] => set (msgs := messages c) in *
  end.
  destruct K as [Ki Kd Ka Kc].
  destruct (Ki k s Hs) as (_ & Hrange & Hph). specialize (Hph Ho).
  assert (forall j s0, subscriptions w !! j = Some s0 -> j <> k ->
            loaderIndex s0 <> loaderIndex s) as Hother.
  { intros j s0 Hj Hjk Heq. by apply Hjk, (Kd j k s0 s). }
  assert (Hwait : waiting w
          = S (length (List.filter (fun s => negb (isStopped s))
                 (<[k := {| loaderIndex := loaderIndex s; isStopped := true |}]>
                    (subscriptions w))))).
  { unfold waiting. symmetry.
    apply (filter_insert_length _ _ _ s); [done|by rewrite Ho|done]. }
  (* the turns of the log that the answer leaves as they were *)
  assert (Hsame : forall i m, messages (chat w) !! i = Some m ->
            i <> loaderIndex s -> msgs !! i = Some m).
  { intros i m Hi Hne.
    destruct Hmsg as [(-> & _)|[(res & r & _ & _ & ->)|(e & m' & _ & _ & ->)]].
    - done.
    - by rewrite list_lookup_insert_ne.
    - by apply lookup_app_l_Some. }
  assert (Hlen : (length (messages (chat w)) <= length msgs)%nat).
  { destruct Hmsg as [(-> & _)|[(res & r & _ & _ & ->)|(e & m' & _ & _ & ->)]].
    - done.
    - by rewrite length_insert.
    - rewrite length_app. lia. }
  (* the turn of the request itself *)
  assert (Hown : msgs !! loaderIndex s
                 = Some match result with
                        | Responded res =>
                            match response_of res with
                            | Some r => bot_turn r
                            | None => placeholder
                            end
                        | Failed _ => placeholder
                        end).
  { destruct Hmsg as [(-> & Hkp & res & ->)|[(res & r & -> & Hg & ->)
                                            |(e & m' & -> & _ & ->)]].
    - unfold keeps_placeholder in Hkp. cbn [snd] in Hkp.
      by destruct (response_of res).
    - rewrite Hg. apply list_lookup_insert_eq. lia.
    - apply lookup_app_l_Some. done. }
  split; cbn [chat subscriptions answered]; fold msgs.
  - intros j s' Hj.
    destruct (stopped_lookup _ _ _ _ _ Hs Hj) as (s0 & Hj0 & Hi & Hopen & _).
    rewrite Hi. destruct (Ki j s0 Hj0) as ((t & Ht & Hu) & Hr & Hp).
    refine (conj _ (conj _ _)).
    + exists t. split; [done|]. apply Hsame; [done|].
      intros E. rewrite E, Hph in Hu. discriminate.
    + lia.
    + intros Ho'. destruct (Hopen Ho') as [Hjk ->].
      apply Hsame; [by apply Hp|]. by apply (Hother j s0).
  - intros j j' s1 s2 Hj Hj' Hi.
    destruct (stopped_lookup _ _ _ _ _ Hs Hj) as (s1' & Hj1 & Hi1 & _).
    destruct (stopped_lookup _ _ _ _ _ Hs Hj') as (s2' & Hj2 & Hi2 & _).
    apply (Kd j j' s1' s2'); [done|done|congruence].
  - intros j result' Hin. apply elem_of_app in Hin as [Hin|Hin].
    + destruct (Ka j result' Hin) as (s0 & Hj & Hst & Hm).
      assert (j <> k) as Hjk by (intros ->; congruence).
      exists s0. rewrite list_lookup_insert_ne by done.
      split_and!; [done|done|]. apply Hsame; [done|]. by apply (Hother j s0).
    + apply list_elem_of_singleton in Hin. injection Hin as -> ->.
      eexists. rewrite list_lookup_insert_eq by (by eapply lookup_lt_Some).
      by split_and!.
  - unfold placeholders, unanswered, waiting in *.
    cbn [chat subscriptions answered]. fold msgs.
    rewrite filter_app_length. cbn [List.filter length].
    destruct Hmsg as [(Hm & -> & _)|[(res & r & -> & Hg & Hm)
                                    |(e & m' & -> & Hm' & Hm)]].
    + rewrite Hm. cbn. lia.
    + assert (Hkp : keeps_placeholder (k, Responded res) = false)
        by (unfold keeps_placeholder; cbn [snd]; by rewrite Hg).
      rewrite Hkp, Hm.
      pose proof (filter_insert_length is_placeholder (messages (chat w))
                    (loaderIndex s) placeholder (bot_turn r) Hph eq_refl eq_refl).
      cbn. lia.
    + change (keeps_placeholder (k, Failed e)) with true.
      rewrite Hm, filter_app_length. cbn [List.filter].
      rewrite Hm'. cbn. lia.
Qed.

Lemma legacy_reachable_kept (w : world) : reachable w -> kept w.
Proof.
  induction 1 as [|w w' _ IH Hstep]; [apply legacy_kept_initial|].
  destruct Hstep as [p w|k result w]; [by apply legacy_kept_send|by apply legacy_kept_answer].
Qed.

(** X14. An answer with a body that is not [null] replaces the
    placeholder of its own request, whatever was sent or answered in
    between, also with the body [null]: the placeholder is still at
    the index the handler holds and follows the user turn of the
    request; the new turn's text is the [response] property of the
    body, whatever it is; the flag is cleared, also while other
    requests are under way; the other subscriptions are as they
    were. *)
Theorem legacy_answer_replaces_own_placeholder (w : world) (k : nat)
    (s : subscription) (res r : jsval) :
  reachable w -> subscriptions w !! k = Some s -> isStopped s = false ->
  response_of res = Some r ->
  let w' := answer k (Responded res) w in
  exists t,
    t <> []
    /\ messages (chat w) !! (loaderIndex s - 1)%nat = Some (user_turn t)
    /\ messages (chat w) !! loaderIndex s = Some placeholder
    /\ messages (chat w') = <[loaderIndex s := bot_turn r]> (messages (chat w))
    /\ messages (chat w') !! loaderIndex s = Some (bot_turn r)
    /\ isLoading (chat w') = false
    /\ forall j, j <> k -> subscriptions w' !! j = subscriptions w !! j.
Proof.
  intros Hw Hs Ho Hg w'. destruct (legacy_reachable_kept w Hw) as [Ki _ _ _].
  destruct (Ki k s Hs) as ((t & Ht & Hu) & Hr & Hp).
  unfold w'. rewrite (answer_open k s) by done. rewrite Hg.
  exists t. cbn [chat messages isLoading subscriptions].
  split_and!; [done|done|by apply Hp|done| |done|].
  - rewrite list_lookup_insert_eq; [done|lia].
  - intros j Hj. by rewrite list_lookup_insert_ne.
Qed.

(** X15. A request that fails gets one more turn at the end of the
    log, the warning sign and the message; its placeholder stays
    where it was, the flag is what it was, and the subscription has
    stopped. *)
Theorem legacy_failure_appends_warning (w : world) (k : nat)
    (s : subscription) (err : js_error) :
  reachable w -> subscriptions w !! k = Some s -> isStopped s = false ->
  let w' := answer k (Failed err) w in
  messages (chat w')
  = messages (chat w) ++ [bot_turn (JStr (Chat.warning_prefix ++ message err))]
  /\ messages (chat w') !! loaderIndex s = Some placeholder
  /\ isLoading (chat w') = isLoading (chat w)
  /\ subscriptions w' !! k
     = Some {| loaderIndex := loaderIndex s; isStopped := true |}.
Proof.
  intros Hw Hs Ho w'. destruct (legacy_reachable_kept w Hw) as [Ki _ _ _].
  destruct (Ki k s Hs) as (_ & Hr & Hp).
  unfold w'. rewrite (answer_open k s) by done.
  cbn [chat messages isLoading subscriptions on_failure].
  split_and!; [done| |done|].
  - rewrite lookup_app_l; [by apply Hp|lia].
  - rewrite list_lookup_insert_eq; [done|by eapply lookup_lt_Some].
Qed.

(** X16. What an answer made of its turn stays: in every run, also
    one with [null] bodies, the turn at the index of a request whose
    body came holds the [response] of the body, or still the
    placeholder when the body was [null], whatever was sent or
    answered since. *)
Theorem legacy_shown_answers_stay (w : world) (k : nat) (res : jsval) :
  reachable w -> (k, Responded res) ∈ answered w ->
  exists s,
    subscriptions w !! k = Some s /\ isStopped s = true
    /\ messages (chat w) !! loaderIndex s
       = Some match response_of res with
              | Some r => bot_turn r
              | None => placeholder
              end.
Proof.
  intros Hw Hin. destruct (legacy_reachable_kept w Hw) as [_ _ Ka _].
  destruct (Ka _ _ Hin) as (s & Hs & Hst & Hm). by exists s.
Qed.

(** X17. The placeholder of a request that failed is never replaced:
    in every run it is still in the log, with [loading] set. *)
Theorem legacy_failed_placeholder_stays (w : world) (k : nat) (err : js_error) :
  reachable w -> (k, Failed err) ∈ answered w ->
  exists s,
    subscriptions w !! k = Some s /\ isStopped s = true
    /\ messages (chat w) !! loaderIndex s = Some placeholder.
Proof.
  intros Hw Hin. destruct (legacy_reachable_kept w Hw) as [_ _ Ka _].
  destruct (Ka _ _ Hin) as (s & Hs & Hst & Hm). by exists s.
Qed.

(** X18. In every run the placeholders in the log are as many as the
    requests under way, the requests that failed and the requests
    answered with the body [null] together. *)
Theorem legacy_placeholders_counted (w : world) :
  reachable w -> placeholders (chat w) = (waiting w + unanswered w)%nat.
Proof. intros Hw. by destruct (legacy_reachable_kept w Hw). Qed.

(** X30. An answer with the body [null]: the [next] handler throws
    on reading [response], so the log is as it was, with the
    placeholder of the request in it for good; [complete] clears the
    flag and the subscription has stopped. *)
Theorem legacy_null_body_keeps_placeholder (w : world) (k : nat)
    (s : subscription) (res : jsval) :
  reachable w -> subscriptions w !! k = Some s -> isStopped s = false ->
  response_of res = None ->
  let w' := answer k (Responded res) w in
  messages (chat w') = messages (chat w)
  /\ messages (chat w') !! loaderIndex s = Some placeholder
  /\ isLoading (chat w') = false
  /\ subscriptions w' !! k
     = Some {| loaderIndex := loaderIndex s; isStopped := true |}
  /\ placeholders (chat w') = (waiting w' + unanswered w')%nat.
Proof.
  intros Hw Hs Ho Hres w'.
  assert (Hw' : reachable w') by (apply (reachable_step w); [done|apply step_answer]).
  destruct (legacy_reachable_kept w Hw) as [Ki _ _ _].
  destruct (legacy_reachable_kept w' Hw') as [_ _ _ Kc'].
  destruct (Ki k s Hs) as (_ & Hr & Hp).
  split_and!; [| | | |exact Kc']; unfold w'; rewrite (answer_open k s) by done;
    rewrite ?Hres; cbn [chat messages isLoading subscriptions];
    [done|by apply Hp|done|].
  rewrite list_lookup_insert_eq; [done|by eapply lookup_lt_Some].
Qed.

(** X19. White space around a prompt does not matter to the first
    version either: the prompt is sent as trimmed, and it is dropped,
    with no turn, no flag and no request, exactly when it is white
    space and nothing else. *)
Theorem legacy_prompt_is_trimmed (p : jsstring) (w : world) :
  send p w = send (trim p) w
  /\ (send p w = w <-> Forall (fun c => is_white_space c = true) p).
Proof.
  split.
  - unfold send, sendMessage. by rewrite trim_idempotent.
  - rewrite <- trim_blank. unfold send. split.
    + intros E. destruct (decide (trim p = [])) as [|Hp]; [done|].
      rewrite legacy_sendMessage_pushes_two in E by done.
      apply (f_equal (fun w => length (subscriptions w))) in E.
      cbn in E. rewrite length_app in E. cbn in E. lia.
    + intros Hp. rewrite legacy_sendMessage_blank by done. by destruct w.
Qed.

End LegacyRuns.

Section LegacySample.
Import Legacy.

Lemma legacy_reachable_sample (p : jsstring) : reachable (send p initial).
Proof. apply (reachable_step initial); [apply reachable_initial|apply step_send]. Qed.

Lemma legacy_run_reachable : reachable Cases.legacy_run.
Proof.
  exact (reachable_step _ _
           (reachable_step _ _
              (reachable_step _ _
                 (reachable_step _ _
                    (reachable_step _ _ (legacy_reachable_sample (lit "a"))
                       (step_send (lit "b") _))
                    (step_send (lit "c") _))
                 (step_answer 1
                    (Responded (JObj [(lit "response", JStr (lit "yo"))])) _))
              (step_answer 0
                 (Failed {| name := TypeError; message := lit "down" |}) _))
           (step_answer 2 (Responded JNull) _)).
Qed.

(** Two requests under way, the first of them answered with the body
    [null]; then the second is answered. *)
Lemma legacy_after_null_reachable :
  reachable (answer 0 (Responded JNull)
               (send (lit "b") (send (lit "a") initial))).
Proof.
  exact (reachable_step _ _
           (reachable_step _ _ (legacy_reachable_sample (lit "a"))
              (step_send (lit "b") _))
           (step_answer 0 (Responded JNull) _)).
Qed.

Lemma legacy_answer_replaces_own_placeholder_witness :
  let w := answer 0 (Responded JNull) (send (lit "b") (send (lit "a") initial)) in
  let res := JObj [(lit "response", JStr (lit "yo"))] in
  messages (chat w)
  = [user_turn (lit "a"); placeholder; user_turn (lit "b"); placeholder]
  /\ messages (chat (answer 1 (Responded res) w))
     = [user_turn (lit "a"); placeholder;
        user_turn (lit "b"); bot_turn (JStr (lit "yo"))]
  /\ isLoading (chat (answer 1 (Responded res) w)) = false.
Proof.
  intros w res.
  destruct (legacy_answer_replaces_own_placeholder w 1
              {| loaderIndex := 3; isStopped := false |} res (JStr (lit "yo"))
              legacy_after_null_reachable eq_refl eq_refl eq_refl)
    as (t & _ & _ & _ & Hm & _ & Hl & _).
  split_and!; [reflexivity|exact Hm|exact Hl].
Defined.

Lemma legacy_failure_appends_warning_witness :
  let w := send (lit "hi") initial in
  let err := {| name := TypeError; message := lit "down" |} in
  messages (chat (answer 0 (Failed err) w))
  = [user_turn (lit "hi"); placeholder;
     bot_turn (JStr (Chat.warning_prefix ++ lit "down"))]
  /\ isLoading (chat (answer 0 (Failed err) w)) = true.
Proof.
  intros w err.
  destruct (legacy_failure_appends_warning w 0
              {| loaderIndex := 1; isStopped := false |} err
              (legacy_reachable_sample (lit "hi")) eq_refl eq_refl)
    as (Hm & _ & Hl & _).
  split; [exact Hm|exact Hl].
Defined.

Lemma legacy_shown_answers_stay_witness :
  (exists s,
     subscriptions Cases.legacy_run !! 1%nat = Some s
     /\ messages (chat Cases.legacy_run) !! loaderIndex s
        = Some (bot_turn (JStr (lit "yo"))))
  /\ (exists s,
        subscriptions Cases.legacy_run !! 2%nat = Some s
        /\ messages (chat Cases.legacy_run) !! loaderIndex s = Some placeholder).
Proof.
  split.
  - destruct (legacy_shown_answers_stay Cases.legacy_run 1
                (JObj [(lit "response", JStr (lit "yo"))])
                legacy_run_reachable)
      as (s & Hs & _ & Hm).
    + apply list_elem_of_here.
    + exists s. split; [exact Hs|exact Hm].
  - destruct (legacy_shown_answers_stay Cases.legacy_run 2 JNull
                legacy_run_reachable)
      as (s & Hs & _ & Hm).
    + do 2 apply list_elem_of_further. apply list_elem_of_here.
    + exists s. split; [exact Hs|exact Hm].
Defined.

Lemma legacy_failed_placeholder_stays_witness :
  exists s,
    subscriptions Cases.legacy_run !! 0%nat = Some s
    /\ messages (chat Cases.legacy_run) !! loaderIndex s = Some placeholder.
Proof.
  destruct (legacy_failed_placeholder_stays Cases.legacy_run 0
              {| name := TypeError; message := lit "down" |}
              legacy_run_reachable)
    as (s & Hs & _ & Hm).
  - apply list_elem_of_further, list_elem_of_here.
  - exists s. split; [exact Hs|exact Hm].
Defined.

Lemma legacy_placeholders_counted_witness :
  placeholders (chat Cases.legacy_run) = 2%nat
  /\ waiting Cases.legacy_run = 0%nat /\ unanswered Cases.legacy_run = 2%nat.
Proof.
  pose proof (legacy_placeholders_counted Cases.legacy_run
                legacy_run_reachable) as E.
  split_and!; [exact E|reflexivity|reflexivity].
Defined.

Lemma legacy_null_body_keeps_placeholder_witness :
  let w := send (lit "hi") initial in
  messages (chat (answer 0 (Responded JNull) w))
  = [user_turn (lit "hi"); placeholder]
  /\ isLoading (chat w) = true
  /\ isLoading (chat (answer 0 (Responded JNull) w)) = false
  /\ placeholders (chat (answer 0 (Responded JNull) w)) = 1%nat
  /\ waiting (answer 0 (Responded JNull) w) = 0%nat.
Proof.
  intros w.
  destruct (legacy_null_body_keeps_placeholder w 0
              {| loaderIndex := 1; isStopped := false |} JNull
              (legacy_reachable_sample (lit "hi")) eq_refl eq_refl eq_refl)
    as (Hm & _ & Hl & _ & _).
  split_and!; [exact Hm|reflexivity|exact Hl|reflexivity|reflexivity].
Defined.

End LegacySample.

(** * The utilities *)

Section Strings.
Import Utils.

Lemma isEmptyString_Value (s : jsstring) :
  isEmptyString (Value s) = true <-> trim s = [].
Proof.
  unfold isEmptyString. cbn [isNil orb]. rewrite Nat.eqb_eq.
  by destruct (trim s).
Qed.

(** X20. [isEmptyString] holds of [null], of [undefined], and of the
    strings that are white space and nothing else, the empty string
    among them; of no other string. *)
Theorem isEmptyString_blank (str : nullable jsstring) :
  isEmptyString str = true
  <-> match str with
      | Value s => Forall (fun c => is_white_space c = true) s
      | Null | Undefined => True
      end.
Proof.
  destruct str as [| |s]; [done|done|].
  by rewrite isEmptyString_Value, trim_blank.
Qed.

End Strings.

Section Paths.
Import Utils JsValue.

Lemma split_on_cons (sep : code_unit) (s : jsstring) :
  exists part parts, split_on sep s = part :: parts.
Proof.
  destruct s as [|c s]; [by eexists _, _|]. cbn [split_on].
  destruct (c =? sep)%N; [by eexists _, _|].
  destruct (split_on sep s); by eexists _, _.
Qed.

Lemma split_on_app (sep : code_unit) (p1 p2 : jsstring) :
  split_on sep (p1 ++ sep :: p2) = split_on sep p1 ++ split_on sep p2.
Proof.
  induction p1 as [|c p1 IH]; cbn [app split_on].
  - by rewrite N.eqb_refl.
  - rewrite IH. destruct (c =? sep)%N; [done|].
    by destruct (split_on_cons sep p1) as (part & parts & ->).
Qed.

Lemma split_on_parts (sep : code_unit) (s : jsstring) :
  Forall (fun part => sep ∉ part) (split_on sep s).
Proof.
  induction s as [|c s IH]; cbn [split_on].
  - apply Forall_cons; [apply not_elem_of_nil|apply Forall_nil].
  - destruct (N.eqb_spec c sep) as [->|Hc].
    + apply Forall_cons; [apply not_elem_of_nil|done].
    + destruct (split_on sep s) as [|seg segs].
      * apply Forall_cons; [|apply Forall_nil].
        intros [?|Hin%elem_of_nil]%elem_of_cons; [congruence|done].
      * apply Forall_cons; [|by eapply Forall_inv_tail].
        apply Forall_inv in IH.
        intros [?|?]%elem_of_cons; [congruence|done].
Qed.

Lemma eqb_eq (a b : jsstring) : JsString.eqb a b = true -> a = b.
Proof.
  revert b. induction a as [|x a IH]; intros [|y b]; cbn; try done.
  intros [Hx Hab]%andb_true_iff. apply N.eqb_eq in Hx. f_equal; [done|by apply IH].
Qed.

Lemma walk_nil_value (v : jsval) (parts : list jsstring) (d : jsval) :
  isNil (as_nullable v) = true -> parts <> [] -> walk v parts d = d.
Proof. intros Hv Hp. destruct parts; [done|]. cbn [walk]. by rewrite Hv. Qed.

Lemma walk_app (obj : jsval) (parts1 parts2 : list jsstring) (d : jsval) :
  parts2 <> [] ->
  walk obj (parts1 ++ parts2) d = walk (walk obj parts1 JUndefined) parts2 d.
Proof.
  intros Hp. revert obj. induction parts1 as [|part parts1 IH]; intros obj; [done|].
  cbn [app walk].
  destruct (isNil (as_nullable obj) || negb (has_own obj part)); [|apply IH].
  by rewrite walk_nil_value.
Qed.

Lemma not_blank_with_dot (p1 p2 : jsstring) :
  isEmptyString (Value (p1 ++ 46%N :: p2)) = false.
Proof.
  apply not_true_is_false. rewrite isEmptyString_Value, trim_blank.
  intros Hall. apply Forall_app in Hall as [_ Hall].
  by apply Forall_inv in Hall.
Qed.

(** X21. A path is followed part by part: for two paths that are not
    blank, the property at the first, a dot and the second is the
    property at the second path in what the first one leads to; where
    the first leads nowhere, the default is returned. *)
Theorem getNestedProperty_composes (obj : jsval) (p1 p2 : jsstring) (d : jsval) :
  trim p1 <> [] -> trim p2 <> [] ->
  getNestedProperty obj (p1 ++ 46%N :: p2) d
  = getNestedProperty (getNestedProperty obj p1 JUndefined) p2 d.
Proof.
  intros H1 H2. unfold getNestedProperty.
  assert (E1 : isEmptyString (Value p1) = false)
    by (apply not_true_is_false; by rewrite isEmptyString_Value).
  assert (E2 : isEmptyString (Value p2) = false)
    by (apply not_true_is_false; by rewrite isEmptyString_Value).
  rewrite not_blank_with_dot, E1, E2, !orb_false_r.
  destruct (split_on_cons 46%N p2) as (part & parts & Hp2).
  destruct (isNil (as_nullable obj)) eqn:Hobj; [done|].
  rewrite split_on_app, walk_app by (by rewrite Hp2).
  destruct (isNil (as_nullable (walk obj (split_on 46%N p1) JUndefined))) eqn:Hv;
    [|done].
  apply walk_nil_value; [done|by rewrite Hp2].
Qed.

(** X22. A property whose key holds a dot is out of reach: with it or
    without it, every path leads to the same value. *)
Theorem dotted_key_is_out_of_reach (k : jsstring) (v : jsval)
    (props : list (jsstring * jsval)) (path : jsstring) (d : jsval) :
  46%N ∈ k ->
  getNestedProperty (JObj ((k, v) :: props)) path d
  = getNestedProperty (JObj props) path d.
Proof.
  intros Hk. unfold getNestedProperty. cbn [as_nullable isNil orb].
  destruct (isEmptyString (Value path)); [done|].
  destruct (split_on_cons 46%N path) as (part & parts & Hp).
  pose proof (split_on_parts 46%N path) as Hparts. rewrite Hp in *.
  apply Forall_inv in Hparts. cbn [walk as_nullable isNil orb has_own get_own].
  assert (E : own_property ((k, v) :: props) part = own_property props part).
  { cbn [own_property]. destruct (own_property props part); [done|].
    destruct (JsString.eqb k part) eqn:Heq; [|done].
    apply eqb_eq in Heq. by subst. }
  by rewrite E.
Qed.

End Paths.

Section Unique.
Import Utils.
Context {T : Type} `{EqDecision T}.

Lemma set_add_spec (x : T) (s : list T) :
  NoDup s ->
  NoDup (set_add x s) /\ (forall y, y ∈ set_add x s <-> y ∈ s \/ y = x).
Proof.
  intros Hs. unfold set_add. destruct (decide (x ∈ s)) as [Hin|Hin].
  - split; [done|]. intros y. split; [by left|]. by intros [?| ->].
  - split.
    + apply list.NoDup_app. split_and!; [done| |apply NoDup_singleton].
      intros y Hy ->%list_elem_of_singleton. done.
    + intros y. rewrite elem_of_app, list_elem_of_singleton. done.
Qed.

Lemma fold_set_spec (l acc : list T) :
  NoDup acc ->
  let r := foldl (fun s x => set_add x s) acc l in
  NoDup r /\ (forall y, y ∈ r <-> y ∈ acc \/ y ∈ l)
  /\ exists more, r = acc ++ more /\ sublist more l.
Proof.
  revert acc. induction l as [|x l IH]; intros acc Hacc; cbn.
  - split_and!; [done| |exists []; by rewrite app_nil_r].
    intros y. split; [by left|]. by intros [?|?%elem_of_nil].
  - destruct (set_add_spec x acc Hacc) as [Hnd Hin].
    destruct (IH (set_add x acc) Hnd) as (Hr & Hmem & more & Hmore & Hsub).
    split_and!; [done| |].
    + intros y. rewrite Hmem, Hin, elem_of_cons. tauto.
    + rewrite Hmore. unfold set_add. destruct (decide (x ∈ acc)).
      * exists more. split; [done|]. by apply sublist_cons.
      * exists (x :: more). split; [by rewrite <- app_assoc|]. by apply sublist_skip.
Qed.

Lemma fold_set_app (l1 l2 acc : list T) :
  foldl (fun s x => set_add x s) acc (l1 ++ l2)
  = foldl (fun s x => set_add x s) (foldl (fun s x => set_add x s) acc l1) l2.
Proof. apply foldl_app. Qed.

(** X23. [uniqueArray] of an array: no element twice, the same
    elements as the array, in the order of the array; what it makes of
    the beginning of an array is the beginning of what it makes of the
    whole, so every element stands where it first occurs.  Of what is
    no array: the empty array. *)
Theorem uniqueArray_keeps_first_occurrences (l l' : list T) :
  uniqueArray (@None (list T)) = []
  /\ NoDup (uniqueArray (Some l))
  /\ (forall x, x ∈ uniqueArray (Some l) <-> x ∈ l)
  /\ sublist (uniqueArray (Some l)) l
  /\ uniqueArray (Some l) `prefix_of` uniqueArray (Some (l ++ l')).
Proof.
  split; [done|]. unfold uniqueArray, new_Set.
  destruct (fold_set_spec l [] (NoDup_nil_2)) as (Hnd & Hmem & more & Hmore & Hsub).
  split_and!; [done| | |].
  - intros x. rewrite Hmem. split; [by intros [?%elem_of_nil|?]|by right].
  - by rewrite Hmore.
  - rewrite fold_set_app.
    destruct (fold_set_spec l' _ Hnd) as (_ & _ & more' & -> & _).
    by exists more'.
Qed.

(** X24. [uniqueArray] returns an array as it is exactly when no
    element occurs twice in it; so doing it twice is the same as doing
    it once. *)
Theorem uniqueArray_fixed (l : list T) :
  (uniqueArray (Some l) = l <-> NoDup l)
  /\ uniqueArray (Some (uniqueArray (Some l))) = uniqueArray (Some l).
Proof.
  assert (Hfix : forall l0 acc : list T, NoDup (acc ++ l0) ->
            foldl (fun s x => set_add x s) acc l0 = acc ++ l0).
  { induction l0 as [|x l0 IH]; intros acc Hnd; cbn; [by rewrite app_nil_r|].
    unfold set_add at 2. destruct (decide (x ∈ acc)) as [Hin|Hin].
    - apply list.NoDup_app in Hnd as (_ & Hd & _). exfalso. apply (Hd x Hin). by left.
    - rewrite IH; rewrite <- app_assoc; done. }
  destruct (fold_set_spec l [] (NoDup_nil_2)) as (Hnd & _).
  assert (Hiff : uniqueArray (Some l) = l <-> NoDup l).
  { unfold uniqueArray, new_Set. split; [by intros <-|]. intros Hl. by apply Hfix. }
  split; [done|]. unfold uniqueArray, new_Set. by apply Hfix.
Qed.

End Unique.

Section Identifiers.
Import Utils.

Lemma to_hex_digit (r : N) :
  (r < 16)%N -> exists c, to_hex r = [c] /\ lower_hex c = true.
Proof.
  intros Hr. rewrite <- (N2Nat.id r).
  assert (Hn : (N.to_nat r < 16)%nat) by lia.
  revert Hn. generalize (N.to_nat r). intros n Hn.
  do 16 (destruct n as [|n]; [by eexists|]). lia.
Qed.

Lemma to_hex_variant (r : N) :
  exists c, to_hex (N.lor (N.land r 3) 8) = [c] /\ c ∈ variant_digits.
Proof.
  change 3%N with (N.ones 2). rewrite N.land_ones.
  assert (Hm : (r mod 2 ^ 2 < 4)%N) by (apply N.mod_lt; done).
  revert Hm. generalize (r mod 2 ^ 2)%N. intros m Hm.
  rewrite <- (N2Nat.id m).
  assert (Hn : (N.to_nat m < 4)%nat) by lia.
  revert Hn. generalize (N.to_nat m). intros n Hn.
  do 4 (destruct n as [|n];
        [eexists; split; [reflexivity|by_computation]|]).
  lia.
Qed.

Lemma uuid_fill_spec (random : nat -> N) (template : jsstring) (i : nat) :
  (forall j, (random j < 16)%N) ->
  length (uuid_fill template random i) = length template
  /\ forall k c, template !! k = Some c ->
       exists c', uuid_fill template random i !! k = Some c'
         /\ (if (c =? 120)%N then lower_hex c' = true
             else if (c =? 121)%N then c' ∈ variant_digits
             else c' = c).
Proof.
  intros Hr. revert i. induction template as [|c0 t IH]; intros i; [done|].
  destruct (IH i) as [Hlen Hpos]. destruct (IH (S i)) as [Hlen' Hpos'].
  cbn [uuid_fill]. unfold uuid_digit.
  destruct (c0 =? 120)%N eqn:Hx; cbn [orb].
  - destruct (to_hex_digit (random i) (Hr i)) as (c' & -> & Hc').
    split; [cbn; by rewrite Hlen'|].
    intros [|k] c Hk; cbn in Hk.
    + injection Hk as <-. exists c'. by rewrite Hx.
    + by apply Hpos'.
  - destruct (c0 =? 121)%N eqn:Hy.
    + destruct (to_hex_variant (random i)) as (c' & -> & Hc').
      split; [cbn; by rewrite Hlen'|].
      intros [|k] c Hk; cbn in Hk.
      * injection Hk as <-. exists c'. by rewrite Hx, Hy.
      * by apply Hpos'.
    + split; [cbn; by rewrite Hlen|].
      intros [|k] c Hk; cbn in Hk.
      * injection Hk as <-. exists c0. by rewrite Hx, Hy.
      * by apply Hpos.
Qed.

Lemma generateUUID_unfold (random : nat -> N) :
  generateUUID random = uuid_fill uuid_template random 0.
Proof. reflexivity. Qed.

(** X25. With draws below sixteen, as [(Math.random() * 16) | 0]
    gives them, an identifier has thirty-six code units: a hyphen at
    8, 13, 18 and 23, the digit [4] at 14, one of [8], [9], [a] and
    [b] at 19, and a hexadecimal digit in lower case everywhere
    else. *)
Theorem generateUUID_shape (random : nat -> N) :
  (forall i, (random i < 16)%N) ->
  length (generateUUID random) = 36%nat
  /\ forall (k : nat) (c : code_unit), generateUUID random !! k = Some c ->
       match k with
       | 8%nat | 13%nat | 18%nat | 23%nat => c = 45%N
       | 14%nat => c = 52%N
       | 19%nat => c ∈ variant_digits
       | _ => lower_hex c = true
       end.
Proof.
  intros Hr. rewrite generateUUID_unfold.
  destruct (uuid_fill_spec random uuid_template 0 Hr) as [Hlen Hpos].
  split; [exact Hlen|]. intros k c Hk.
  assert (Hlt : (k < 36)%nat).
  { apply lookup_lt_Some in Hk. rewrite Hlen in Hk. exact Hk. }
  destruct (uuid_template !! k) as [c0|] eqn:Ht;
    [|apply lookup_ge_None in Ht; vm_compute in Ht; lia].
  destruct (Hpos k c0 Ht) as (c' & Hc' & Hok).
  rewrite Hc' in Hk. injection Hk as <-.
  do 36 (destruct k as [|k];
         [vm_compute in Ht; injection Ht as <-; exact Hok|]).
  clear -Hlt. lia.
Qed.

Lemma generateUUID_shape_witness :
  length (generateUUID (fun i => N.of_nat i mod 16)%N) = 36%nat.
Proof.
  exact (proj1 (generateUUID_shape (fun i => N.of_nat i mod 16)%N
                  (fun i => N.mod_lt (N.of_nat i) 16 ltac:(done)))).
Defined.

End Identifiers.

Section Delays.
Import Utils.
Context {A : Type}.

Lemma debounce_run_app (evs evs' : list (timer_event A)) (d : debounced) :
  debounce_run (evs ++ evs') d = debounce_run evs' (debounce_run evs d).
Proof. apply foldl_app. Qed.

Lemma debounce_run_invokes (args : list A) (d : debounced) :
  debounce_applied (debounce_run (Invoke <$> args) d) = debounce_applied d.
Proof.
  revert d. induction args as [|a args IH]; intros d; [done|].
  cbn. change (foldl debounce_step ?x ?l) with (debounce_run l x). by rewrite IH.
Qed.

(** X26. Of a burst of calls to a debounced function, whatever timer
    was set before it, only the last one counts: when the timer fires
    after the burst, [func] is called once, with the arguments of the
    last call, and no timer is left. *)
Theorem debounce_burst (args : list A) (last_args : A) (d : debounced) :
  debounce_run ((Invoke <$> args) ++ [Invoke last_args; Fire]) d
  = {| timeout := None; debounce_applied := debounce_applied d ++ [last_args] |}.
Proof.
  rewrite debounce_run_app. cbn. by rewrite debounce_run_invokes.
Qed.

(** X27. Whatever is called and whenever the timer fires, a debounced
    function calls [func] at most once for each time the timer fires;
    the calls of [func], and then the arguments the timer holds, are
    arguments of calls of the debounced function in their order, each
    used at most once. *)
Theorem debounce_applies_in_order (evs : list (timer_event A)) (d : debounced) :
  exists more,
    debounce_applied (debounce_run evs d) = debounce_applied d ++ more
    /\ (length more <= fired evs)%nat
    /\ sublist (more ++ option_list (timeout (debounce_run evs d)))
         (option_list (timeout d) ++ invoked evs).
Proof.
  revert d. induction evs as [|ev evs IH]; intros d.
  - exists []. rewrite app_nil_r. cbn. split_and!; [done|done|].
    by rewrite app_nil_r.
  - change (debounce_run (ev :: evs) d) with (debounce_run evs (debounce_step d ev)).
    destruct (IH (debounce_step d ev)) as (more & Happ & Hlen & Hsub).
    destruct ev as [a|]; cbn [debounce_step] in *.
    + exists more. cbn in Happ, Hsub |- *. split_and!; [done|done|].
      change (sublist (more ++ option_list
                (timeout (debounce_run evs (debounce_invoke a d))))
              (option_list (timeout d) ++ [a] ++ invoked evs)).
      by apply sublist_inserts_l.
    + destruct (timeout d) as [a|] eqn:Ht.
      * assert (E : debounce_fire d
                    = {| timeout := None;
                         debounce_applied := debounce_applied d ++ [a] |})
          by (unfold debounce_fire; by rewrite Ht).
        rewrite E in *. cbn [timeout debounce_applied option_list app] in Happ, Hsub.
        exists (a :: more). split_and!.
        -- by rewrite Happ, <- app_assoc.
        -- unfold fired in *. cbn. lia.
        -- cbn. by apply sublist_skip.
      * assert (E : debounce_fire d = d) by (unfold debounce_fire; by rewrite Ht).
        rewrite E in *. rewrite Ht in Hsub. exists more.
        split_and!; [done|unfold fired in *; cbn; lia|done].
Qed.

Lemma throttle_run_cons (ev : timer_event (A * bool))
    (evs : list (timer_event (A * bool))) (t : throttled) :
  throttle_run (ev :: evs) t = throttle_run evs (throttle_step t ev).
Proof. done. Qed.

Lemma throttle_run_waiting (calls : list (A * bool)) (t : throttled) :
  inThrottle t = true -> throttle_run (Invoke <$> calls) t = t.
Proof.
  intros Ht. induction calls as [|[a thr] calls IH]; [done|].
  rewrite fmap_cons, throttle_run_cons. cbn [throttle_step].
  unfold throttle_invoke. by rewrite Ht.
Qed.

(** X28. A throttled function that is not waiting calls [func] at
    once.  When [func] returns, every call that follows is dropped
    until the timer fires, so the last calls of a burst are lost.
    When [func] throws, the function is not waiting afterwards: as
    long as [func] throws, every call runs it. *)
Theorem throttle_burst (first_args : A) (calls : list (A * bool))
    (args : list A) (t : throttled) :
  inThrottle t = false ->
  throttle_run (Invoke (first_args, false) :: (Invoke <$> calls)) t
  = {| inThrottle := true;
       throttle_applied := throttle_applied t ++ [first_args] |}
  /\ throttle_run (Invoke <$> ((fun a => (a, true)) <$> args)) t
     = {| inThrottle := false;
          throttle_applied := throttle_applied t ++ args |}.
Proof.
  intros Ht. split.
  - rewrite throttle_run_cons. cbn [throttle_step].
    unfold throttle_invoke at 1. rewrite Ht. by apply throttle_run_waiting.
  - revert t Ht. induction args as [|a args IH]; intros t Ht.
    + destruct t. cbn in *. by rewrite app_nil_r, Ht.
    + rewrite !fmap_cons, throttle_run_cons. cbn [throttle_step].
      unfold throttle_invoke at 1. rewrite Ht, IH by done.
      cbn. by rewrite <- app_assoc.
Qed.




End Delays.

Section UtilitySamples.
Import Utils.
#[local] Existing Instance ReferenceEngine.engine.

Lemma getNestedProperty_composes_witness :
  getNestedProperty Cases.profile (lit "personal.contact") JUndefined
  = getNestedProperty (getNestedProperty Cases.profile (lit "personal") JUndefined)
      (lit "contact") JUndefined.
Proof.
  assert (H1 : trim (lit "personal") <> []) by (vm_compute; congruence).
  assert (H2 : trim (lit "contact") <> []) by (vm_compute; congruence).
  exact (getNestedProperty_composes Cases.profile (lit "personal") (lit "contact")
           JUndefined H1 H2).
Defined.

Lemma dotted_key_is_out_of_reach_witness :
  getNestedProperty (JObj [(lit "a.b", JBool true)]) (lit "a.b") JNull
  = getNestedProperty (JObj []) (lit "a.b") JNull.
Proof.
  assert (H1 : (46%N : code_unit) ∈ lit "a.b") by by_computation.
  exact (dotted_key_is_out_of_reach (lit "a.b") (JBool true) [] (lit "a.b") JNull H1).
Defined.

Lemma throttle_burst_witness :
  throttle_run [Invoke (1%nat, false); Invoke (2%nat, false); Invoke (3%nat, true)]
    {| inThrottle := false; throttle_applied := [] |}
  = {| inThrottle := true; throttle_applied := [1%nat] |}
  /\ throttle_run [Invoke (1%nat, true); Invoke (2%nat, true); Invoke (3%nat, true)]
       {| inThrottle := false; throttle_applied := [] |}
     = {| inThrottle := false; throttle_applied := [1%nat; 2%nat; 3%nat] |}.
Proof.
  exact (throttle_burst 1%nat [(2%nat, false); (3%nat, true)]
           [1%nat; 2%nat; 3%nat]
           {| inThrottle := false; throttle_applied := [] |} eq_refl).
Defined.

End UtilitySamples.
